(** * dlgo: the Go rules engine of [dlgo/goboard.py]

    A shallow embedding of [Move], [GoString], [Board] and [GameState],
    and of [is_point_an_eye] of [dlgo/agent/helpers.py], followed by the
    properties of the rules engine.

    Python raises exceptions and mutates boards in place.  Both effects are
    explicit here: a computation is a function from a state to an
    [Outcome], which is either a normal return or a raised fault, and in
    both cases carries the state as the code left it. *)

From stdpp Require Import gmap list fin_maps fin_sets strings.
From Stdlib Require Import ZArith.

Local Open Scope Z_scope.

(** ** Faults and the state-and-exception monad *)

(** The two exceptions the module can raise: a failed [assert] and an
    access to an attribute that the object does not have.  The third fault
    is not a Python exception: it marks the use of a board reference that
    the store does not hold, which no Python program can form. *)
Inductive Fault := AssertionError | AttributeError | DanglingReference.

#[global] Instance Fault_eq_dec : EqDecision Fault.
Proof. solve_decision. Defined.

(** Result of a computation that has no state: GoString and Move methods. *)
Inductive Try (A : Type) :=
  | Value (a : A)
  | Fails (e : Fault).
Arguments Value {A} a.
Arguments Fails {A} e.

#[global] Instance Try_ret : MRet Try := fun _ a => Value a.
#[global] Instance Try_bind : MBind Try := fun _ _ f m =>
  match m with
  | Value a => f a
  | Fails e => Fails e
  end.
#[global] Instance Try_fmap : FMap Try := fun _ _ f m =>
  match m with
  | Value a => Value (f a)
  | Fails e => Fails e
  end.

(** Result of a computation over a mutable state [S]. A raised fault keeps
    the state reached when it was raised: Python does not roll back. *)
Inductive Outcome (S A : Type) :=
  | Returned (a : A) (s : S)
  | Raised (e : Fault) (s : S).
Arguments Returned {S A} a s.
Arguments Raised {S A} e s.

Definition final_state {S A} (o : Outcome S A) : S :=
  match o with
  | Returned _ s => s
  | Raised _ s => s
  end.

Definition M (S A : Type) : Type := S → Outcome S A.

Definition ret {S A} (a : A) : M S A := fun s => Returned a s.

Definition bind {S A B} (m : M S A) (k : A → M S B) : M S B := fun s =>
  match m s with
  | Returned a s' => k a s'
  | Raised e s' => Raised e s'
  end.

Definition raise {S A} (e : Fault) : M S A := fun s => Raised e s.
Definition get_state {S} : M S S := fun s => Returned s s.
Definition modify {S} (f : S → S) : M S unit := fun s => Returned tt (f s).

Definition lift {S A} (t : Try A) : M S A :=
  match t with
  | Value a => ret a
  | Fails e => raise e
  end.

(** [assert c] *)
Definition assert {S} (c : bool) : M S unit :=
  if c then ret tt else raise AssertionError.

Declare Scope py_scope.
Delimit Scope py_scope with py.
Notation "'let!' x ':=' m 'in' k" := (bind m (fun x => k))
  (at level 10, x pattern, m at level 100, k at level 200) : py_scope.
Notation "m ';;;' k" := (bind m (fun _ => k))
  (at level 100, k at level 200, right associativity) : py_scope.

(** [for x in xs: body x] *)
Fixpoint for_each {S X} (xs : list X) (body : X → M S unit) : M S unit :=
  match xs with
  | [] => ret tt
  | x :: xs' => bind (body x) (fun _ => for_each xs' body)
  end.

(** ** External collaborators: [dlgo.gotypes] *)

Module gotypes.

(** Modelled from the spec: the module [dlgo.gotypes] is imported by
    [goboard.py] but is not among the sources.  "Player: one of two
    values; has a total, involution-like other mapping (black, white)". *)
Inductive Player := black | white.

Definition other (p : Player) : Player :=
  match p with
  | black => white
  | white => black
  end.

(** Modelled from the spec: "Coordinate: integer row/column pair,
    1-indexed; neighbors() yields the orthogonally adjacent coordinates
    without bounds filtering".  The order (up, down, left, right) is the
    one of the [Point] namedtuple this code base is written against. *)
Record Point := mkPoint { row : Z; col : Z }.

Definition neighbors (p : Point) : list Point :=
  [ mkPoint (row p - 1) (col p);
    mkPoint (row p + 1) (col p);
    mkPoint (row p) (col p - 1);
    mkPoint (row p) (col p + 1) ].

End gotypes.
Export gotypes.

#[global] Instance Player_eq_dec : EqDecision Player.
Proof. solve_decision. Defined.

#[global] Instance Player_countable : Countable Player.
Proof.
  refine (inj_countable' (fun p => match p with black => true | white => false end)
                         (fun b : bool => if b then black else white) _).
  by intros [].
Defined.

#[global] Instance Point_eq_dec : EqDecision Point.
Proof. solve_decision. Defined.

#[global] Instance Point_countable : Countable Point.
Proof.
  refine (inj_countable' (fun p => (row p, col p))
                         (fun rc => mkPoint rc.1 rc.2) _).
  by intros [].
Defined.

(** ** Move *)

Module Move.

(** The four attributes [Move.__init__] sets. *)
Record t := mk {
  point : option Point;
  is_play : bool;
  is_pass : bool;
  is_resign : bool
}.

(** [Move.__init__(point=None, is_pass=False, is_resign=False)] *)
Definition init (point : option Point) (is_pass is_resign : bool) : Try t :=
  if xorb (xorb (bool_decide (point ≠ None)) is_pass) is_resign
  then Value (mk point (bool_decide (point ≠ None)) is_pass is_resign)
  else Fails AssertionError.

(** [Move.play(point)], [Move.pass_turn()], [Move.resign()] *)
Definition play (point : Point) : Try t := init (Some point) false false.
Definition pass_turn : Try t := init None true false.
Definition resign : Try t := init None false true.

(** How many of the three variants a move has selected. *)
Definition selected (m : t) : nat :=
  Nat.b2n (is_play m) + Nat.b2n (is_pass m) + Nat.b2n (is_resign m).

(** The same count on the constructor's arguments. *)
Definition requested (point : option Point) (is_pass is_resign : bool) : nat :=
  Nat.b2n (bool_decide (point ≠ None)) + Nat.b2n is_pass + Nat.b2n is_resign.

End Move.

#[global] Instance Move_eq_dec : EqDecision Move.t.
Proof. solve_decision. Defined.

(** ** GoString *)

Module GoString.

(** A [GoString] value: the three attributes set by [__init__], the two
    sets being frozensets. *)
Record t := mk {
  color : Player;
  stones : gset Point;
  liberties : gset Point
}.

(** [GoString(color, stones, liberties)] with the collections given as
    Python lists or sets. *)
Definition init (color : Player) (stones liberties : gset Point) : t :=
  mk color stones liberties.

(** Attribute lookup [self.<name>] for the frozenset-valued attributes.
    The instance has exactly the attributes [stones] and [liberties] of
    that type; any other name is an [AttributeError]. *)
Definition getattr (self : t) (name : string) : Try (gset Point) :=
  if decide (name = "stones") then Value (stones self)
  else if decide (name = "liberties") then Value (liberties self)
  else Fails AttributeError.

(** [without_liberty]: [self.liberties - set([point])] *)
Definition without_liberty (self : t) (point : Point) : t :=
  let new_liberties := liberties self ∖ {[ point ]} in
  init (color self) (stones self) new_liberties.

(** [with_liberty]: [self.liberities | set([point])], the attribute
    name spelled as in the source. *)
Definition with_liberty (self : t) (point : Point) : Try t :=
  libs ← getattr self "liberities";
  let new_liberties := libs ∪ {[ point ]} in
  Value (init (color self) (stones self) new_liberties).

(** [merged_with] *)
Definition merged_with (self go_string : t) : Try t :=
  if bool_decide (color go_string = color self) then
    let combined_stones := stones self ∪ stones go_string in
    Value (init (color self) combined_stones
             ((liberties self ∪ liberties go_string) ∖ combined_stones))
  else Fails AssertionError.

(** [num_liberties]: [len(self.liberties)] *)
Definition num_liberties (self : t) : nat := size (liberties self).

End GoString.

#[global] Instance GoString_eq_dec : EqDecision GoString.t.
Proof. solve_decision. Defined.

(** [GoString.__eq__]: equal color, stones and liberties. *)
Definition GoString_eq (a b : GoString.t) : bool := bool_decide (a = b).

(** ** Objects and identity *)

(** A reference to a [GoString] object.  The attributes of a [GoString] are
    never reassigned, so a reference carries the object's value with its
    address; [is] compares addresses, [==] compares values. *)
Record Ref := mkRef { addr : nat; obj : GoString.t }.

#[global] Instance Ref_eq_dec : EqDecision Ref.
Proof. solve_decision. Defined.

(** [a is b] *)
Definition is_ (a b : Ref) : bool := bool_decide (addr a = addr b).

(** [x in l] on a Python list: some element is [x] or equals [x]. *)
Definition Ref_in (x : Ref) (l : list Ref) : bool :=
  existsb (fun e => is_ x e || GoString_eq (obj x) (obj e)) l.

(** ** Board *)

(** The four attributes [Board.__init__] sets.  A key of [_grid] is bound
    to a string reference or, after a removal, to [None]. *)
Record Board := mkBoard {
  num_rows : Z;
  num_cols : Z;
  _grid : gmap Point (option Ref);
  _hash : Z
}.

(** What a [Board] method runs on: the fields of [self] and the next
    unused object address. *)
Record Mem := mkMem { self : Board; next_addr : nat }.

(** A constructor call [GoString(...)]: a new object at an unused address. *)
Definition new_object (v : GoString.t) : M Mem Ref := fun m =>
  Returned (mkRef (next_addr m) v) (mkMem (self m) (S (next_addr m))).

(** [self._grid.get(point)] *)
Definition grid_get (b : Board) (point : Point) : option Ref :=
  _grid b !! point ≫= id.

(** [self._grid[point] = v] *)
Definition grid_set (point : Point) (v : option Ref) : M Mem unit :=
  modify (fun m =>
    let b := self m in
    mkMem (mkBoard (num_rows b) (num_cols b) (<[point := v]> (_grid b)) (_hash b))
          (next_addr m)).

(** [self._hash ^= code] *)
Definition hash_xor (code : Z) : M Mem unit :=
  modify (fun m =>
    let b := self m in
    mkMem (mkBoard (num_rows b) (num_cols b) (_grid b) (Z.lxor (_hash b) code))
          (next_addr m)).

(** [is_on_grid] *)
Definition is_on_grid (b : Board) (point : Point) : bool :=
  (1 <=? row point) && (row point <=? num_rows b) &&
  ((1 <=? col point) && (col point <=? num_cols b)).

(** [get]: the color at a point, or [None]. *)
Definition get (b : Board) (point : Point) : option Player :=
  match grid_get b point with
  | None => None
  | Some string => Some (GoString.color (obj string))
  end.

(** [get_go_string]: the string object at a point, or [None]. *)
Definition get_go_string (b : Board) (point : Point) : option Ref :=
  match grid_get b point with
  | None => None
  | Some string => Some string
  end.

(** [zobrist_hash] *)
Definition zobrist_hash (b : Board) : Z := _hash b.

(** ** External collaborators: [dlgo.zobrist] and the frozenset order *)

(** The table of [dlgo.zobrist], which is not among the sources: a code
    for every (point, player) pair and the code of the empty board. *)
Class Zobrist := {
  HASH_CODE : Point → Player → Z;
  EMPTY_BOARD : Z
}.

(** The order in which a [for] loop visits a frozenset.  Python fixes no
    order; any enumeration without repetition is allowed. *)
Class FrozensetOrder := {
  set_iter : gset Point → list Point;
  set_iter_perm : ∀ X, set_iter X ≡ₚ elements X
}.

Section Engine.

Context `{!Zobrist, !FrozensetOrder}.

Local Open Scope py_scope.

(** [Board(num_rows, num_cols)] *)
Definition Board_init (num_rows num_cols : Z) : Board :=
  mkBoard num_rows num_cols ∅ EMPTY_BOARD.

(** [_replace_string] *)
Definition _replace_string (new_string : Ref) : M Mem unit :=
  for_each (set_iter (GoString.stones (obj new_string)))
    (fun point => grid_set point (Some new_string)).

(** [_remove_string] *)
Definition _remove_string (string : Ref) : M Mem unit :=
  for_each (set_iter (GoString.stones (obj string))) (fun point =>
    for_each (neighbors point) (fun neighbor =>
      let! m := get_state in
      match grid_get (self m) neighbor with
      | None => ret tt
      | Some neighbor_string =>
          if negb (is_ neighbor_string string) then
            let! v := lift (GoString.with_liberty (obj neighbor_string) point) in
            let! r := new_object v in
            _replace_string r
          else ret tt
      end) ;;;
    grid_set point None ;;;
    hash_xor (HASH_CODE point (GoString.color (obj string)))).

(** The three lists the first loop of [place_stone] fills. *)
Record Scan := mkScan {
  adjacent_same_color : list Ref;
  adjacent_opposite_color : list Ref;
  scan_liberties : list Point
}.

(** One iteration of the loop over [point.neighbors()]. *)
Definition scan_neighbor (b : Board) (player : Player)
    (acc : Scan) (neighbor : Point) : Scan :=
  if negb (is_on_grid b neighbor) then acc
  else match grid_get b neighbor with
       | None =>
           mkScan (adjacent_same_color acc) (adjacent_opposite_color acc)
                  (scan_liberties acc ++ [neighbor])
       | Some neighbor_string =>
           if bool_decide (GoString.color (obj neighbor_string) = player) then
             if negb (Ref_in neighbor_string (adjacent_same_color acc))
             then mkScan (adjacent_same_color acc ++ [neighbor_string])
                         (adjacent_opposite_color acc) (scan_liberties acc)
             else acc
           else
             if negb (Ref_in neighbor_string (adjacent_opposite_color acc))
             then mkScan (adjacent_same_color acc)
                         (adjacent_opposite_color acc ++ [neighbor_string])
                         (scan_liberties acc)
             else acc
       end.

Definition scan (b : Board) (player : Player) (point : Point) : Scan :=
  fold_left (scan_neighbor b player) (neighbors point) (mkScan [] [] []).

(** The merge loop: [new_string = new_string.merged_with(s)] for every
    [s] of [adjacent_same_color]. *)
Fixpoint merge_all (new_string : Ref) (same : list Ref) : M Mem Ref :=
  match same with
  | [] => ret new_string
  | same_color_string :: rest =>
      let! v := lift (GoString.merged_with (obj new_string) (obj same_color_string)) in
      let! r := new_object v in
      merge_all r rest
  end.

(** The body of the last loop: one opposite-color neighbor string. *)
Definition reduce_liberties (point : Point) (other_color_string : Ref)
    : M Mem unit :=
  let! replacement :=
    new_object (GoString.without_liberty (obj other_color_string) point) in
  if negb (Nat.eqb (GoString.num_liberties (obj replacement)) 0) then
    let! r := new_object (GoString.without_liberty (obj other_color_string) point) in
    _replace_string r
  else _remove_string other_color_string.

(** [place_stone] *)
Definition place_stone (player : Player) (point : Point) : M Mem unit :=
  let! m := get_state in
  assert (is_on_grid (self m) point) ;;;
  assert (bool_decide (grid_get (self m) point = None)) ;;;
  let sc := scan (self m) player point in
  let! new_string :=
    new_object (GoString.init player (list_to_set [point])
                  (list_to_set (scan_liberties sc))) in
  let! new_string := merge_all new_string (adjacent_same_color sc) in
  for_each (set_iter (GoString.stones (obj new_string)))
    (fun new_string_point => grid_set new_string_point (Some new_string)) ;;;
  hash_xor (HASH_CODE point player) ;;;
  for_each (adjacent_opposite_color sc) (reduce_liberties point).

(** ** The store of boards *)

(** [Board] objects are mutable and a [GameState] holds a reference to
    one, so the boards live in a store.  [next_free] is the next unused
    [GoString] address. *)
Record World := mkWorld {
  boards : gmap nat Board;
  next_free : nat
}.

(** Run a method of the board object at [l]. *)
Definition on_board {A} (l : nat) (method : M Mem A) : M World A := fun w =>
  match boards w !! l with
  | None => Raised DanglingReference w
  | Some b =>
      match method (mkMem b (next_free w)) with
      | Returned a m => Returned a (mkWorld (<[l := self m]> (boards w)) (next_addr m))
      | Raised e m => Raised e (mkWorld (<[l := self m]> (boards w)) (next_addr m))
      end
  end.

(** Read the board object at [l] with a query that has no effect. *)
Definition query {A} (l : nat) (q : Board → A) : M World A :=
  on_board l (fun m => Returned (q (self m)) m).

(** A new [Board] object holding [b]. *)
Definition new_board (b : Board) : M World nat := fun w =>
  let l := fresh (dom (boards w)) in
  Returned l (mkWorld (<[l := b]> (boards w)) (next_free w)).

(** [copy.deepcopy(board)]: a new [Board] object whose grid holds copies
    of the string objects, one copy per object, so that two points share
    a copy exactly when they shared the original.  The copies keep the
    addresses of the originals as their names; objects of two different
    boards are never compared by [is]. *)
Definition deepcopy (l : nat) : M World nat :=
  let! b := query l (fun b => b) in
  new_board b.

(** ** GameState *)

(** The five attributes [GameState.__init__] sets; [board] is a
    reference into the store. *)
#[warnings="-register-all"]
Inductive GameState := mkGameState {
  board : nat;
  next_player : Player;
  previous_state : option GameState;
  previous_states : gset (Player * Z);
  last_move : option Move.t
}.

(** [GameState.__init__(board, next_player, previous, move)] *)
Definition GameState_init (board_ : nat) (next_player_ : Player)
    (previous : option GameState) (move : option Move.t) : M World GameState :=
  match previous with
  | None => ret (mkGameState board_ next_player_ None ∅ move)
  | Some prev =>
      let! h := query (board prev) zobrist_hash in
      ret (mkGameState board_ next_player_ (Some prev)
             (previous_states prev ∪ {[ (next_player prev, h) ]})
             move)
  end.

(** [next_board.place_stone(player, move.point)]; a move without a point
    makes [place_stone] read [None.row]. *)
Definition place_at (next_board : nat) (player : Player) (move : Move.t)
    : M World unit :=
  match Move.point move with
  | Some point => on_board next_board (place_stone player point)
  | None => raise AttributeError
  end.

(** [apply_move] *)
Definition apply_move (self : GameState) (move : Move.t) : M World GameState :=
  let! next_board :=
    if Move.is_play move then
      let! next_board := deepcopy (board self) in
      place_at next_board (next_player self) move ;;;
      ret next_board
    else ret (board self) in
  GameState_init next_board (other (next_player self)) (Some self) (Some move).

(** [new_game(board_size)] with [board_size] an [int] or a pair. *)
Definition new_game (board_size : Z + Z * Z) : M World GameState :=
  let board_size :=
    match board_size with
    | inl n => (n, n)
    | inr rc => rc
    end in
  let! b := new_board (Board_init board_size.1 board_size.2) in
  GameState_init b black None None.

(** [is_over] *)
Definition is_over (self : GameState) : Try bool :=
  match last_move self with
  | None => Value false
  | Some last =>
      if Move.is_resign last then Value true
      else match previous_state self with
           | None => Fails AttributeError
           | Some prev =>
               match last_move prev with
               | None => Value false
               | Some second_last_move =>
                   Value (Move.is_pass last && Move.is_pass second_last_move)
               end
           end
  end.

(** [is_move_self_capture] *)
Definition is_move_self_capture (self : GameState) (player : Player)
    (move : Move.t) : M World bool :=
  if negb (Move.is_play move) then ret false
  else
    let! next_board := deepcopy (board self) in
    place_at next_board player move ;;;
    let! new_string :=
      query next_board (fun b => Move.point move ≫= get_go_string b) in
    match new_string with
    | None => raise AttributeError
    | Some new_string =>
        ret (Nat.eqb (GoString.num_liberties (obj new_string)) 0)
    end.

(** [does_move_violate_ko] *)
Definition does_move_violate_ko (self : GameState) (player : Player)
    (move : Move.t) : M World bool :=
  if negb (Move.is_play move) then ret false
  else
    let! next_board := deepcopy (board self) in
    place_at next_board player move ;;;
    let! h := query next_board zobrist_hash in
    let next_situation := (other player, h) in
    ret (bool_decide (next_situation ∈ previous_states self)).

(** [is_valid_move] *)
Definition is_valid_move (self : GameState) (move : Move.t) : M World bool :=
  let! over := lift (is_over self) in
  if over then ret false
  else if Move.is_pass move || Move.is_resign move then ret true
  else
    let! c := query (board self) (fun b => Move.point move ≫= get b) in
    if negb (bool_decide (c = None)) then ret false
    else
      let! sc := is_move_self_capture self (next_player self) move in
      if sc then ret false
      else
        let! ko := does_move_violate_ko self (next_player self) move in
        ret (negb ko).

End Engine.

(** ** A concrete table and iteration order, to run the model *)

Definition demo_zobrist : Zobrist := {|
  HASH_CODE := fun p c => Z.shiftl 1 (2 * (32 * row p + col p) + (if c is black then 0 else 1));
  EMPTY_BOARD := 0
|}.

Definition demo_order : FrozensetOrder :=
  Build_FrozensetOrder elements (fun X => Permutation_refl (elements X)).

(** The fault an outcome carries, if any, and the value it returns. *)
Definition fault_of {S A} (o : Outcome S A) : option Fault :=
  match o with
  | Returned _ _ => None
  | Raised e _ => Some e
  end.

Definition value_of {S A} (o : Outcome S A) : option A :=
  match o with
  | Returned a _ => Some a
  | Raised _ _ => None
  end.

(** Run [k] after [o] when [o] returned. *)
Definition and_then {S A B} (o : Outcome S A) (k : A → M S B) : Outcome S B :=
  match o with
  | Returned a s => k a s
  | Raised e s => Raised e s
  end.

(** The moves the three factories build. *)
Definition demo_play (r c : Z) : Move.t := Move.mk (Some (mkPoint r c)) true false false.
Definition demo_pass : Move.t := Move.mk None false true false.
Definition demo_resign : Move.t := Move.mk None false false true.

(** [board.place_stone(player, Point(r, c))] on what [o] left. *)
Definition demo_place (player : Player) (r c : Z) (o : Outcome Mem unit)
    : Outcome Mem unit :=
  and_then o (fun _ => @place_stone demo_zobrist demo_order player (mkPoint r c)).

(** [state.apply_move(m)] on the state [o] returned. *)
Definition demo_apply (m : Move.t) (o : Outcome World GameState)
    : Outcome World GameState :=
  and_then o (fun s => @apply_move demo_zobrist demo_order s m).

(** An empty 5x5 board. *)
Definition demo_empty : Outcome Mem unit :=
  Returned tt (mkMem (@Board_init demo_zobrist 5 5) 0).

(** Black at (3,3), then white at (2,3), (4,3) and (3,2): the black stone
    has the single liberty (3,4). *)
Definition demo_atari : Outcome Mem unit :=
  demo_place white 3 2 (demo_place white 4 3 (demo_place white 2 3
    (demo_place black 3 3 demo_empty))).

(** The same position reached through [GameState]: black passes between
    the white moves, and white is to move. *)
Definition demo_new_game : Outcome World GameState :=
  @new_game demo_zobrist (inl 5) (mkWorld ∅ 0).

Definition demo_atari_game : Outcome World GameState :=
  demo_apply demo_pass (demo_apply (demo_play 3 2)
    (demo_apply demo_pass (demo_apply (demo_play 4 3)
      (demo_apply demo_pass (demo_apply (demo_play 2 3)
        (demo_apply (demo_play 3 3) demo_new_game)))))).

(** A placeholder for the state of an outcome that raised. *)
Definition demo_no_state : GameState := mkGameState 0 black None ∅ None.

Definition demo_state (o : Outcome World GameState) : GameState :=
  default demo_no_state (value_of o).

(** After black's first move at (1,1), a state built by the constructor on
    the empty board of the root with black to move again: the position
    black would reach by playing (1,1) is in its history. *)
Definition demo_after_first : Outcome World GameState :=
  demo_apply (demo_play 1 1) demo_new_game.

Definition demo_repeat : Outcome World GameState :=
  and_then demo_after_first (fun s1 =>
    GameState_init (board (demo_state demo_new_game)) black (Some s1) (Some demo_pass)).

(** The states, stores and boards of the positions above, evaluated. *)
Definition demo_atari_state : GameState :=
  Eval vm_compute in demo_state demo_atari_game.
Definition demo_atari_world : World :=
  Eval vm_compute in final_state demo_atari_game.
Definition demo_first_state : GameState :=
  Eval vm_compute in demo_state demo_after_first.
Definition demo_first_world : World :=
  Eval vm_compute in final_state demo_after_first.
Definition demo_repeat_state : GameState :=
  Eval vm_compute in demo_state demo_repeat.
Definition demo_repeat_world : World :=
  Eval vm_compute in final_state demo_repeat.

(** The board a state refers to in a store. *)
Definition board_in (w : World) (s : GameState) : Board :=
  default (mkBoard 0 0 ∅ 0) (boards w !! board s).

(** ** Specification vocabulary *)

(** Outcome-wise specification of a computation from a state: [Post] for a
    normal return, [Exc] for a raised fault. *)
Definition wp {S A} (c : M S A) (Post : A → S → Prop) (Exc : Fault → S → Prop)
    (s : S) : Prop :=
  match c s with
  | Returned a s' => Post a s'
  | Raised e s' => Exc e s'
  end.

(** The stones on a board: the color [get] returns at every occupied
    point. *)
Definition stones_on (b : Board) : gmap Point Player :=
  omap (fun v : option Ref => (GoString.color ∘ obj) <$> v) (_grid b).

(** Every string object on the board covers the point it is stored at and
    is the object stored at each of its stones. *)
Definition strings_ok (b : Board) : Prop :=
  ∀ p r, grid_get b p = Some r →
    p ∈ GoString.stones (obj r) ∧
    ∀ q, q ∈ GoString.stones (obj r) → grid_get b q = Some r.

(** The object [r] is stored at every one of its stones. *)
Definition live (b : Board) (r : Ref) : Prop :=
  ∀ q, q ∈ GoString.stones (obj r) → grid_get b q = Some r.

(** The value the merge loop of [place_stone] computes from the new
    single-stone string and the same-color neighbor strings. *)
Definition merged (v : GoString.t) (same : list Ref) : GoString.t :=
  foldl (fun v s =>
           GoString.init (GoString.color v)
             (GoString.stones v ∪ GoString.stones (obj s))
             ((GoString.liberties v ∪ GoString.liberties (obj s))
                ∖ (GoString.stones v ∪ GoString.stones (obj s))))
        v same.

(** What the scan has collected: same-color and opposite-color strings
    that are stored on the board, the latter without repetition. *)
Definition scan_ok (b : Board) (player : Player) (sc : Scan) : Prop :=
  Forall (fun r => GoString.color (obj r) = player ∧
                   ∃ nb, grid_get b nb = Some r) (adjacent_same_color sc) ∧
  Forall (fun r => GoString.color (obj r) ≠ player ∧
                   ∃ nb, grid_get b nb = Some r) (adjacent_opposite_color sc) ∧
  NoDup (adjacent_opposite_color sc).

(** The own-color strings of [c0] are still stored on [c]. *)
Definition own_kept (player : Player) (c0 c : Board) : Prop :=
  ∀ q x, grid_get c0 q = Some x → GoString.color (obj x) = player →
         grid_get c q = Some x.

(** Every string object stored on [b] has an address below [n]. *)
Definition addrs_below (b : Board) (n : nat) : Prop :=
  map_Forall (fun _ v => from_option (fun r => addr r <? n)%nat true v = true)
             (_grid b).

Section Invariants.

Context `{!Zobrist, !FrozensetOrder}.

(** The empty-board constant XORed with the code of every (point, color)
    pair on the board. *)
Definition position_hash (b : Board) : Z :=
  map_fold (fun p c acc => Z.lxor acc (HASH_CODE p c)) EMPTY_BOARD (stones_on b).

Definition hash_ok (b : Board) : Prop := zobrist_hash b = position_hash b.

(** The string [place_stone] builds for [player] at [point] on [b], before
    it looks at the opposite-color neighbors. *)
Definition placed_string (b : Board) (player : Player) (point : Point)
    : GoString.t :=
  let sc := scan b player point in
  merged (GoString.init player (list_to_set [point])
            (list_to_set (scan_liberties sc)))
         (adjacent_same_color sc).

(** No opposite-color neighbor string of [point] loses its last liberty. *)
Definition captures_nothing (b : Board) (player : Player) (point : Point) : Prop :=
  Forall (fun r => GoString.num_liberties
                     (GoString.without_liberty (obj r) point) ≠ 0%nat)
         (adjacent_opposite_color (scan b player point)).

(** The boards a fresh board reaches through calls of [place_stone] that
    return. *)
Inductive reachable : Board → Prop :=
  | reachable_init rows cols : reachable (Board_init rows cols)
  | reachable_place b n player point m' :
      reachable b →
      place_stone player point (mkMem b n) = Returned tt m' →
      reachable (self m').

(** Invariant of the opposite-color loop of [place_stone], over the
    strings still to visit; [Hb] says whether the hash was right on
    entry. *)
Definition reduce_inv (Hb : Prop) (player : Player) (c0 : Board)
    (l : list Ref) (m : Mem) : Prop :=
  strings_ok (self m) ∧ (Hb → hash_ok (self m)) ∧
  Forall (live (self m)) l ∧ NoDup l ∧
  Forall (fun r => GoString.color (obj r) ≠ player) l ∧
  own_kept player c0 (self m).

(** What holds when the loop raises. *)
Definition reduce_exc (Hb : Prop) (player : Player) (c0 : Board)
    (e : Fault) (m : Mem) : Prop :=
  e = AttributeError ∧ (Hb → hash_ok (self m)) ∧ own_kept player c0 (self m).

(** Invariant of the loop of [_remove_string] over the stones of [r], from
    the board [c]: the stones visited are cleared and hashed out. *)
Definition remove_inv (Hb : Prop) (r : Ref) (c : Board)
    (l : list Point) (m : Mem) : Prop :=
  NoDup l ∧ (∀ p, p ∈ l → p ∈ GoString.stones (obj r)) ∧
  (∀ q, q ∈ GoString.stones (obj r) → q ∉ l → grid_get (self m) q = None) ∧
  (∀ q, q ∉ GoString.stones (obj r) ∨ q ∈ l →
        grid_get (self m) q = grid_get c q) ∧
  (Hb → hash_ok (self m)).

(** [place_stone] for every (player, point) of a list, in order. *)
Definition place_all (moves : list (Player * Point)) : M Mem unit :=
  for_each moves (fun mv => place_stone mv.1 mv.2).

(** The board and the allocator the program reaches from a fresh board:
    through calls of [place_stone] that return, and through allocations
    made elsewhere in between. *)
Inductive reachable_mem : Mem → Prop :=
  | reachable_mem_init rows cols n :
      reachable_mem (mkMem (Board_init rows cols) n)
  | reachable_mem_alloc m k :
      reachable_mem m → reachable_mem (mkMem (self m) (next_addr m + k))
  | reachable_mem_place m player point m' :
      reachable_mem m →
      place_stone player point m = Returned tt m' →
      reachable_mem m'.
End Invariants.

(** The moves that lead to [demo_atari], and black stones on the four
    points around (3,3). *)
Definition demo_atari_moves : list (Player * Point) :=
  [ (black, mkPoint 3 3); (white, mkPoint 2 3); (white, mkPoint 4 3);
    (white, mkPoint 3 2) ].


Definition demo_fresh : Mem := mkMem (@Board_init demo_zobrist 5 5) 0.

Definition demo_atari_mem : Mem :=
  Eval vm_compute in
    final_state (@place_all demo_zobrist demo_order demo_atari_moves demo_fresh).


(** ** [dlgo/agent/helpers.py] *)

(** The list [corners] of [is_point_an_eye]. *)
Definition corners (point : Point) : list Point :=
  [ mkPoint (row point - 1) (col point - 1);
    mkPoint (row point - 1) (col point + 1);
    mkPoint (row point + 1) (col point - 1);
    mkPoint (row point + 1) (col point + 1) ].

(** The first loop of [is_point_an_eye]: [false] when it returns [False]
    at a neighbor on the grid whose color is not [color], [true] when it
    runs to its end. *)
Fixpoint neighbors_friendly (b : Board) (color : Player) (nbs : list Point)
    : bool :=
  match nbs with
  | [] => true
  | neighbor :: rest =>
      if is_on_grid b neighbor then
        if is_on_grid b neighbor then
          let neighbor_color := get b neighbor in
          if negb (bool_decide (neighbor_color = Some color)) then false
          else neighbors_friendly b color rest
        else neighbors_friendly b color rest
      else neighbors_friendly b color rest
  end.

(** The second loop: the counters [friendly_corners] and
    [off_board_corners] after the corners in [cs]. *)
Definition count_corner (b : Board) (color : Player)
    (acc : nat * nat) (corner : Point) : nat * nat :=
  let '(friendly_corners, off_board_corners) := acc in
  if is_on_grid b corner then
    let corner_color := get b corner in
    if bool_decide (corner_color = Some color)
    then (S friendly_corners, off_board_corners)
    else (friendly_corners, off_board_corners)
  else (friendly_corners, S off_board_corners).

Definition count_corners (b : Board) (color : Player) (cs : list Point)
    : nat * nat :=
  fold_left (count_corner b color) cs (0%nat, 0%nat).

(** [is_point_an_eye(board, point, color)] *)
Definition is_point_an_eye (b : Board) (point : Point) (color : Player) : bool :=
  if negb (bool_decide (get b point = None)) then false
  else if negb (neighbors_friendly b color (neighbors point)) then false
  else
    let '(friendly_corners, off_board_corners) :=
      count_corners b color (corners point) in
    if (0 <? off_board_corners)%nat then
      Nat.eqb (off_board_corners + friendly_corners) 4
    else (3 <=? friendly_corners)%nat.

(** ** Invariants of the boards the program reaches *)

(** Stones lie on the grid. *)
Definition on_grid_ok (b : Board) : Prop :=
  ∀ p r, grid_get b p = Some r → is_on_grid b p = true.

(** [q] is a free point of the grid next to a stone of the string [v]. *)
Definition is_liberty_of (b : Board) (v : GoString.t) (q : Point) : Prop :=
  is_on_grid b q = true ∧ grid_get b q = None ∧
  ∃ s, s ∈ GoString.stones v ∧ q ∈ neighbors s.

(** The liberties a string records are exactly its liberties on the
    board. *)
Definition liberties_ok (b : Board) : Prop :=
  ∀ p r, grid_get b p = Some r →
    ∀ q, q ∈ GoString.liberties (obj r) ↔ is_liberty_of b (obj r) q.

(** Neighboring stones of one color belong to one string. *)
Definition maximal_ok (b : Board) : Prop :=
  ∀ p q r r', grid_get b p = Some r → q ∈ neighbors p →
    grid_get b q = Some r' → GoString.color (obj r') = GoString.color (obj r) →
    q ∈ GoString.stones (obj r).

(** Two stored objects with one address are one object. *)
Definition addr_inj (b : Board) : Prop :=
  ∀ p q r r', grid_get b p = Some r → grid_get b q = Some r' →
    addr r = addr r' → r = r'.

(** Any two stones of the set are joined by a path of neighboring stones
    of the set. *)
Definition step_in (S : gset Point) (x y : Point) : Prop :=
  x ∈ S ∧ y ∈ S ∧ y ∈ neighbors x.

Definition connected (S : gset Point) : Prop :=
  ∀ x y, x ∈ S → y ∈ S → rtc (step_in S) x y.

Definition connected_ok (b : Board) : Prop :=
  ∀ p r, grid_get b p = Some r → connected (GoString.stones (obj r)).

(** A step from a stone to a neighboring stone of the same color. *)
Definition same_color_step (b : Board) (x y : Point) : Prop :=
  y ∈ neighbors x ∧ get b x ≠ None ∧ get b y = get b x.

(** Some opposite-color string next to [point] has a single liberty. *)
Definition in_atari_next_to (b : Board) (player : Player) (point : Point)
    : Prop :=
  ∃ nb r, nb ∈ neighbors point ∧ get_go_string b nb = Some r ∧
          GoString.color (obj r) ≠ player ∧
          GoString.num_liberties (obj r) = 1%nat.

(** The store [w'] holds every board of [w] as it was, and its allocator
    has not gone back. *)
Definition extends (w w' : World) : Prop :=
  (∀ l b, boards w !! l = Some b → boards w' !! l = Some b) ∧
  (next_free w ≤ next_free w')%nat.

(** However the computation ends, the allocator stays at or above [n]. *)
Definition grows {A} (n : nat) (c : M Mem A) (m : Mem) : Prop :=
  wp c (fun _ m' => (n ≤ next_addr m')%nat) (fun _ m' => (n ≤ next_addr m')%nat) m.

(** The store after a trial placement: the copy, at a new address, holds
    what [place_stone] left. *)
Definition trial_world (w : World) (m' : Mem) : World :=
  mkWorld (<[fresh (dom (boards w)) := self m']> (boards w)) (next_addr m').

(** The states before [s], the latest first. *)
Fixpoint ancestors (s : GameState) : list GameState :=
  match s with
  | mkGameState _ _ (Some p) _ _ => p :: ancestors p
  | mkGameState _ _ None _ _ => []
  end.

(** What [GameState.__init__] records of a state: its player to move and
    the hash of its board. *)
Definition hashed_situation (w : World) (s : GameState) : Player * Z :=
  (next_player s, zobrist_hash (board_in w s)).

(** The states of a game: [new_game], then [apply_move] on a state of the
    game; in between the store may grow as under [extends]. *)
Inductive game `{!Zobrist, !FrozensetOrder} : World → GameState → Prop :=
  | game_new size w0 s w :
      new_game size w0 = Returned s w → game w s
  | game_move s mv w s' w' :
      game w s → apply_move s mv w = Returned s' w' → game w' s'
  | game_later w s w' :
      game w s → extends w w' → game w' s.

(** The black string of [demo_atari_mem], and the position after black
    extends it to (3,4). *)
Definition demo_atari_black : Ref :=
  Eval vm_compute in
    default (mkRef 0 (GoString.init black ∅ ∅))
            (get_go_string (self demo_atari_mem) (mkPoint 3 3)).

Definition demo_extend_mem : Mem :=
  Eval vm_compute in
    final_state (@place_stone demo_zobrist demo_order black (mkPoint 3 4)
                   demo_atari_mem).

(** Black stones on (1,2), (2,1) and (2,2): the corner (1,1) is an eye of
    black.  The same position in a game, white passing in between, with
    white to move. *)
Definition demo_eye_moves : list (Player * Point) :=
  [ (black, mkPoint 1 2); (black, mkPoint 2 1); (black, mkPoint 2 2) ].

Definition demo_eye_mem : Mem :=
  Eval vm_compute in
    final_state (@place_all demo_zobrist demo_order demo_eye_moves demo_fresh).

Definition demo_eye_game : Outcome World GameState :=
  demo_apply (demo_play 2 2) (demo_apply demo_pass
    (demo_apply (demo_play 2 1) (demo_apply demo_pass
      (demo_apply (demo_play 1 2) demo_new_game)))).

Definition demo_eye_state : GameState :=
  Eval vm_compute in demo_state demo_eye_game.
Definition demo_eye_world : World :=
  Eval vm_compute in final_state demo_eye_game.

(** The store after [is_valid_move] has checked a white play at (3,3). *)
Definition demo_eye_checked : World :=
  Eval vm_compute in
    final_state (@is_valid_move demo_zobrist demo_order demo_eye_state
                   (demo_play 3 3) demo_eye_world).

(** The root of a 5x5 game. *)
Definition demo_root_state : GameState :=
  Eval vm_compute in demo_state demo_new_game.
Definition demo_root_world : World :=
  Eval vm_compute in final_state demo_new_game.

(** The board after black's first move at (1,1). *)
Definition demo_first_board : Board :=
  Eval vm_compute in board_in demo_first_world demo_first_state.

(** The opposite iteration order, for what depends on the order in which
    a frozenset yields its elements. *)
Definition demo_order_rev : FrozensetOrder :=
  Build_FrozensetOrder (fun X => reverse (elements X))
    (fun X => reverse_Permutation (elements X)).

(** [board.place_stone(player, Point(r, c))] on the board [o] has left,
    also when [o] raised: the caller has caught the fault and goes on
    with the same board object. *)
Definition demo_place_on (order : FrozensetOrder) (player : Player) (r c : Z)
    (o : Outcome Mem unit) : Outcome Mem unit :=
  @place_stone demo_zobrist order player (mkPoint r c) (final_state o).

(** A 1x3 board.  Black plays the end point (1,[a]) and the middle point,
    white plays the other end (1,[c]), which takes the last liberty of the
    two black stones, and then the point (1,[a]). *)
Definition demo_row (order : FrozensetOrder) (a c : Z) (calls : nat)
    : Outcome Mem unit :=
  let start := Returned tt (mkMem (@Board_init demo_zobrist 1 3) 0) in
  let moves := [ (black, a); (black, 2); (white, c); (white, a) ] in
  fold_left (fun o mv => demo_place_on order mv.1 1 mv.2 o)
            (take calls moves) start.

(** * Properties *)

(** ** Move construction *)

Lemma Move_init_ok point is_pass is_resign m :
  Move.init point is_pass is_resign = Value m →
  Move.selected m = Move.requested point is_pass is_resign ∧
  (Move.selected m = 1 ∨ Move.selected m = 3)%nat.
Proof.
  unfold Move.init, Move.selected, Move.requested.
  destruct point, is_pass, is_resign; simpl; intros [= <-]; simpl; auto.
Qed.

Lemma Move_init_rejects_none_and_two point is_pass is_resign :
  (Move.requested point is_pass is_resign = 0 ∨
   Move.requested point is_pass is_resign = 2)%nat →
  Move.init point is_pass is_resign = Fails AssertionError.
Proof.
  unfold Move.init, Move.requested.
  destruct point, is_pass, is_resign; simpl; intros [?|?]; congruence.
Qed.

Lemma Move_factories_select_one :
  (∀ p, ∃ m, Move.play p = Value m ∧ Move.selected m = 1%nat ∧ Move.is_play m = true) ∧
  (∃ m, Move.pass_turn = Value m ∧ Move.selected m = 1%nat ∧ Move.is_pass m = true) ∧
  (∃ m, Move.resign = Value m ∧ Move.selected m = 1%nat ∧ Move.is_resign m = true).
Proof. repeat split; intros; eexists; (split; [reflexivity|]); done. Qed.

(** C6, evaluated where it fails: a point together with [is_pass=True] and
    [is_resign=True] requests three variants, the assertion of
    [Move.__init__] holds, and the constructor returns a move with all
    three of [is_play], [is_pass] and [is_resign] set. *)
Theorem Move_init_accepts_three_variants :
  Move.requested (Some (mkPoint 1 1)) true true = 3%nat ∧
  Move.init (Some (mkPoint 1 1)) true true
  = Value (Move.mk (Some (mkPoint 1 1)) true true true).
Proof. split; reflexivity. Qed.

(** ** GoString.merged_with *)

(** C5: on two strings of one color [merged_with] returns the string of
    that color whose stones are the union of the stones and whose
    liberties are the union of the liberties minus those stones; on
    strings of different colors it raises [AssertionError]. *)
Theorem merged_with_spec (A B : GoString.t) :
  (GoString.color A = GoString.color B →
   ∃ G, GoString.merged_with A B = Value G ∧
        GoString.color G = GoString.color A ∧
        GoString.stones G = GoString.stones A ∪ GoString.stones B ∧
        GoString.liberties G =
          (GoString.liberties A ∪ GoString.liberties B) ∖ GoString.stones G) ∧
  (GoString.color A ≠ GoString.color B →
   GoString.merged_with A B = Fails AssertionError).
Proof.
  unfold GoString.merged_with. split; intros Hc.
  - rewrite bool_decide_eq_true_2 by done. eexists. split; [reflexivity|]. done.
  - rewrite bool_decide_eq_false_2 by congruence. done.
Qed.

Lemma merged_with_spec_witness :
  (∃ G, GoString.merged_with
          (GoString.init black {[ mkPoint 1 1 ]} {[ mkPoint 1 2; mkPoint 2 1 ]})
          (GoString.init black {[ mkPoint 1 2 ]} {[ mkPoint 1 1; mkPoint 1 3; mkPoint 2 2 ]})
        = Value G ∧
        GoString.color G = black ∧
        GoString.stones G = {[ mkPoint 1 1 ]} ∪ {[ mkPoint 1 2 ]} ∧
        GoString.liberties G =
          ({[ mkPoint 1 2; mkPoint 2 1 ]} ∪ {[ mkPoint 1 1; mkPoint 1 3; mkPoint 2 2 ]})
            ∖ GoString.stones G) ∧
  GoString.merged_with (GoString.init black {[ mkPoint 1 1 ]} ∅)
                       (GoString.init white {[ mkPoint 1 2 ]} ∅)
  = Fails AssertionError.
Proof.
  split.
  - destruct (merged_with_spec
             (GoString.init black {[ mkPoint 1 1 ]} {[ mkPoint 1 2; mkPoint 2 1 ]})
             (GoString.init black {[ mkPoint 1 2 ]} {[ mkPoint 1 1; mkPoint 1 3; mkPoint 2 2 ]}))
      as [Hsame _].
    apply Hsame. reflexivity.
  - destruct (merged_with_spec (GoString.init black {[ mkPoint 1 1 ]} ∅)
                               (GoString.init white {[ mkPoint 1 2 ]} ∅))
      as [_ Hdiff].
    apply Hdiff. simpl. discriminate.
Defined.

(** ** GameState.is_over *)

(** C9: [is_over] returns [False] when there is no last move, [True] when
    the last move is a resignation whatever came before, [True] when the
    last move and the one before it are passes, and [False] in every other
    case of a state that has a predecessor. *)
Theorem is_over_spec (s : GameState) :
  (last_move s = None → is_over s = Value false) ∧
  (∀ m, last_move s = Some m → Move.is_resign m = true →
        is_over s = Value true) ∧
  (∀ m p m2, last_move s = Some m → previous_state s = Some p →
             last_move p = Some m2 →
             Move.is_pass m = true → Move.is_pass m2 = true →
             is_over s = Value true) ∧
  (∀ m p, last_move s = Some m → previous_state s = Some p →
          Move.is_resign m = false →
          ¬ (Move.is_pass m = true ∧
             ∃ m2, last_move p = Some m2 ∧ Move.is_pass m2 = true) →
          is_over s = Value false).
Proof.
  unfold is_over. repeat split.
  - by intros ->.
  - by intros m -> ->.
  - intros m p m2 -> -> -> -> ->. by destruct (Move.is_resign m).
  - intros m p -> -> -> Hn.
    destruct (last_move p) as [m2|] eqn:Hp; [|done].
    f_equal. apply andb_false_iff.
    destruct (Move.is_pass m) eqn:E1, (Move.is_pass m2) eqn:E2; auto.
    exfalso. apply Hn. eauto.
Qed.

(** A state with a last move that is not a resignation and without a
    predecessor, which only a direct call of the constructor builds, makes
    [is_over] read [None.last_move]. *)
Lemma is_over_needs_predecessor (s : GameState) m :
  last_move s = Some m → Move.is_resign m = false → previous_state s = None →
  is_over s = Fails AttributeError.
Proof. unfold is_over. by intros -> -> ->. Qed.

(** ** The store: reading, copying and framing *)

Section StoreFacts.

Context `{!Zobrist, !FrozensetOrder}.

Lemma World_eta w : mkWorld (boards w) (next_free w) = w.
Proof. by destruct w. Qed.

Lemma query_live {A} l (q : Board → A) w b :
  boards w !! l = Some b → query l q w = Returned (q b) w.
Proof.
  intros Hl. unfold query, on_board. rewrite Hl. simpl.
  rewrite insert_id by done. by rewrite World_eta.
Qed.

Lemma fresh_not_live w l b :
  boards w !! l = Some b → fresh (dom (boards w)) ≠ l.
Proof.
  intros Hl Heq. apply (is_fresh (dom (boards w))).
  rewrite Heq. apply elem_of_dom. eauto.
Qed.

Lemma deepcopy_live l w b :
  boards w !! l = Some b →
  deepcopy l w =
    Returned (fresh (dom (boards w)))
      (mkWorld (<[fresh (dom (boards w)) := b]> (boards w)) (next_free w)).
Proof.
  intros Hl. unfold deepcopy, bind. by rewrite (query_live _ _ _ _ Hl).
Qed.

Lemma on_board_frame {A} l (method : M Mem A) w l0 :
  l0 ≠ l →
  boards (final_state (on_board l method w)) !! l0 = boards w !! l0.
Proof.
  intros Hne. unfold on_board.
  destruct (boards w !! l) as [b|]; [|done].
  destruct (method _); simpl; by rewrite lookup_insert_ne.
Qed.

Lemma place_at_frame l player mv w l0 :
  l0 ≠ l →
  boards (final_state (place_at l player mv w)) !! l0 = boards w !! l0.
Proof.
  intros Hne. unfold place_at.
  destruct (Move.point mv); [by apply on_board_frame | done].
Qed.

Lemma place_at_keeps_live l player mv w b :
  boards w !! l = Some b →
  ∃ b', boards (final_state (place_at l player mv w)) !! l = Some b'.
Proof.
  intros Hl. unfold place_at. destruct (Move.point mv); [|by eauto].
  unfold on_board. rewrite Hl.
  destruct (place_stone _ _ _); simpl; rewrite lookup_insert_eq; eauto.
Qed.

End StoreFacts.

(** ** GameState transitions *)

Section Transitions.

Context `{!Zobrist, !FrozensetOrder}.

(** C8: whatever the move and whether [apply_move] returns or raises, the
    board object of the state it is called on holds afterwards what it
    held before, so [get], [get_go_string] and [zobrist_hash] on it give
    the results they gave before the call. *)
Theorem apply_move_frame (s : GameState) (m : Move.t) (w : World) (b : Board) :
  boards w !! board s = Some b →
  let w' := final_state (apply_move s m w) in
  boards w' !! board s = Some b ∧
  (∀ p, query (board s) (fun b => get b p) w' = Returned (get b p) w' ∧
        query (board s) (fun b => get b p) w = Returned (get b p) w) ∧
  (∀ p, query (board s) (fun b => get_go_string b p) w'
          = Returned (get_go_string b p) w' ∧
        query (board s) (fun b => get_go_string b p) w
          = Returned (get_go_string b p) w) ∧
  query (board s) zobrist_hash w' = Returned (zobrist_hash b) w' ∧
  query (board s) zobrist_hash w = Returned (zobrist_hash b) w.
Proof.
  intros Hl w'.
  assert (Hkeep : boards w' !! board s = Some b).
  { subst w'. unfold apply_move, bind.
    destruct (Move.is_play m).
    - rewrite (deepcopy_live _ _ _ Hl).
      set (l := fresh (dom (boards w))).
      set (wc := {| boards := <[l:=b]> (boards w); next_free := next_free w |}).
      assert (Hne : board s ≠ l).
      { intros Heq. by apply (fresh_not_live w (board s) b). }
      assert (Hc : boards wc !! board s = Some b).
      { subst wc. simpl. by rewrite lookup_insert_ne. }
      pose proof (place_at_frame l (next_player s) m wc (board s) Hne) as Hf.
      destruct (place_at l (next_player s) m wc) as [[] w1|e w1]; simpl in *.
      + unfold GameState_init, bind.
        rewrite Hc in Hf. rewrite (query_live _ _ _ _ Hf). simpl. done.
      + by rewrite Hf.
    - unfold ret, GameState_init, bind.
      rewrite (query_live _ _ _ _ Hl). simpl. done. }
  split; [done|].
  repeat split; intros;
    first [ by rewrite (query_live _ _ _ _ Hkeep)
          | by rewrite (query_live _ _ _ _ Hl) ].
Qed.

(** X25: from a state whose board is in the store, [apply_move] with a move
    that plays no stone returns, on the same board and with the store as
    it was; it raises only with a move that plays a stone, and then with
    the fault of the placement on the copy.  The state it returns has the
    other player to move, the state it was called on as its predecessor,
    the move as its last move, and that state's set of situations
    extended with the pair of that state's player and board hash.  The
    state [new_game] returns has no predecessor and an empty set. *)
Theorem apply_move_spec (s : GameState) (m : Move.t) (w : World) (b : Board) :
  boards w !! board s = Some b →
  match apply_move s m w with
  | Returned s' w' =>
      next_player s' = other (next_player s) ∧
      previous_state s' = Some s ∧
      previous_states s' =
        previous_states s ∪ {[ (next_player s, zobrist_hash b) ]} ∧
      last_move s' = Some m ∧
      (Move.is_play m = false → board s' = board s ∧ w' = w)
  | Raised e w' =>
      Move.is_play m = true ∧
      ∃ l wc, deepcopy (board s) w = Returned l wc ∧
              place_at l (next_player s) m wc = Raised e w'
  end ∧
  (∀ size w0, ∃ root w1,
      new_game size w0 = Returned root w1 ∧
      previous_state root = None ∧ previous_states root = ∅ ∧
      last_move root = None ∧ next_player root = black).
Proof.
  intros Hl. split.
  - unfold apply_move, bind.
    destruct (Move.is_play m) eqn:Hplay.
    + rewrite (deepcopy_live _ _ _ Hl).
      set (l := fresh (dom (boards w))).
      set (wc := {| boards := <[l:=b]> (boards w); next_free := next_free w |}).
      assert (Hne : board s ≠ l).
      { intros Heq. by apply (fresh_not_live w (board s) b). }
      assert (Hc : boards wc !! board s = Some b).
      { subst wc. simpl. by rewrite lookup_insert_ne. }
      pose proof (place_at_frame l (next_player s) m wc (board s) Hne) as Hf.
      destruct (place_at l (next_player s) m wc) as [[] w1|e w1] eqn:Hp;
        simpl in *.
      * unfold GameState_init, bind.
        rewrite Hc in Hf. rewrite (query_live _ _ _ _ Hf). simpl.
        repeat split; done.
      * split; [done|]. eauto.
    + unfold ret, GameState_init, bind.
      rewrite (query_live _ _ _ _ Hl). simpl. repeat split; done.
  - intros size w0. unfold new_game, bind, new_board, GameState_init, ret.
    do 2 eexists. split; [reflexivity|]. done.
Qed.

(** X26: [does_move_violate_ko] returns [False] for a move that plays no
    stone, in particular for the moves of [pass_turn] and [resign]; for a
    move that plays a stone it places the stone on a copy of the board,
    and when that placement returns it returns whether the pair of the
    other player and the hash of the copy is in the state's set of
    previous situations; when the placement raises, as it does on every
    capture, the same fault is raised. *)
Theorem does_move_violate_ko_spec
    (s : GameState) (player : Player) (m : Move.t) (w : World) (b : Board) :
  boards w !! board s = Some b →
  (Move.is_play m = false → does_move_violate_ko s player m w = Returned false w) ∧
  (Move.pass_turn = Value m ∨ Move.resign = Value m →
   does_move_violate_ko s player m w = Returned false w) ∧
  (Move.is_play m = true →
   ∃ l wc, deepcopy (board s) w = Returned l wc ∧
           boards wc !! l = Some b ∧
           match place_at l player m wc with
           | Returned _ w' =>
               ∃ b', boards w' !! l = Some b' ∧
                     does_move_violate_ko s player m w =
                       Returned (bool_decide ((other player, zobrist_hash b')
                                                ∈ previous_states s)) w'
           | Raised e w' => does_move_violate_ko s player m w = Raised e w'
           end).
Proof.
  intros Hl.
  assert (Hnp : Move.is_play m = false →
                does_move_violate_ko s player m w = Returned false w).
  { intros Hp. unfold does_move_violate_ko. by rewrite Hp. }
  split; [done|]. split.
  - intros [Hm|Hm]; apply Hnp; vm_compute in Hm; by injection Hm as <-.
  - intros Hp. unfold does_move_violate_ko, bind. rewrite Hp. simpl.
    rewrite (deepcopy_live _ _ _ Hl).
    set (l := fresh (dom (boards w))).
    set (wc := {| boards := <[l:=b]> (boards w); next_free := next_free w |}).
    exists l, wc. split; [done|]. split.
    { subst wc. simpl. by rewrite lookup_insert_eq. }
    assert (Hc : boards wc !! l = Some b).
    { subst wc. simpl. by rewrite lookup_insert_eq. }
    destruct (place_at_keeps_live l player m wc b Hc) as [b' Hb'].
    destruct (place_at l player m wc) as [[] w1|e w1]; simpl in *; [|done].
    exists b'. split; [done|].
    by rewrite (query_live _ _ _ _ Hb').
Qed.

End Transitions.

(** * The board invariants *)

(** ** Rules for outcome-wise specifications *)

Section WpRules.

Context {S : Type}.

Lemma wp_ret {A} (a : A) (Post : A → S → Prop) Exc (s : S) :
  Post a s → wp (ret a) Post Exc s.
Proof. done. Qed.

Lemma wp_bind {A B} (c : M S A) (k : A → M S B) (Post : B → S → Prop) Exc s :
  wp c (fun a s' => wp (k a) Post Exc s') Exc s → wp (bind c k) Post Exc s.
Proof. unfold wp, bind. by destruct (c s). Qed.

Lemma wp_mono {A} (c : M S A) (P P' : A → S → Prop) (E E' : Fault → S → Prop) s :
  wp c P E s →
  (∀ a s', P a s' → P' a s') → (∀ e s', E e s' → E' e s') →
  wp c P' E' s.
Proof. unfold wp. destruct (c s); auto. Qed.

Lemma wp_for_each {X} (body : X → M S unit) (Inv : list X → S → Prop) Exc l s :
  Inv l s →
  (∀ x rest s, Inv (x :: rest) s → wp (body x) (fun _ s' => Inv rest s') Exc s) →
  wp (for_each l body) (fun _ s' => Inv [] s') Exc s.
Proof.
  intros Hinv Hbody. revert s Hinv.
  induction l as [|x rest IH]; intros s Hinv; simpl.
  - done.
  - apply wp_bind. eapply wp_mono; [by apply Hbody| |done].
    intros ? s' Hs'. by apply IH.
Qed.

End WpRules.

(** ** Frozenset iteration *)

Section Order.

Context `{!FrozensetOrder}.

Lemma elem_of_set_iter (X : gset Point) p : p ∈ set_iter X ↔ p ∈ X.
Proof. rewrite (set_iter_perm X). apply elem_of_elements. Qed.

Lemma NoDup_set_iter (X : gset Point) : NoDup (set_iter X).
Proof. rewrite (set_iter_perm X). apply NoDup_elements. Qed.

End Order.

(** ** Grid updates *)

Lemma grid_get_set (b : Board) p v q :
  grid_get (mkBoard (num_rows b) (num_cols b) (<[p := v]> (_grid b)) (_hash b)) q
  = if decide (q = p) then v else grid_get b q.
Proof.
  unfold grid_get. simpl. destruct (decide (q = p)) as [->|Hne].
  - by rewrite lookup_insert_eq.
  - by rewrite lookup_insert_ne.
Qed.

(** A loop that stores [v] at every point of [l]. *)
Lemma write_all_spec (l : list Point) (v : option Ref) (m : Mem) :
  ∃ b', for_each l (fun p => grid_set p v) m = Returned tt (mkMem b' (next_addr m)) ∧
        num_rows b' = num_rows (self m) ∧ num_cols b' = num_cols (self m) ∧
        _hash b' = _hash (self m) ∧
        ∀ q, grid_get b' q = if decide (q ∈ l) then v else grid_get (self m) q.
Proof.
  revert m. induction l as [|p l IH]; intros m.
  - exists (self m). simpl. destruct m. by repeat split.
  - simpl. unfold bind, grid_set at 1, modify.
    set (m1 := mkMem _ _).
    destruct (IH m1) as (b' & -> & Hr & Hc & Hh & Hg).
    exists b'. repeat split; try done.
    intros q. rewrite Hg. subst m1. simpl. rewrite grid_get_set.
    destruct (decide (q = p)) as [->|Hne].
    + rewrite (decide_True (P := p ∈ p :: l)) by apply list_elem_of_here.
      by destruct (decide (p ∈ l)).
    + destruct (decide (q ∈ l)) as [Hin|Hnin].
      * by rewrite decide_True by (by apply list_elem_of_further).
      * rewrite decide_False; [done|].
        intros [?|?]%elem_of_cons; done.
Qed.

(** ** The position hash under single-point changes *)

Section Hash.

Context `{!Zobrist}.

Lemma stones_on_lookup b p : stones_on b !! p = get b p.
Proof.
  unfold stones_on, get, grid_get. rewrite lookup_omap.
  by destruct (_grid b !! p) as [[r|]|].
Qed.

Lemma xor_codes_comm (y h1 h2 : Z) :
  Z.lxor (Z.lxor y h2) h1 = Z.lxor (Z.lxor y h1) h2.
Proof. rewrite !Z.lxor_assoc. f_equal. apply Z.lxor_comm. Qed.

Lemma position_hash_ext b b' :
  (∀ q, get b' q = get b q) → position_hash b' = position_hash b.
Proof.
  intros Hq. unfold position_hash. f_equal.
  apply map_eq. intros q. by rewrite !stones_on_lookup.
Qed.

Lemma position_hash_insert b b' p c :
  get b p = None →
  (∀ q, get b' q = if decide (q = p) then Some c else get b q) →
  position_hash b' = Z.lxor (position_hash b) (HASH_CODE p c).
Proof.
  intros Hp Hq. unfold position_hash.
  assert (stones_on b' = <[p := c]> (stones_on b)) as ->.
  { apply map_eq. intros q. rewrite stones_on_lookup, Hq.
    destruct (decide (q = p)) as [->|Hne].
    - by rewrite lookup_insert_eq.
    - by rewrite lookup_insert_ne, stones_on_lookup. }
  rewrite map_fold_insert_L; [done| |by rewrite stones_on_lookup].
  intros. apply xor_codes_comm.
Qed.

Lemma position_hash_delete b b' p c :
  get b p = Some c →
  (∀ q, get b' q = if decide (q = p) then None else get b q) →
  position_hash b' = Z.lxor (position_hash b) (HASH_CODE p c).
Proof.
  intros Hp Hq. unfold position_hash.
  assert (stones_on b' = delete p (stones_on b)) as ->.
  { apply map_eq. intros q. rewrite stones_on_lookup, Hq.
    destruct (decide (q = p)) as [->|Hne].
    - by rewrite lookup_delete_eq.
    - by rewrite lookup_delete_ne, stones_on_lookup. }
  rewrite (map_fold_delete_L _ _ p c (stones_on b));
    [|intros; apply xor_codes_comm|by rewrite stones_on_lookup].
  by rewrite Z.lxor_assoc, Z.lxor_nilpotent, Z.lxor_0_r.
Qed.

End Hash.

Lemma grid_get_set_hash (b : Board) h q :
  grid_get (mkBoard (num_rows b) (num_cols b) (_grid b) h) q = grid_get b q.
Proof. done. Qed.

Lemma grid_get_insert (b : Board) r c h p v q :
  grid_get (mkBoard r c (<[p := v]> (_grid b)) h) q
  = if decide (q = p) then v else grid_get b q.
Proof.
  unfold grid_get. simpl. destruct (decide (q = p)) as [->|Hne].
  - by rewrite lookup_insert_eq.
  - by rewrite lookup_insert_ne.
Qed.

(** ** The neighbor scan *)

Lemma Ref_in_false r l : Ref_in r l = false → r ∉ l.
Proof.
  unfold Ref_in. intros Hex Hin.
  assert (existsb (fun e => is_ r e || GoString_eq (obj r) (obj e)) l = true) as Ht.
  { apply existsb_exists. exists r. split; [by apply list_elem_of_In|].
    unfold is_. by rewrite bool_decide_eq_true_2. }
  congruence.
Qed.


Lemma scan_neighbor_ok b player sc nb :
  scan_ok b player sc → scan_ok b player (scan_neighbor b player sc nb).
Proof.
  intros (Hs & Ho & Hn). unfold scan_neighbor.
  destruct (negb (is_on_grid b nb)); [done|].
  destruct (grid_get b nb) as [r|] eqn:Hr; [|done].
  destruct (bool_decide (GoString.color (obj r) = player)) eqn:Hc.
  - apply bool_decide_eq_true in Hc.
    destruct (negb (Ref_in r (adjacent_same_color sc))); [|done].
    split; [|done]. simpl. apply Forall_app. split; [done|].
    apply Forall_singleton. eauto.
  - apply bool_decide_eq_false in Hc.
    destruct (negb (Ref_in r (adjacent_opposite_color sc))) eqn:Hin; [|done].
    apply negb_true_iff, Ref_in_false in Hin.
    split; [done|]. simpl. split.
    + apply Forall_app. split; [done|]. apply Forall_singleton. eauto.
    + apply NoDup_app. split; [done|]. split.
      * intros x Hx ->%list_elem_of_singleton. done.
      * apply NoDup_singleton.
Qed.

Lemma scan_is_ok b player point : scan_ok b player (scan b player point).
Proof.
  unfold scan.
  assert (Hinit : scan_ok b player (mkScan [] [] [])).
  { repeat split; simpl; auto using NoDup_nil_2. }
  revert Hinit. generalize (mkScan [] [] []).
  induction (neighbors point) as [|nb nbs IH]; intros sc Hsc; simpl; [done|].
  apply IH. by apply scan_neighbor_ok.
Qed.

(** ** The merge loop *)

Lemma merged_color v same : GoString.color (merged v same) = GoString.color v.
Proof.
  revert v. induction same as [|s same IH]; intros v; simpl; [done|].
  unfold merged in *. simpl. by rewrite IH.
Qed.

Lemma elem_of_merged_stones v same q :
  q ∈ GoString.stones (merged v same) ↔
  q ∈ GoString.stones v ∨ ∃ s, s ∈ same ∧ q ∈ GoString.stones (obj s).
Proof.
  revert v. induction same as [|s same IH]; intros v.
  - simpl. split; [auto|]. intros [?|(s & Hs & _)]; [done|].
    by apply elem_of_nil in Hs.
  - unfold merged in *. simpl. rewrite IH. simpl. rewrite elem_of_union.
    split.
    + intros [[?|?]|(s' & Hs' & Hq)]; eauto using list_elem_of_here.
      right. exists s'. split; [by apply list_elem_of_further|done].
    + intros [?|(s' & [->|Hs']%elem_of_cons & Hq)]; eauto.
Qed.

Lemma merge_all_spec (r : Ref) (same : list Ref) (m : Mem) :
  Forall (fun s => GoString.color (obj s) = GoString.color (obj r)) same →
  ∃ a n', merge_all r same m
          = Returned (mkRef a (merged (obj r) same)) (mkMem (self m) n') ∧
          (a = addr r ∨ (next_addr m ≤ a)%nat) ∧
          ((addr r < next_addr m)%nat → (a < n')%nat).
Proof.
  revert r m. induction same as [|s same IH]; intros r m Hcol.
  - exists (addr r), (next_addr m). simpl. unfold ret.
    split; [by destruct r, m|]. split; [by left|done].
  - apply Forall_cons in Hcol as [Hs Hcol]. simpl.
    unfold bind, GoString.merged_with.
    rewrite bool_decide_eq_true_2 by done. simpl.
    match goal with |- ∃ _ _, merge_all ?r1 _ ?m1 = _ ∧ _ =>
      destruct (IH r1 m1) as (a & n' & -> & Ha & Hlt); [done|] end.
    exists a, n'. split; [done|]. simpl in Ha, Hlt. split; [right; lia|].
    intros _. apply Hlt. lia.
Qed.

Section Place.

Context `{!Zobrist, !FrozensetOrder}.

Lemma place_stone_off_grid player point m :
  is_on_grid (self m) point = false →
  place_stone player point m = Raised AssertionError m.
Proof.
  intros Hoff. unfold place_stone, bind, get_state, assert. by rewrite Hoff.
Qed.

Lemma place_stone_occupied player point m :
  grid_get (self m) point ≠ None →
  place_stone player point m = Raised AssertionError m.
Proof.
  intros Hocc. unfold place_stone, bind, get_state, assert.
  destruct (is_on_grid (self m) point); [|done].
  by rewrite bool_decide_eq_false_2.
Qed.

(** The first four steps of [place_stone] on a free point of the grid:
    they return, with the new string stored at each of its stones and the
    code of the new stone XORed into the hash; the opposite-color loop
    runs from there. *)
Lemma place_stone_unfold player point b n :
  is_on_grid b point = true → grid_get b point = None →
  ∃ new n1 c0,
    (n ≤ addr new < n1)%nat ∧
    obj new = placed_string b player point ∧
    num_rows c0 = num_rows b ∧ num_cols c0 = num_cols b ∧
    _hash c0 = Z.lxor (_hash b) (HASH_CODE point player) ∧
    (∀ q, grid_get c0 q =
          if decide (q ∈ GoString.stones (obj new)) then Some new
          else grid_get b q) ∧
    place_stone player point (mkMem b n)
    = for_each (adjacent_opposite_color (scan b player point))
        (reduce_liberties point) (mkMem c0 n1).
Proof.
  intros Hon Hfree.
  unfold place_stone, bind, get_state, assert. simpl.
  rewrite Hon, bool_decide_eq_true_2 by done.
  unfold ret. simpl.
  destruct (scan_is_ok b player point) as (Hsame & _ & _).
  match goal with |- context [merge_all ?r0 ?same ?m0] =>
    destruct (merge_all_spec r0 same m0) as (a & n1 & -> & Ha & Hlt) end.
  { simpl. eapply Forall_impl; [exact Hsame|]. by intros r [-> _]. }
  simpl in Ha, Hlt.
  simpl.
  match goal with |- context [for_each ?l (fun p => grid_set p ?v) ?m1] =>
    destruct (write_all_spec l v m1) as (b' & -> & Hr & Hc & Hh & Hg) end.
  simpl in *.
  exists (mkRef a (placed_string b player point)), n1,
    (mkBoard (num_rows b') (num_cols b') (_grid b')
       (Z.lxor (_hash b') (HASH_CODE point player))).
  simpl. split; [lia|]. repeat split; try done.
  - by rewrite Hh.
  - intros q. rewrite grid_get_set_hash, Hg.
    destruct (decide (q ∈ set_iter _)) as [Hin|Hnin].
    + by rewrite decide_True by (by apply elem_of_set_iter).
    + rewrite decide_False; [done|]. by rewrite <- elem_of_set_iter.
Qed.

End Place.

Section AfterWrite.

Context `{!Zobrist, !FrozensetOrder}.

Lemma get_of_grid_get b q :
  get b q = (GoString.color ∘ obj) <$> grid_get b q.
Proof. unfold get. by destruct (grid_get b q). Qed.

Lemma placed_string_color b player point :
  GoString.color (placed_string b player point) = player.
Proof. unfold placed_string. by rewrite merged_color. Qed.

Lemma point_in_placed_string b player point :
  point ∈ GoString.stones (placed_string b player point).
Proof.
  unfold placed_string. apply elem_of_merged_stones. left. simpl. set_solver.
Qed.

Lemma placed_string_old_stones b player point q :
  strings_ok b →
  q ∈ GoString.stones (placed_string b player point) → q ≠ point →
  ∃ s, grid_get b q = Some s ∧ GoString.color (obj s) = player ∧
       ∀ q', q' ∈ GoString.stones (obj s) →
             q' ∈ GoString.stones (placed_string b player point).
Proof.
  intros Hok Hq Hne. unfold placed_string in *.
  apply elem_of_merged_stones in Hq as [Hq|(s & Hs & Hq)].
  { simpl in Hq. apply elem_of_union in Hq as [Hq%elem_of_singleton|Hq]; [done|].
    by apply elem_of_empty in Hq. }
  destruct (scan_is_ok b player point) as (Hsame & _ & _).
  rewrite Forall_forall in Hsame.
  destruct (Hsame s Hs) as (Hcol & nb & Hnb).
  destruct (Hok nb s Hnb) as (_ & Hall).
  exists s. split; [by apply Hall|]. split; [done|].
  intros q' Hq'. apply elem_of_merged_stones. right. eauto.
Qed.

(** The board after the new string has been stored and hashed. *)
Lemma after_write b player point new c0 :
  strings_ok b → grid_get b point = None →
  obj new = placed_string b player point →
  (∀ q, grid_get c0 q =
        if decide (q ∈ GoString.stones (obj new)) then Some new
        else grid_get b q) →
  strings_ok c0 ∧
  (∀ q, get c0 q = if decide (q = point) then Some player else get b q) ∧
  Forall (live c0) (adjacent_opposite_color (scan b player point)) ∧
  live c0 new.
Proof.
  intros Hok Hfree Hnew Hg.
  assert (Hlive : live c0 new).
  { intros q Hq. by rewrite Hg, decide_True. }
  split; [|split; [|split]]; [| | |done].
  - intros p r Hp. rewrite Hg in Hp.
    destruct (decide (p ∈ GoString.stones (obj new))) as [Hin|Hnin].
    + injection Hp as <-. done.
    + destruct (Hok p r Hp) as (Hpr & Hall). split; [done|].
      intros q Hq. rewrite Hg.
      destruct (decide (q ∈ GoString.stones (obj new))) as [Hqin|]; [|by apply Hall].
      exfalso. rewrite Hnew in Hqin.
      assert (q ≠ point) as Hne.
      { intros ->. specialize (Hall point Hq). congruence. }
      destruct (placed_string_old_stones b player point q Hok Hqin Hne)
        as (s & Hs & _ & Hsub).
      specialize (Hall q Hq). assert (s = r) as -> by congruence.
      apply Hnin. rewrite Hnew. by apply Hsub.
  - intros q. rewrite !get_of_grid_get, Hg.
    destruct (decide (q = point)) as [->|Hne].
    + rewrite decide_True by (rewrite Hnew; apply point_in_placed_string).
      simpl. by rewrite Hnew, placed_string_color.
    + destruct (decide (q ∈ GoString.stones (obj new))) as [Hqin|]; [|done].
      rewrite Hnew in Hqin.
      destruct (placed_string_old_stones b player point q Hok Hqin Hne)
        as (s & -> & Hcol & _).
      simpl. by rewrite Hnew, placed_string_color, Hcol.
  - destruct (scan_is_ok b player point) as (_ & Hopp & _).
    eapply Forall_impl; [exact Hopp|]. intros r (Hcol & nb & Hnb) q Hq.
    destruct (Hok nb r Hnb) as (_ & Hall). specialize (Hall q Hq).
    rewrite Hg, decide_False; [done|].
    intros Hqin. rewrite Hnew in Hqin.
    assert (q ≠ point) as Hne by (intros ->; congruence).
    destruct (placed_string_old_stones b player point q Hok Hqin Hne)
      as (s & Hs & Hcs & _).
    assert (s = r) as -> by congruence. done.
Qed.

End AfterWrite.


Section Reduce.

Context `{!Zobrist, !FrozensetOrder}.




Lemma with_liberty_raises v p : GoString.with_liberty v p = Fails AttributeError.
Proof. reflexivity. Qed.

(** The loop over the neighbors of a stone under removal changes nothing:
    it returns, or it raises [AttributeError] at the first neighbor that
    holds another string. *)
Lemma remove_neighbors_spec (string : Ref) (point : Point) nbs (m : Mem) :
  let body := fun neighbor =>
    bind get_state (fun m : Mem =>
      match grid_get (self m) neighbor with
      | None => ret tt
      | Some neighbor_string =>
          if negb (is_ neighbor_string string) then
            bind (lift (GoString.with_liberty (obj neighbor_string) point))
              (fun v => bind (new_object v) (fun r => _replace_string r))
          else ret tt
      end) in
  for_each nbs body m = Returned tt m ∨
  for_each nbs body m = Raised AttributeError m.
Proof.
  intros body.
  assert (Hbody : ∀ nb, body nb m = Returned tt m ∨
                        body nb m = Raised AttributeError m).
  { intros nb. unfold body, bind, get_state.
    destruct (grid_get (self m) nb) as [ns|]; [|by left].
    destruct (negb (is_ ns string)); [|by left].
    right. by rewrite with_liberty_raises. }
  induction nbs as [|nb nbs IH]; simpl; [by left|].
  unfold bind. destruct (Hbody nb) as [-> | ->]; [exact IH|by right].
Qed.

Lemma remove_string_spec Hb player c0 r m :
  live (self m) r → GoString.color (obj r) ≠ player →
  (Hb → hash_ok (self m)) → own_kept player c0 (self m) →
  wp (_remove_string r)
     (fun _ m' => remove_inv Hb r (self m) [] m')
     (reduce_exc Hb player c0) m.
Proof.
  intros Hlive Hcol Hhash Hown.
  unfold _remove_string.
  apply (wp_for_each _ (remove_inv Hb r (self m))).
  { split; [|split; [|split; [|split]]].
    - apply NoDup_set_iter.
    - intros p. by rewrite elem_of_set_iter.
    - intros q Hq Hnq. exfalso. apply Hnq. by apply elem_of_set_iter.
    - done.
    - done. }
  intros p rest m1 (Hnd & Hsub & Hclr & Hsame & Hh).
  apply NoDup_cons in Hnd as [Hp Hnd].
  assert (Hpr : p ∈ GoString.stones (obj r)) by (apply Hsub; left).
  assert (Hgp : grid_get (self m1) p = Some r).
  { rewrite Hsame by (right; left). by apply Hlive. }
  unfold wp, bind at 1.
  destruct (remove_neighbors_spec r p (neighbors p) m1) as [-> | ->].
  - unfold bind, grid_set, hash_xor, modify. simpl.
    split; [|split; [|split; [|split]]]; simpl.
    + done.
    + intros q Hq. apply Hsub. by right.
    + intros q Hq Hnq. rewrite grid_get_insert.
      destruct (decide (q = p)) as [->|Hne]; [done|].
      apply Hclr; [done|]. intros [?|?]%elem_of_cons; done.
    + intros q Hq. rewrite grid_get_insert.
      destruct (decide (q = p)) as [->|Hne].
      * exfalso. destruct Hq; done.
      * apply Hsame. destruct Hq as [?|?]; [by left|right; by right].
    + intros HHb. specialize (Hh HHb). unfold hash_ok, zobrist_hash in *. simpl.
      rewrite Hh. symmetry.
      apply position_hash_delete.
      * by rewrite get_of_grid_get, Hgp.
      * intros q. rewrite !get_of_grid_get, grid_get_insert.
        by destruct (decide (q = p)).
  - split; [done|]. split; [done|].
    intros q x Hq Hx. specialize (Hown q x Hq Hx).
    rewrite Hsame; [done|]. left. intros Hqr.
    specialize (Hlive q Hqr). congruence.
Qed.

End Reduce.

Section ReduceLoop.

Context `{!Zobrist, !FrozensetOrder}.

(** Storing [v] at every stone of a string [r] of the other color, where
    [v] is a string with the stones of [r] or [None], keeps the strings
    consistent and leaves the other strings where they are. *)
Lemma string_rewritten c c' r v rest player c0 :
  strings_ok c → live c r → GoString.color (obj r) ≠ player →
  Forall (live c) rest → r ∉ rest → own_kept player c0 c →
  (∀ r2, v = Some r2 → GoString.stones (obj r2) = GoString.stones (obj r)) →
  (∀ q, grid_get c' q =
        if decide (q ∈ GoString.stones (obj r)) then v else grid_get c q) →
  strings_ok c' ∧ Forall (live c') rest ∧ own_kept player c0 c'.
Proof.
  intros Hok Hlive Hcol Hrest Hnin Hown Hv Hg.
  split; [|split].
  - intros p x Hp. rewrite Hg in Hp.
    destruct (decide (p ∈ GoString.stones (obj r))) as [Hpr|Hpr].
    + rewrite (Hv x Hp). split; [done|].
      intros q Hq. by rewrite Hg, decide_True.
    + destruct (Hok p x Hp) as (Hpx & Hall). split; [done|].
      intros q Hq. rewrite Hg, decide_False; [by apply Hall|].
      intros Hqr. specialize (Hall q Hq). specialize (Hlive q Hqr).
      assert (x = r) as -> by congruence. done.
  - rewrite Forall_forall in Hrest |- *. intros r' Hr' q Hq.
    rewrite Hg, decide_False; [by apply Hrest|].
    intros Hqr. specialize (Hrest r' Hr' q Hq). specialize (Hlive q Hqr).
    assert (r' = r) as -> by congruence. done.
  - intros q x Hq Hx. specialize (Hown q x Hq Hx).
    rewrite Hg, decide_False; [done|].
    intros Hqr. specialize (Hlive q Hqr).
    assert (x = r) as -> by congruence. done.
Qed.

Lemma reduce_liberties_step Hb player c0 point r rest m :
  reduce_inv Hb player c0 (r :: rest) m →
  wp (reduce_liberties point r)
     (fun _ m' => reduce_inv Hb player c0 rest m')
     (reduce_exc Hb player c0) m.
Proof.
  intros (Hok & Hh & Hlive & Hnd & Hcol & Hown).
  apply Forall_cons in Hlive as [Hlr Hlive].
  apply Forall_cons in Hcol as [Hcr Hcol].
  apply NoDup_cons in Hnd as [Hnin Hnd].
  unfold reduce_liberties, wp, bind. unfold new_object at 1. simpl.
  destruct (negb _).
  - unfold new_object, _replace_string. simpl.
    match goal with |- context [for_each ?l (fun p => grid_set p ?v) ?m1] =>
      destruct (write_all_spec l v m1) as (b' & -> & _ & _ & Hhash & Hg) end.
    simpl in *.
    assert (Hg' : ∀ q, grid_get b' q =
                       if decide (q ∈ GoString.stones (obj r))
                       then Some (mkRef (S (next_addr m))
                                    (GoString.without_liberty (obj r) point))
                       else grid_get (self m) q).
    { intros q. rewrite Hg.
      destruct (decide (q ∈ set_iter _)) as [Hin|Hn].
      - by rewrite decide_True by (by apply elem_of_set_iter in Hin).
      - rewrite decide_False; [done|]. intros ?. apply Hn.
        by apply elem_of_set_iter. }
    assert (Hv : ∀ r2, Some (mkRef (S (next_addr m))
                               (GoString.without_liberty (obj r) point)) = Some r2 →
                       GoString.stones (obj r2) = GoString.stones (obj r)).
    { by intros r2 [= <-]. }
    destruct (string_rewritten (self m) b' r _ rest player c0
                Hok Hlr Hcr Hlive Hnin Hown Hv Hg')
      as (Hok' & Hlive' & Hown').
    split; [done|]. split; [|done].
    intros HHb. specialize (Hh HHb). unfold hash_ok, zobrist_hash in *.
    simpl. rewrite Hhash, Hh. symmetry. apply position_hash_ext.
    intros q. rewrite !get_of_grid_get, Hg'.
    destruct (decide (q ∈ GoString.stones (obj r))) as [Hqr|]; [|done].
    by rewrite (Hlr q Hqr).
  - pose proof (remove_string_spec Hb player c0 r
                  (mkMem (self m) (S (next_addr m))) Hlr Hcr Hh Hown) as Hrem.
    unfold wp in Hrem.
    destruct (_remove_string r _) as [[] m'|e m']; [|exact Hrem].
    simpl in Hrem. destruct Hrem as (_ & _ & Hclr & Hsame & Hh').
    assert (Hg' : ∀ q, grid_get (self m') q =
                       if decide (q ∈ GoString.stones (obj r))
                       then None else grid_get (self m) q).
    { intros q. destruct (decide (q ∈ GoString.stones (obj r))) as [Hqr|Hqr].
      - apply Hclr; [done|]. apply not_elem_of_nil.
      - apply Hsame. by left. }
    assert (Hv : ∀ r2, @None Ref = Some r2 →
                       GoString.stones (obj r2) = GoString.stones (obj r)).
    { by intros r2 [=]. }
    destruct (string_rewritten (self m) (self m') r _ rest player c0
                Hok Hlr Hcr Hlive Hnin Hown Hv Hg')
      as (Hok' & Hlive' & Hown').
    split; [done|]. split; done.
Qed.

Lemma reduce_loop Hb player c0 point l m :
  reduce_inv Hb player c0 l m →
  wp (for_each l (reduce_liberties point))
     (fun _ m' => reduce_inv Hb player c0 [] m')
     (reduce_exc Hb player c0) m.
Proof.
  intros Hinv.
  apply (wp_for_each _ (reduce_inv Hb player c0)); [done|].
  intros r rest m1. apply reduce_liberties_step.
Qed.

(** [place_stone] on a board with consistent strings.  When it returns the
    strings are consistent and the hash is right if it was; when it raises
    [AssertionError] the board is untouched; when it raises
    [AttributeError] the hash is still right if it was.  In every outcome
    past the assertions the new string is stored at each of its stones and
    every stone of the player's color is still there. *)
Lemma place_stone_wp b n player point :
  strings_ok b →
  let own m' :=
    (∃ a, live (self m') (mkRef a (placed_string b player point))) ∧
    (∀ q, get b q = Some player → get (self m') q = Some player) in
  wp (place_stone player point)
     (fun _ m' => strings_ok (self m') ∧ (hash_ok b → hash_ok (self m')) ∧
                  is_on_grid b point = true ∧ grid_get b point = None ∧ own m')
     (fun e m' => (e = AssertionError ∧ m' = mkMem b n ∧
                   (is_on_grid b point = false ∨ grid_get b point ≠ None)) ∨
                  (e = AttributeError ∧ (hash_ok b → hash_ok (self m')) ∧
                   is_on_grid b point = true ∧ grid_get b point = None ∧ own m'))
     (mkMem b n).
Proof.
  intros Hok own. unfold wp.
  destruct (is_on_grid b point) eqn:Hon;
    [|rewrite place_stone_off_grid by done; left; auto].
  destruct (grid_get b point) as [x|] eqn:Hfree.
  { rewrite place_stone_occupied by (simpl; congruence). left.
    split; [done|]. split; [done|]. right. done. }
  destruct (place_stone_unfold player point b n Hon Hfree)
    as (new & n1 & c0 & _ & Hnew & _ & _ & Hhash & Hg & ->).
  destruct (after_write b player point new c0 Hok Hfree Hnew Hg)
    as (Hok0 & Hget0 & Hlive0 & Hnewlive).
  destruct (scan_is_ok b player point) as (_ & Hopp & Hnd).
  assert (Hinv : reduce_inv (hash_ok b) player c0
                   (adjacent_opposite_color (scan b player point)) (mkMem c0 n1)).
  { split; [done|]. split; [|split; [done|split; [done|split]]].
    - intros Hb. unfold hash_ok, zobrist_hash in *. simpl. rewrite Hhash, Hb.
      symmetry. apply position_hash_insert; [|done].
      by rewrite get_of_grid_get, Hfree.
    - eapply Forall_impl; [exact Hopp|]. by intros r [? _].
    - by intros q x Hq _. }
  assert (Hown : ∀ m', own_kept player c0 (self m') → own m').
  { intros m' Hkept. split.
    - exists (addr new). intros q Hq. simpl in Hq.
      replace (mkRef (addr new) (placed_string b player point)) with new
        by (destruct new; simpl in *; congruence).
      apply Hkept; [|by rewrite Hnew, placed_string_color].
      apply Hnewlive. by rewrite Hnew.
    - intros q Hq. rewrite get_of_grid_get in Hq.
      destruct (grid_get b q) as [x|] eqn:Hx; [|done].
      injection Hq as Hq. simpl in Hq.
      rewrite get_of_grid_get.
      destruct (decide (q ∈ GoString.stones (obj new))) as [Hin|Hnin].
      + rewrite (Hkept q new).
        * simpl. by rewrite Hnew, placed_string_color.
        * by apply Hnewlive.
        * by rewrite Hnew, placed_string_color.
      + rewrite (Hkept q x); [by simpl; rewrite Hq| |done].
        by rewrite Hg, decide_False. }
  pose proof (reduce_loop (hash_ok b) player c0 point _ _ Hinv) as Hloop.
  unfold wp in Hloop.
  destruct (for_each _ _ _) as [[] m'|e m'].
  - destruct Hloop as (Hok' & Hh' & _ & _ & _ & Hkept).
    split; [done|]. split; [done|]. split; [done|]. split; [done|].
    by apply Hown.
  - destruct Hloop as (-> & Hh' & Hkept). right.
    split; [done|]. split; [done|]. split; [done|]. split; [done|].
    by apply Hown.
Qed.

End ReduceLoop.


Section Reachable.

Context `{!Zobrist, !FrozensetOrder}.

Lemma Board_init_ok rows cols :
  strings_ok (Board_init rows cols) ∧ hash_ok (Board_init rows cols).
Proof.
  split.
  - intros p r Hp. unfold grid_get, Board_init in Hp. simpl in Hp.
    by rewrite lookup_empty in Hp.
  - unfold hash_ok, zobrist_hash, position_hash, stones_on, Board_init. simpl.
    by rewrite omap_empty, map_fold_empty.
Qed.

Lemma reachable_ok b : reachable b → strings_ok b ∧ hash_ok b.
Proof.
  induction 1 as [rows cols|b n player point m' Hreach [Hok Hh] Hplace].
  - apply Board_init_ok.
  - pose proof (place_stone_wp b n player point Hok) as Hwp.
    unfold wp in Hwp. rewrite Hplace in Hwp.
    destruct Hwp as (Hok' & Hh' & _). auto.
Qed.

Lemma reachable_place_all moves m m' :
  reachable (self m) → place_all moves m = Returned tt m' → reachable (self m').
Proof.
  unfold place_all. revert m. induction moves as [|[pl pt] moves IH]; intros m Hr.
  - simpl. unfold ret. by intros [= <-].
  - simpl. unfold bind.
    destruct (place_stone pl pt m) as [[] m1|e m1] eqn:Hp; [|done].
    apply IH. destruct m as [b n]. by apply (reachable_place b n pl pt m1).
Qed.

(** X24: on every board reached from a fresh one through calls of
    [place_stone] that return, [zobrist_hash] is the empty-board constant
    XORed with the code of every (point, color) pair on the board; and the
    same holds for the board one further call of [place_stone] leaves,
    whether that call returns or raises, stones removed by the capture
    loop included.  A board that is used again after a call has raised is
    not covered. *)
Theorem reachable_hash (b : Board) :
  reachable b →
  zobrist_hash b = position_hash b ∧
  ∀ n player point,
    let b' := self (final_state (place_stone player point (mkMem b n))) in
    zobrist_hash b' = position_hash b'.
Proof.
  intros Hreach. destruct (reachable_ok b Hreach) as [Hok Hh].
  split; [exact Hh|].
  intros n player point.
  pose proof (place_stone_wp b n player point Hok) as Hwp. unfold wp in Hwp.
  destruct (place_stone player point _) as [[] m'|e m']; simpl.
  - destruct Hwp as (_ & Hh' & _). by apply Hh'.
  - destruct Hwp as [(_ & -> & _)|(_ & Hh' & _)]; [exact Hh|by apply Hh'].
Qed.

(** ** Placements that capture nothing *)

Lemma reduce_liberties_returns point r m :
  GoString.num_liberties (GoString.without_liberty (obj r) point) ≠ 0%nat →
  ∃ m', reduce_liberties point r m = Returned tt m'.
Proof.
  intros Hlib. unfold reduce_liberties, bind. unfold new_object at 1. simpl.
  apply Nat.eqb_neq in Hlib. rewrite Hlib. simpl.
  unfold new_object, _replace_string. simpl.
  match goal with |- context [for_each ?l (fun p => grid_set p ?v) ?m1] =>
    destruct (write_all_spec l v m1) as (b' & -> & _) end.
  eauto.
Qed.

Lemma reduce_loop_returns point l m :
  Forall (fun r => GoString.num_liberties
                     (GoString.without_liberty (obj r) point) ≠ 0%nat) l →
  ∃ m', for_each l (reduce_liberties point) m = Returned tt m'.
Proof.
  revert m. induction l as [|r l IH]; intros m Hl.
  - simpl. unfold ret. eauto.
  - apply Forall_cons in Hl as [Hr Hl]. simpl. unfold bind.
    destruct (reduce_liberties_returns point r m Hr) as (m1 & ->).
    by apply IH.
Qed.

Lemma place_stone_returns b n player point :
  is_on_grid b point = true → grid_get b point = None →
  captures_nothing b player point →
  ∃ m', place_stone player point (mkMem b n) = Returned tt m'.
Proof.
  intros Hon Hfree Hcap.
  destruct (place_stone_unfold player point b n Hon Hfree)
    as (new & n1 & c0 & _ & _ & _ & _ & _ & _ & ->).
  by apply reduce_loop_returns.
Qed.



End Reachable.

(** ** Every capture raises *)

Lemma addrs_below_lookup b n p r :
  addrs_below b n → grid_get b p = Some r → (addr r < n)%nat.
Proof.
  intros Hb Hp. unfold grid_get in Hp.
  destruct (_grid b !! p) as [[x|]|] eqn:Hl; simpl in Hp; try done.
  injection Hp as ->. specialize (Hb p (Some r) Hl). simpl in Hb.
  by apply Nat.ltb_lt.
Qed.

Lemma neighbors_sym p q : q ∈ neighbors p → p ∈ neighbors q.
Proof.
  unfold neighbors. destruct p as [r c].
  rewrite !elem_of_cons, elem_of_nil. simpl.
  intros [->|[->|[->|[->|[]]]]]; simpl.
  - right; left. f_equal; lia.
  - left. f_equal; lia.
  - right; right; right; left. f_equal; lia.
  - right; right; left. f_equal; lia.
Qed.

Lemma scan_opposite_adjacent b player point :
  Forall (fun r => ∃ nb, nb ∈ neighbors point ∧ grid_get b nb = Some r)
         (adjacent_opposite_color (scan b player point)).
Proof.
  unfold scan.
  assert (Hgen : ∀ nbs acc,
    (∀ nb, nb ∈ nbs → nb ∈ neighbors point) →
    Forall (fun r => ∃ nb, nb ∈ neighbors point ∧ grid_get b nb = Some r)
           (adjacent_opposite_color acc) →
    Forall (fun r => ∃ nb, nb ∈ neighbors point ∧ grid_get b nb = Some r)
           (adjacent_opposite_color (fold_left (scan_neighbor b player) nbs acc))).
  { induction nbs as [|nb nbs IH]; intros acc Hsub Hacc; simpl; [done|].
    apply IH; [intros x Hx; apply Hsub; by right|].
    unfold scan_neighbor.
    destruct (negb (is_on_grid b nb)); [done|].
    destruct (grid_get b nb) as [r|] eqn:Hr; [|done].
    destruct (bool_decide _).
    - by destruct (negb _).
    - destruct (negb _); [|done]. simpl.
      apply Forall_app. split; [done|]. apply Forall_singleton.
      exists nb. split; [apply Hsub; by left|done]. }
  apply Hgen; [done|]. simpl. constructor.
Qed.

Section Raises.

Context `{!Zobrist, !FrozensetOrder}.

Lemma bind_run {S A B} (c : M S A) (k : A → M S B) (s : S) :
  bind c k s = match c s with
               | Returned a s' => k a s'
               | Raised e s' => Raised e s'
               end.
Proof. reflexivity. Qed.

Lemma for_each_cons {S X} (x : X) (xs : list X) (body : X → M S unit) :
  for_each (x :: xs) body = bind (body x) (fun _ => for_each xs body).
Proof. reflexivity. Qed.

Lemma merge_all_addr (r : Ref) (same : list Ref) (m : Mem) r' m' :
  merge_all r same m = Returned r' m' →
  addr r' = addr r ∨ (next_addr m ≤ addr r')%nat.
Proof.
  revert r m. induction same as [|s same IH]; intros r m.
  - simpl. unfold ret. intros [= <- <-]. by left.
  - simpl. unfold bind.
    destruct (lift _ m) as [v m1|e m1] eqn:Hl; [|done].
    assert (m1 = m) as ->.
    { unfold lift, ret, raise in Hl.
      destruct (GoString.merged_with _ _); by inversion Hl. }
    unfold new_object at 1. simpl. intros Hm.
    apply IH in Hm as [Ha|Ha]; simpl in Ha; right; lia.
Qed.

(** The loop over the neighbors of a stone raises when one of them holds
    an object other than the string under removal. *)
Lemma remove_neighbors_raises (string : Ref) (point : Point) nbs (m : Mem) pt x :
  pt ∈ nbs → grid_get (self m) pt = Some x → is_ x string = false →
  for_each nbs (fun neighbor =>
    bind get_state (fun m : Mem =>
      match grid_get (self m) neighbor with
      | None => ret tt
      | Some neighbor_string =>
          if negb (is_ neighbor_string string) then
            bind (lift (GoString.with_liberty (obj neighbor_string) point))
              (fun v => bind (new_object v) (fun r => _replace_string r))
          else ret tt
      end)) m = Raised AttributeError m.
Proof.
  intros Hin Hx His.
  induction nbs as [|nb nbs IH]; [by apply elem_of_nil in Hin|].
  simpl. unfold bind at 1. unfold bind at 1, get_state.
  destruct (decide (nb = pt)) as [->|Hne].
  - rewrite Hx, His. done.
  - apply elem_of_cons in Hin as [->|Hin]; [done|].
    destruct (grid_get (self m) nb) as [ns|]; [|by apply IH].
    destruct (negb (is_ ns string)); [|by apply IH].
    done.
Qed.

Lemma remove_string_raises r m pt nb x :
  nb ∈ GoString.stones (obj r) → pt ∈ neighbors nb →
  pt ∉ GoString.stones (obj r) →
  grid_get (self m) pt = Some x → is_ x r = false →
  ∃ m', _remove_string r m = Raised AttributeError m'.
Proof.
  intros Hnb Hadj Hpt Hx His. unfold _remove_string.
  assert (Hin : nb ∈ set_iter (GoString.stones (obj r)))
    by (by apply elem_of_set_iter).
  assert (Hsub : ∀ p, p ∈ set_iter (GoString.stones (obj r)) →
                      p ∈ GoString.stones (obj r))
    by (intros p; by rewrite elem_of_set_iter).
  revert m Hx Hin Hsub.
  induction (set_iter (GoString.stones (obj r))) as [|p l IH];
    intros m Hx Hin Hsub; [by apply elem_of_nil in Hin|].
  rewrite for_each_cons, bind_run. cbv beta. rewrite bind_run.
  destruct (remove_neighbors_spec r p (neighbors p) m) as [Hret|Hraise].
  - destruct (decide (p = nb)) as [->|Hne].
    + rewrite (remove_neighbors_raises r nb (neighbors nb) m pt x) in Hret; done.
    + rewrite Hret. rewrite !bind_run. unfold grid_set, hash_xor, modify. simpl.
      apply IH.
      * simpl. rewrite grid_get_insert. rewrite decide_False; [done|].
        intros ->. apply Hpt, Hsub. by left.
      * apply elem_of_cons in Hin as [->|Hin]; done.
      * intros q Hq. apply Hsub. by right.
  - rewrite Hraise. eauto.
Qed.

End Raises.

Section CaptureRaises.

Context `{!Zobrist, !FrozensetOrder}.

Lemma reduce_liberties_capturing point r m :
  GoString.num_liberties (GoString.without_liberty (obj r) point) = 0%nat →
  reduce_liberties point r m
  = _remove_string r (mkMem (self m) (S (next_addr m))).
Proof.
  intros Hz. unfold reduce_liberties, bind. unfold new_object at 1. simpl.
  apply Nat.eqb_eq in Hz. by rewrite Hz.
Qed.

(** The opposite-color loop raises when one of its strings has no liberty
    but the played point: the stone of that string next to the point has
    the new string as a neighbor. *)
Lemma reduce_loop_raises Hb player c0 point new l m :
  reduce_inv Hb player c0 l m →
  grid_get c0 point = Some new → GoString.color (obj new) = player →
  Forall (fun r => is_ new r = false ∧
                   ∃ nb, nb ∈ neighbors point ∧ nb ∈ GoString.stones (obj r)) l →
  Exists (fun r => GoString.num_liberties
                     (GoString.without_liberty (obj r) point) = 0%nat) l →
  ∃ m', for_each l (reduce_liberties point) m = Raised AttributeError m'.
Proof.
  intros Hinv Hnew Hcol. revert m Hinv.
  induction l as [|r l IH]; intros m Hinv Hadj Hex.
  { by apply Exists_nil in Hex. }
  apply Forall_cons in Hadj as [(His & nb & Hnb & Hstone) Hadj].
  rewrite for_each_cons, bind_run.
  destruct (decide (GoString.num_liberties
                      (GoString.without_liberty (obj r) point) = 0%nat))
    as [Hz|Hnz].
  - rewrite (reduce_liberties_capturing point r m Hz).
    destruct Hinv as (_ & _ & Hlive & _ & _ & Hown).
    apply Forall_cons in Hlive as [Hlr _].
    match goal with |- context [_remove_string r ?m1] =>
      destruct (remove_string_raises r m1 point nb new) as (m' & ->) end;
      try done.
    + by apply neighbors_sym.
    + intros Hpr. specialize (Hlr point Hpr).
      specialize (Hown point new Hnew Hcol).
      assert (new = r) as -> by congruence.
      unfold is_ in His. by rewrite bool_decide_eq_true_2 in His.
    + simpl. by apply Hown.
    + eauto.
  - destruct (reduce_liberties_returns point r m Hnz) as (m1 & Hret).
    pose proof (reduce_liberties_step Hb player c0 point r l m Hinv) as Hwp.
    unfold wp in Hwp. rewrite Hret in Hwp. rewrite Hret.
    apply IH; [done|done|].
    apply Exists_cons in Hex as [Hex|Hex]; done.
Qed.

(** On a board with consistent strings whose objects are older than the
    allocator, every placement that takes the last liberty of an
    opposite-color neighbor string raises [AttributeError]. *)
Lemma capture_raises b n player point :
  strings_ok b → addrs_below b n →
  is_on_grid b point = true → grid_get b point = None →
  ¬ captures_nothing b player point →
  ∃ m', place_stone player point (mkMem b n) = Raised AttributeError m'.
Proof.
  intros Hok Hbelow Hon Hfree Hcap.
  destruct (place_stone_unfold player point b n Hon Hfree)
    as (new & n1 & c0 & Haddr & Hnew & _ & _ & _ & Hg & ->).
  destruct (after_write b player point new c0 Hok Hfree Hnew Hg)
    as (Hok0 & _ & Hlive0 & Hnewlive).
  destruct (scan_is_ok b player point) as (_ & Hopp & Hnd).
  apply (reduce_loop_raises False player c0 point new).
  - split; [done|]. split; [done|]. split; [done|]. split; [done|].
    split; [|by intros q x Hq _].
    eapply Forall_impl; [exact Hopp|]. by intros r [? _].
  - apply Hnewlive. rewrite Hnew. apply point_in_placed_string.
  - by rewrite Hnew, placed_string_color.
  - pose proof (scan_opposite_adjacent b player point) as Hadj.
    rewrite Forall_forall in Hadj |- *. intros r Hr.
    destruct (Hadj r Hr) as (nb & Hnb & Hgrid). split.
    + unfold is_. apply bool_decide_eq_false_2.
      pose proof (addrs_below_lookup b n nb r Hbelow Hgrid). lia.
    + exists nb. split; [done|]. by apply (Hok nb r Hgrid).
  - unfold captures_nothing in Hcap.
    apply not_Forall_Exists in Hcap; [|apply _].
    eapply Exists_impl; [exact Hcap|].
    intros r Hr. simpl in Hr. by apply dec_stable.
Qed.

(** On such a board a placement on a free point of the grid returns
    exactly when it captures nothing. *)
Lemma place_stone_returns_iff b n player point :
  strings_ok b → addrs_below b n →
  is_on_grid b point = true → grid_get b point = None →
  (∃ m', place_stone player point (mkMem b n) = Returned tt m') ↔
  captures_nothing b player point.
Proof.
  intros Hok Hbelow Hon Hfree. split.
  - intros (m' & Hret).
    destruct (decide (captures_nothing b player point)) as [|Hcap]; [done|].
    destruct (capture_raises b n player point Hok Hbelow Hon Hfree Hcap)
      as (m1 & Hraise).
    congruence.
  - by apply place_stone_returns.
Qed.

End CaptureRaises.

Section Addresses.

Context `{!Zobrist, !FrozensetOrder}.

Lemma addrs_below_intro b n :
  (∀ p r, grid_get b p = Some r → (addr r < n)%nat) → addrs_below b n.
Proof.
  intros Hall p v Hl. destruct v as [r|]; simpl; [|done].
  apply Nat.ltb_lt. apply (Hall p r). unfold grid_get. by rewrite Hl.
Qed.

Lemma addrs_below_mono b n n' :
  (n ≤ n')%nat → addrs_below b n → addrs_below b n'.
Proof.
  intros Hle Hb. apply addrs_below_intro. intros p r Hp.
  pose proof (addrs_below_lookup b n p r Hb Hp). lia.
Qed.

Lemma remove_string_addrs r m :
  addrs_below (self m) (next_addr m) →
  wp (_remove_string r)
     (fun _ m' => addrs_below (self m') (next_addr m'))
     (fun _ _ => True) m.
Proof.
  intros Hm. unfold _remove_string.
  apply (wp_for_each _ (fun _ m' => addrs_below (self m') (next_addr m')));
    [done|].
  intros p rest m1 Hm1. unfold wp. rewrite bind_run.
  destruct (remove_neighbors_spec r p (neighbors p) m1) as [-> | ->]; [|done].
  rewrite !bind_run. unfold grid_set, hash_xor, modify. simpl.
  apply addrs_below_intro. intros q x. rewrite grid_get_insert.
  destruct (decide (q = p)); [done|]. by apply addrs_below_lookup.
Qed.

Lemma reduce_liberties_addrs point r m :
  addrs_below (self m) (next_addr m) →
  wp (reduce_liberties point r)
     (fun _ m' => addrs_below (self m') (next_addr m'))
     (fun _ _ => True) m.
Proof.
  intros Hm.
  destruct (decide (GoString.num_liberties
                      (GoString.without_liberty (obj r) point) = 0%nat))
    as [Hz|Hnz].
  - unfold wp. rewrite (reduce_liberties_capturing point r m Hz).
    apply remove_string_addrs. simpl.
    apply (addrs_below_mono _ (next_addr m)); [lia|done].
  - unfold wp, reduce_liberties, bind. unfold new_object at 1. simpl.
    apply Nat.eqb_neq in Hnz. rewrite Hnz. simpl.
    unfold new_object, _replace_string. simpl.
    match goal with |- context [for_each ?l (fun p => grid_set p ?v) ?m1] =>
      destruct (write_all_spec l v m1) as (b' & -> & _ & _ & _ & Hg) end.
    simpl in *. apply addrs_below_intro. intros q x. rewrite Hg.
    destruct (decide _).
    + intros [= <-]. simpl. lia.
    + intros Hq. pose proof (addrs_below_lookup _ _ q x Hm Hq). lia.
Qed.

Lemma place_stone_addrs player point m :
  addrs_below (self m) (next_addr m) →
  wp (place_stone player point)
     (fun _ m' => addrs_below (self m') (next_addr m'))
     (fun _ _ => True) m.
Proof.
  intros Hm. destruct m as [b n]. simpl in Hm. unfold wp.
  destruct (is_on_grid b point) eqn:Hon;
    [|by rewrite place_stone_off_grid].
  destruct (grid_get b point) as [x|] eqn:Hfree.
  { by rewrite place_stone_occupied by (simpl; congruence). }
  destruct (place_stone_unfold player point b n Hon Hfree)
    as (new & n1 & c0 & Haddr & _ & _ & _ & _ & Hg & ->).
  apply (wp_for_each _ (fun _ m' => addrs_below (self m') (next_addr m'))).
  - simpl. apply addrs_below_intro. intros q x. rewrite Hg.
    destruct (decide _).
    + intros [= <-]. lia.
    + intros Hq. pose proof (addrs_below_lookup _ _ q x Hm Hq). lia.
  - intros r rest m1. apply reduce_liberties_addrs.
Qed.

Lemma reachable_mem_ok m :
  reachable_mem m → reachable (self m) ∧ addrs_below (self m) (next_addr m).
Proof.
  induction 1 as [rows cols n|m k Hm [Hr Ha]|m player point m' Hm [Hr Ha] Hp].
  - split; [apply reachable_init|].
    apply addrs_below_intro. intros p r Hp.
    unfold grid_get, Board_init in Hp. simpl in Hp.
    by rewrite lookup_empty in Hp.
  - simpl. split; [done|]. apply (addrs_below_mono _ (next_addr m)); [lia|done].
  - split.
    + destruct m as [b n]. by apply (reachable_place b n player point m').
    + pose proof (place_stone_addrs player point m Ha) as Hwp.
      unfold wp in Hwp. by rewrite Hp in Hwp.
Qed.

(** From every board and allocator the program reaches, a placement on a
    free point of the grid returns exactly when it captures nothing, and
    raises [AttributeError] otherwise. *)
Lemma place_stone_outcome m player point :
  reachable_mem m →
  is_on_grid (self m) point = true → grid_get (self m) point = None →
  (captures_nothing (self m) player point →
   ∃ m', place_stone player point m = Returned tt m') ∧
  (¬ captures_nothing (self m) player point →
   ∃ m', place_stone player point m = Raised AttributeError m').
Proof.
  intros Hm Hon Hfree.
  destruct (reachable_mem_ok m Hm) as [Hr Ha].
  destruct (reachable_ok _ Hr) as [Hok _].
  destruct m as [b n]. simpl in *. split.
  - by apply place_stone_returns.
  - by apply capture_raises.
Qed.

End Addresses.

Example capture_raises_on_demo_atari :
  ∃ m', @place_stone demo_zobrist demo_order white (mkPoint 3 4) demo_atari_mem
        = Raised AttributeError m'.
Proof.
  assert (Hr : @reachable demo_zobrist demo_order (self demo_atari_mem)).
  { apply (@reachable_place_all demo_zobrist demo_order
             demo_atari_moves demo_fresh demo_atari_mem).
    - apply reachable_init.
    - vm_compute. reflexivity. }
  apply (@capture_raises demo_zobrist demo_order
           (self demo_atari_mem) (next_addr demo_atari_mem) white (mkPoint 3 4)).
  - apply (reachable_ok _ Hr).
  - refine (bool_decide_unpack _ _). vm_compute. exact I.
  - vm_compute. reflexivity.
  - vm_compute. reflexivity.
  - intros Hcap. revert Hcap. refine (bool_decide_eq_false_1 _ _).
    vm_compute. reflexivity.
Qed.


(** ** The engine on concrete positions *)

Lemma demo_moves_are_factory_moves r c :
  Move.play (mkPoint r c) = Value (demo_play r c) ∧
  Move.pass_turn = Value demo_pass ∧
  Move.resign = Value demo_resign.
Proof. repeat split. Qed.

Lemma demo_states_evaluated :
  demo_atari_state = demo_state demo_atari_game ∧
  demo_atari_world = final_state demo_atari_game ∧
  demo_first_state = demo_state demo_after_first ∧
  demo_first_world = final_state demo_after_first ∧
  demo_repeat_state = demo_state demo_repeat ∧
  demo_repeat_world = final_state demo_repeat ∧
  demo_atari_mem = final_state demo_atari.
Proof. repeat split; vm_compute; reflexivity. Qed.

(** C1, evaluated where it fails: on an empty 5x5 board black plays (3,3)
    and white plays (2,3), (4,3) and (3,2), all of which return; white's
    fourth move at (3,4) takes the last liberty, [_remove_string] reaches
    [with_liberty] for the white neighbor at (2,3) and [place_stone]
    raises [AttributeError]; the black stone is still on the board. *)
Theorem capture_raises_AttributeError :
  fault_of demo_atari = None ∧
  let after := demo_place white 3 4 demo_atari in
  fault_of after = Some AttributeError ∧
  get (self (final_state after)) (mkPoint 3 3) = Some black ∧
  (GoString.stones ∘ obj) <$> get_go_string (self (final_state after)) (mkPoint 3 3)
    = Some {[ mkPoint 3 3 ]}.
Proof. vm_compute. repeat split; reflexivity. Qed.

(** C2, evaluated where it fails: with the black stone at (3,3) down to its
    last liberty, the game not over and white to move, the point (3,4) is
    empty and on the grid, and [is_valid_move], [is_move_self_capture] and
    [does_move_violate_ko] for white's play at (3,4) all raise
    [AttributeError] instead of returning a boolean. *)
Theorem is_valid_move_raises_on_capture :
  fault_of demo_atari_game = None ∧
  let s := demo_atari_state in
  let w := demo_atari_world in
  is_over s = Value false ∧
  next_player s = white ∧
  value_of (query (board s) (fun b => (is_on_grid b (mkPoint 3 4), get b (mkPoint 3 4))) w)
    = Some (true, None) ∧
  fault_of (@is_valid_move demo_zobrist demo_order s (demo_play 3 4) w)
    = Some AttributeError ∧
  fault_of (@is_move_self_capture demo_zobrist demo_order s white (demo_play 3 4) w)
    = Some AttributeError ∧
  fault_of (@does_move_violate_ko demo_zobrist demo_order s white (demo_play 3 4) w)
    = Some AttributeError.
Proof. vm_compute. repeat split; reflexivity. Qed.

(** C3, evaluated where it fails: in the game that leads to the atari
    position white's play at (3,4) is a play on a free point of the grid
    that captures the black stone; the situation it leads to by the rules,
    black to move on the board without the black stone, is not in the
    history, so the answer is [False]; [does_move_violate_ko] raises
    [AttributeError] and returns nothing. *)
Theorem does_move_violate_ko_raises_on_capture :
  fault_of demo_atari_game = None ∧
  let s := demo_atari_state in
  let w := demo_atari_world in
  let b := board_in w s in
  Move.play (mkPoint 3 4) = Value (demo_play 3 4) ∧
  next_player s = white ∧
  is_on_grid b (mkPoint 3 4) = true ∧ get b (mkPoint 3 4) = None ∧
  get b (mkPoint 3 3) = Some black ∧
  ((other white,
    Z.lxor (Z.lxor (zobrist_hash b) (@HASH_CODE demo_zobrist (mkPoint 3 4) white))
           (@HASH_CODE demo_zobrist (mkPoint 3 3) black))
     ∉ previous_states s) ∧
  fault_of (@does_move_violate_ko demo_zobrist demo_order s white (demo_play 3 4) w)
    = Some AttributeError ∧
  value_of (@does_move_violate_ko demo_zobrist demo_order s white (demo_play 3 4) w)
    = None.
Proof.
  split; [vm_compute; reflexivity|]. cbv zeta.
  split; [reflexivity|]. split; [reflexivity|].
  split; [vm_compute; reflexivity|]. split; [vm_compute; reflexivity|].
  split; [vm_compute; reflexivity|].
  split; [refine (bool_decide_unpack _ _); vm_compute; exact I|].
  split; vm_compute; reflexivity.
Qed.

(** C7, evaluated where it fails: in the same state white's play at (3,4)
    is a play on a free point of the grid, and [apply_move] raises
    [AttributeError] instead of returning the next state. *)
Theorem apply_move_raises_on_capture :
  fault_of demo_atari_game = None ∧
  let s := demo_atari_state in
  let w := demo_atari_world in
  let b := board_in w s in
  Move.play (mkPoint 3 4) = Value (demo_play 3 4) ∧
  is_over s = Value false ∧ next_player s = white ∧
  is_on_grid b (mkPoint 3 4) = true ∧ get b (mkPoint 3 4) = None ∧
  fault_of (@apply_move demo_zobrist demo_order s (demo_play 3 4) w)
    = Some AttributeError ∧
  value_of (@apply_move demo_zobrist demo_order s (demo_play 3 4) w) = None.
Proof.
  split; [vm_compute; reflexivity|]. cbv zeta.
  split; [reflexivity|]. split; [reflexivity|]. split; [reflexivity|].
  split; [vm_compute; reflexivity|]. split; [vm_compute; reflexivity|].
  split; vm_compute; reflexivity.
Qed.

(** C4, evaluated where it fails: on a 1x3 board black plays an end point
    and the middle point, and white plays the other end, which takes the
    last liberty of the two black stones: the call raises
    [AttributeError] and the black stones are not both removed.  White's
    next call, on the free end point, returns, and on the board it leaves
    the hash is not the XOR of the codes of the stones: the point white
    played holds black.  The end black starts from is the one whose stone
    the frozenset yields first, (1,3) under the one order and (1,1) under
    the opposite order. *)
Theorem hash_wrong_after_caught_capture :
  (fault_of <$> (demo_row demo_order 3 1 <$> [1; 2; 3; 4]%nat)
   = [None; None; Some AttributeError; None] ∧
   let b := self (final_state (demo_row demo_order 3 1 4)) in
   get b (mkPoint 1 3) = Some black ∧
   zobrist_hash b ≠ @position_hash demo_zobrist b) ∧
  (fault_of <$> (demo_row demo_order_rev 1 3 <$> [1; 2; 3; 4]%nat)
   = [None; None; Some AttributeError; None] ∧
   let b := self (final_state (demo_row demo_order_rev 1 3 4)) in
   get b (mkPoint 1 1) = Some black ∧
   zobrist_hash b ≠ @position_hash demo_zobrist b).
Proof.
  split; (split; [vm_compute; reflexivity|]); cbv zeta;
    (split; [vm_compute; reflexivity|]);
    refine (bool_decide_unpack _ _); vm_compute; exact I.
Qed.

(** Where nothing is captured the predicates return booleans: the occupied
    point (3,3) is reported as not valid, the free corner as valid. *)
Example is_valid_move_returns_without_capture :
  let s := demo_atari_state in
  let w := demo_atari_world in
  value_of (@is_valid_move demo_zobrist demo_order s (demo_play 3 3) w) = Some false ∧
  value_of (@is_valid_move demo_zobrist demo_order s (demo_play 1 1) w) = Some true ∧
  value_of (@is_valid_move demo_zobrist demo_order s demo_pass w) = Some true.
Proof. vm_compute. repeat split; reflexivity. Qed.

Lemma apply_move_frame_witness :
  let s := demo_atari_state in
  let w := demo_atari_world in
  let b := board_in w s in
  let w' := final_state (@apply_move demo_zobrist demo_order s (demo_play 3 4) w) in
  fault_of (@apply_move demo_zobrist demo_order s (demo_play 3 4) w)
    = Some AttributeError ∧
  get b (mkPoint 3 3) = Some black ∧
  boards w !! board s = Some b ∧ boards w' !! board s = Some b.
Proof.
  intros s w b w'.
  assert (Hl : boards w !! board s = Some b) by (vm_compute; reflexivity).
  split; [vm_compute; reflexivity|].
  split; [vm_compute; reflexivity|].
  split; [exact Hl|].
  pose proof (@apply_move_frame demo_zobrist demo_order s (demo_play 3 4) w b) as Hframe.
  specialize (Hframe Hl). destruct Hframe as [Hframe _]. exact Hframe.
Defined.

Lemma apply_move_spec_witness :
  let s := demo_first_state in
  let w := demo_first_world in
  let b := board_in w s in
  boards w !! board s = Some b ∧
  fault_of (@apply_move demo_zobrist demo_order s (demo_play 1 2) w) = None ∧
  match @apply_move demo_zobrist demo_order s (demo_play 1 2) w with
  | Returned s' w' =>
      next_player s' = other (next_player s) ∧
      previous_state s' = Some s ∧
      previous_states s' =
        previous_states s ∪ {[ (next_player s, zobrist_hash b) ]} ∧
      last_move s' = Some (demo_play 1 2) ∧
      (Move.is_play (demo_play 1 2) = false → board s' = board s ∧ w' = w)
  | Raised e w' =>
      Move.is_play (demo_play 1 2) = true ∧
      ∃ l wc, deepcopy (board s) w = Returned l wc ∧
              @place_at demo_zobrist demo_order l (next_player s) (demo_play 1 2) wc
                = Raised e w'
  end.
Proof.
  intros s w b.
  assert (Hl : boards w !! board s = Some b) by (vm_compute; reflexivity).
  split; [exact Hl|].
  split; [vm_compute; reflexivity|].
  pose proof (@apply_move_spec demo_zobrist demo_order s (demo_play 1 2) w b) as Hspec.
  specialize (Hspec Hl). destruct Hspec as [Hspec _]. exact Hspec.
Defined.

Lemma does_move_violate_ko_spec_witness :
  let s := demo_repeat_state in
  let w := demo_repeat_world in
  let b := board_in w s in
  boards w !! board s = Some b ∧
  @does_move_violate_ko demo_zobrist demo_order s black demo_pass w
    = Returned false w ∧
  value_of (@does_move_violate_ko demo_zobrist demo_order s black (demo_play 1 1) w)
    = Some true ∧
  value_of (@does_move_violate_ko demo_zobrist demo_order s black (demo_play 1 2) w)
    = Some false ∧
  ∃ l wc, deepcopy (board s) w = Returned l wc ∧
          boards wc !! l = Some b ∧
          match @place_at demo_zobrist demo_order l black (demo_play 1 1) wc with
          | Returned _ w' =>
              ∃ b', boards w' !! l = Some b' ∧
                    @does_move_violate_ko demo_zobrist demo_order s black (demo_play 1 1) w =
                      Returned (bool_decide ((other black, zobrist_hash b')
                                               ∈ previous_states s)) w'
          | Raised e w' =>
              @does_move_violate_ko demo_zobrist demo_order s black (demo_play 1 1) w
                = Raised e w'
          end.
Proof.
  intros s w b.
  assert (Hl : boards w !! board s = Some b) by (vm_compute; reflexivity).
  split; [exact Hl|].
  split.
  { pose proof (@does_move_violate_ko_spec demo_zobrist demo_order
                  s black demo_pass w b) as Hspec.
    specialize (Hspec Hl). destruct Hspec as [Hspec _].
    apply Hspec. reflexivity. }
  split; [vm_compute; reflexivity|].
  split; [vm_compute; reflexivity|].
  pose proof (@does_move_violate_ko_spec demo_zobrist demo_order
                s black (demo_play 1 1) w b) as Hspec.
  specialize (Hspec Hl). destruct Hspec as (_ & _ & Hspec).
  apply Hspec. reflexivity.
Defined.

Lemma is_over_spec_witness :
  is_over (demo_state demo_new_game) = Value false ∧
  is_over (demo_state (demo_apply demo_resign (demo_apply demo_pass demo_new_game)))
    = Value true ∧
  is_over (demo_state (demo_apply demo_pass (demo_apply demo_pass demo_new_game)))
    = Value true ∧
  is_over (demo_state (demo_apply demo_pass demo_new_game)) = Value false.
Proof.
  split; [|split; [|split]].
  - pose proof (is_over_spec (demo_state demo_new_game)) as (Hroot & _).
    apply Hroot. reflexivity.
  - pose proof (is_over_spec
      (demo_state (demo_apply demo_resign (demo_apply demo_pass demo_new_game))))
      as (_ & Hresign & _).
    apply (Hresign demo_resign); reflexivity.
  - pose proof (is_over_spec
      (demo_state (demo_apply demo_pass (demo_apply demo_pass demo_new_game))))
      as (_ & _ & Hpass & _).
    apply (Hpass demo_pass (demo_state (demo_apply demo_pass demo_new_game)) demo_pass);
      reflexivity.
  - pose proof (is_over_spec (demo_state (demo_apply demo_pass demo_new_game)))
      as (_ & _ & _ & Hother).
    apply (Hother demo_pass (demo_state demo_new_game)); try reflexivity.
    intros [_ (m2 & Hm2 & _)]. vm_compute in Hm2. discriminate.
Defined.

Lemma reachable_hash_witness :
  let b := self demo_atari_mem in
  let o := @place_stone demo_zobrist demo_order white (mkPoint 3 4) (mkMem b 0) in
  @reachable demo_zobrist demo_order b ∧
  get b (mkPoint 3 3) = Some black ∧
  zobrist_hash b = @position_hash demo_zobrist b ∧
  fault_of o = Some AttributeError ∧
  zobrist_hash (self (final_state o))
    = @position_hash demo_zobrist (self (final_state o)).
Proof.
  intros b o.
  assert (Hr : @reachable demo_zobrist demo_order b).
  { apply (@reachable_place_all demo_zobrist demo_order
             demo_atari_moves demo_fresh demo_atari_mem).
    - apply reachable_init.
    - vm_compute. reflexivity. }
  pose proof (@reachable_hash demo_zobrist demo_order b) as Hhash.
  specialize (Hhash Hr). destruct Hhash as [Hnow Hnext].
  split; [exact Hr|]. split; [vm_compute; reflexivity|].
  split; [exact Hnow|]. split; [vm_compute; reflexivity|].
  apply (Hnext 0%nat white (mkPoint 3 4)).
Defined.


(** * Eyes *)

Lemma neighbors_friendly_true b color nbs :
  neighbors_friendly b color nbs = true ↔
  ∀ nb, nb ∈ nbs → is_on_grid b nb = true → get b nb = Some color.
Proof.
  induction nbs as [|nb nbs IH]; simpl.
  - split; [|done]. intros _ nb Hnb. by apply elem_of_nil in Hnb.
  - destruct (is_on_grid b nb) eqn:Hon.
    + destruct (decide (get b nb = Some color)) as [Hc|Hc].
      * rewrite bool_decide_eq_true_2 by done. simpl. rewrite IH. split.
        -- intros Hall x [->|Hx]%elem_of_cons; auto.
        -- intros Hall x Hx. apply Hall. by right.
      * rewrite bool_decide_eq_false_2 by done. simpl. split; [done|].
        intros Hall. exfalso. apply Hc. apply Hall; [by left|done].
    + rewrite IH. split.
      * intros Hall x [->|Hx]%elem_of_cons; [congruence|auto].
      * intros Hall x Hx. apply Hall. by right.
Qed.

(** The counters count: the number of corners off the grid, and the number
    of corners on the grid that hold [color]. *)
Lemma count_corners_spec b color cs :
  count_corners b color cs =
    (length (filter (fun c => is_on_grid b c = true ∧ get b c = Some color) cs),
     length (filter (fun c => is_on_grid b c = false) cs)).
Proof.
  unfold count_corners.
  assert (Hgen : ∀ f o,
    fold_left (count_corner b color) cs (f, o) =
    ((f + length (filter (fun c => is_on_grid b c = true ∧ get b c = Some color) cs))%nat,
     (o + length (filter (fun c => is_on_grid b c = false) cs))%nat)).
  { induction cs as [|c cs IH]; intros f o; simpl.
    - f_equal; lia.
    - rewrite !filter_cons. destruct (is_on_grid b c) eqn:Hon.
      + rewrite (decide_False (P := true = false)) by done.
        destruct (decide (get b c = Some color)) as [Hc|Hc].
        * rewrite bool_decide_eq_true_2 by done.
          rewrite decide_True by done. rewrite IH. simpl. f_equal; lia.
        * rewrite bool_decide_eq_false_2 by done.
          rewrite decide_False by (by intros [_ ?]). by rewrite IH.
      + rewrite (decide_True (P := false = false)) by done.
        rewrite decide_False by (by intros [? _]).
        rewrite IH. simpl. f_equal; lia. }
  by rewrite Hgen.
Qed.

Lemma corner_classes b color cs :
  (length (filter (fun c => is_on_grid b c = true ∧ get b c = Some color) cs)
   + length (filter (fun c => is_on_grid b c = false) cs)
   + length (filter (fun c => is_on_grid b c = true ∧ get b c ≠ Some color) cs)
   = length cs)%nat.
Proof.
  induction cs as [|c cs IH]; simpl; [done|].
  rewrite !filter_cons.
  destruct (is_on_grid b c) eqn:Hon.
  - rewrite (decide_False (P := true = false)) by done.
    destruct (decide (get b c = Some color)) as [Hc|Hc].
    + rewrite decide_True by done. rewrite decide_False by (by intros [_ ?]).
      simpl. lia.
    + rewrite decide_False by (by intros [_ ?]). rewrite decide_True by done.
      simpl. lia.
  - rewrite (decide_True (P := false = false)) by done.
    rewrite !decide_False by (by intros [? _]). simpl. lia.
Qed.

Lemma filter_length_pos {A} (P : A → Prop) `{!∀ x, Decision (P x)} (l : list A) :
  (0 < length (filter P l))%nat ↔ ∃ x, x ∈ l ∧ P x.
Proof.
  split.
  - destruct (filter P l) as [|x l'] eqn:Hf; simpl; [lia|]. intros _.
    assert (x ∈ filter P l) as [HP Hx]%list_elem_of_filter
      by (rewrite Hf; by left).
    by exists x.
  - intros (x & Hx & HP).
    assert (x ∈ filter P l) as Hin by (by apply list_elem_of_filter).
    destruct (filter P l); [by apply elem_of_nil in Hin|simpl; lia].
Qed.

Lemma filter_length_all {A} (P : A → Prop) `{!∀ x, Decision (P x)} (l : list A) :
  length (filter P l) = length l → ∀ x, x ∈ l → P x.
Proof.
  induction l as [|y l IH]; intros Hlen x Hx; [by apply elem_of_nil in Hx|].
  rewrite filter_cons in Hlen.
  pose proof (length_filter P l) as Hle.
  destruct (decide (P y)) as [Hy|Hy]; simpl in Hlen; [|lia].
  apply elem_of_cons in Hx as [->|Hx]; [done|]. apply IH; [lia|done].
Qed.

Lemma corner_colors_bound b cs :
  (length (filter (fun c => is_on_grid b c = true ∧ get b c = Some black) cs)
   + length (filter (fun c => is_on_grid b c = true ∧ get b c = Some white) cs)
   + length (filter (fun c => is_on_grid b c = false) cs) ≤ length cs)%nat.
Proof.
  induction cs as [|c cs IH]; simpl; [done|].
  rewrite !filter_cons.
  destruct (is_on_grid b c) eqn:Hon.
  - rewrite (decide_False (P := true = false)) by done.
    destruct (get b c) as [[]|] eqn:Hc.
    + rewrite decide_True by done.
      rewrite decide_False by (intros [_ ?]; congruence). simpl. lia.
    + rewrite decide_False by (intros [_ ?]; congruence).
      rewrite decide_True by done. simpl. lia.
    + rewrite !decide_False by (intros [_ ?]; congruence). simpl. lia.
  - rewrite (decide_True (P := false = false)) by done.
    rewrite !decide_False by (intros [? _]; congruence). simpl. lia.
Qed.

(** [is_point_an_eye] in terms of what its two loops compute. *)
Lemma is_point_an_eye_unfold b point color :
  is_point_an_eye b point color = true ↔
  get b point = None ∧
  (∀ nb, nb ∈ neighbors point → is_on_grid b nb = true → get b nb = Some color) ∧
  ((0 < length (filter (fun c => is_on_grid b c = false) (corners point)))%nat →
   (length (filter (fun c => is_on_grid b c = false) (corners point))
    + length (filter (fun c => is_on_grid b c = true ∧ get b c = Some color)
                     (corners point)))%nat = 4%nat) ∧
  (length (filter (fun c => is_on_grid b c = false) (corners point)) = 0%nat →
   (3 ≤ length (filter (fun c => is_on_grid b c = true ∧ get b c = Some color)
                       (corners point)))%nat).
Proof.
  unfold is_point_an_eye. rewrite count_corners_spec.
  rewrite <- neighbors_friendly_true.
  destruct (decide (get b point = None)) as [Hp|Hp];
    [rewrite bool_decide_eq_true_2 by done
    |rewrite bool_decide_eq_false_2 by done; simpl; split; [done|by intros [? _]]].
  cbn [negb].
  destruct (neighbors_friendly b color (neighbors point)); cbn [negb];
    [|split; [done|by intros (_ & ? & _)]].
  destruct (0 <? _)%nat eqn:Hlt.
  - apply Nat.ltb_lt in Hlt. rewrite Nat.eqb_eq. split.
    + intros Heq. split; [done|]. split; [done|]. split; [done|lia].
    + intros (_ & _ & Hpos & _). by apply Hpos.
  - apply Nat.ltb_ge in Hlt. rewrite Nat.leb_le. split.
    + intros Hge. split; [done|]. split; [done|]. split; [lia|done].
    + intros (_ & _ & _ & Hzero). apply Hzero. lia.
Qed.

(** X1: [is_point_an_eye] returns [True] exactly when the point is empty,
    every neighbor on the grid holds [color], and the corners on the grid
    that do not hold [color] are none when some corner is off the grid and
    at most one when all four corners are on it. *)
Theorem is_point_an_eye_iff (b : Board) (point : Point) (color : Player) :
  is_point_an_eye b point color = true ↔
  get b point = None ∧
  (∀ nb, nb ∈ neighbors point → is_on_grid b nb = true → get b nb = Some color) ∧
  let unfriendly :=
    filter (fun c => is_on_grid b c = true ∧ get b c ≠ Some color)
           (corners point) in
  ((∃ c, c ∈ corners point ∧ is_on_grid b c = false) → unfriendly = []) ∧
  ((∀ c, c ∈ corners point → is_on_grid b c = true) →
   (length unfriendly ≤ 1)%nat).
Proof.
  rewrite is_point_an_eye_unfold.
  pose proof (corner_classes b color (corners point)) as Hsum.
  change (length (corners point)) with 4%nat in Hsum.
  pose proof (filter_length_pos (fun c => is_on_grid b c = false) (corners point))
    as Hoff.
  cbv zeta.
  set (fr := length (filter (fun c => is_on_grid b c = true ∧ get b c = Some color)
                            (corners point))) in *.
  set (off := length (filter (fun c => is_on_grid b c = false) (corners point))) in *.
  set (bad := filter (fun c => is_on_grid b c = true ∧ get b c ≠ Some color)
                     (corners point)) in *.
  assert (Hall : off = 0%nat ↔ ∀ c, c ∈ corners point → is_on_grid b c = true).
  { split.
    - intros H0 c Hc. destruct (is_on_grid b c) eqn:Hon; [done|].
      assert (0 < off)%nat by (apply Hoff; eauto). lia.
    - intros Hon. destruct (decide (off = 0%nat)) as [|Hne]; [done|].
      assert (0 < off)%nat as Hpos by lia.
      apply Hoff in Hpos as (c & Hc & Hc'). rewrite (Hon c Hc) in Hc'. done. }
  split.
  - intros (Hp & Hnb & Hpos & Hzero). split; [done|]. split; [done|]. split.
    + intros Hex. apply Hoff in Hex. apply length_zero_iff_nil.
      specialize (Hpos Hex). lia.
    + intros Hon. apply Hall in Hon. specialize (Hzero Hon). lia.
  - intros (Hp & Hnb & Hsome & Hone). split; [done|]. split; [done|]. split.
    + intros Hpos. rewrite (Hsome (proj1 Hoff Hpos)) in Hsum. simpl in Hsum. lia.
    + intros H0. specialize (Hone (proj1 Hall H0)). lia.
Qed.

Lemma around_off_grid_far b point q :
  row point < 0 ∨ num_rows b + 1 < row point ∨
  col point < 0 ∨ num_cols b + 1 < col point →
  q ∈ neighbors point ∨ q ∈ corners point → is_on_grid b q = false.
Proof.
  intros Hfar Hq. unfold is_on_grid.
  assert (row point - 1 ≤ row q ≤ row point + 1 ∧
          col point - 1 ≤ col q ≤ col point + 1) as [Hr Hc].
  { unfold neighbors, corners in Hq.
    rewrite !elem_of_cons, !elem_of_nil in Hq.
    destruct Hq as [Hq|Hq]; repeat (destruct Hq as [->|Hq]; [simpl; lia|]);
      done. }
  apply andb_false_iff. rewrite !andb_false_iff, !Z.leb_gt. lia.
Qed.

(** An empty point with nothing around it on the grid is an eye. *)
Lemma eye_of_isolated_point b point color :
  get b point = None →
  (∀ q, q ∈ neighbors point ∨ q ∈ corners point → is_on_grid b q = false) →
  is_point_an_eye b point color = true.
Proof.
  intros Hfree Hoff. apply is_point_an_eye_unfold.
  split; [done|]. split.
  { intros nb Hnb Hon. rewrite Hoff in Hon by (by left). done. }
  pose proof (corner_classes b color (corners point)) as Hsum.
  change (length (corners point)) with 4%nat in Hsum.
  assert (Hnone : ∀ P : Point → Prop, ∀ (HP : ∀ x, Decision (P x)),
            filter (fun c => is_on_grid b c = true ∧ P c) (corners point) = []).
  { intros P HP.
    destruct (filter (fun c => is_on_grid b c = true ∧ P c) (corners point))
      as [|c l] eqn:Hf; [done|].
    assert (c ∈ filter (fun c => is_on_grid b c = true ∧ P c) (corners point))
      as [[Hon _] Hc]%list_elem_of_filter by (rewrite Hf; by left).
    rewrite Hoff in Hon by (by right). done. }
  rewrite !Hnone in Hsum. rewrite Hnone. simpl in *. split; intros; lia.
Qed.

(** X2: an empty point is an eye of both colors exactly when none of its
    neighbors and corners is on the grid, as for the only point of a 1x1
    board. *)
Theorem is_point_an_eye_both_colors (b : Board) (point : Point) :
  is_point_an_eye b point black = true ∧ is_point_an_eye b point white = true ↔
  get b point = None ∧
  ∀ q, q ∈ neighbors point ∨ q ∈ corners point → is_on_grid b q = false.
Proof.
  split; [|intros [Hfree Hoff]; split; by apply eye_of_isolated_point].
  intros [Hb Hw].
  apply is_point_an_eye_unfold in Hb as (Hfree & Hnb & Hbpos & Hbzero).
  apply is_point_an_eye_unfold in Hw as (_ & Hnw & Hwpos & Hwzero).
  split; [done|].
  pose proof (corner_colors_bound b (corners point)) as Hsum.
  change (length (corners point)) with 4%nat in Hsum.
  intros q [Hq|Hq].
  - destruct (is_on_grid b q) eqn:Hon; [|done].
    specialize (Hnb q Hq Hon). specialize (Hnw q Hq Hon). congruence.
  - apply (filter_length_all (fun c => is_on_grid b c = false) (corners point));
      [|done].
    change (length (corners point)) with 4%nat. lia.
Qed.

(** X3: [is_point_an_eye] does not ask whether the point is on the grid:
    an empty point two or more rows or columns outside the board is
    reported as an eye, whatever the color. *)
Theorem is_point_an_eye_off_board (b : Board) (point : Point) (color : Player) :
  get b point = None →
  row point < 0 ∨ num_rows b + 1 < row point ∨
  col point < 0 ∨ num_cols b + 1 < col point →
  is_point_an_eye b point color = true.
Proof.
  intros Hfree Hfar. apply eye_of_isolated_point; [done|].
  intros q Hq. by apply (around_off_grid_far b point q).
Qed.

(** * A placement that captures nothing *)

(** ** What the scan finds *)

Lemma Ref_in_app r l1 l2 : Ref_in r (l1 ++ l2) = Ref_in r l1 || Ref_in r l2.
Proof. unfold Ref_in. apply existsb_app. Qed.

Lemma Ref_in_self r l : r ∈ l → Ref_in r l = true.
Proof.
  intros Hin. destruct (Ref_in r l) eqn:Hr; [done|].
  by apply Ref_in_false in Hr.
Qed.

Lemma scan_neighbor_mono b player sc nb :
  (∀ x, x ∈ scan_liberties sc → x ∈ scan_liberties (scan_neighbor b player sc nb)) ∧
  (∀ r, Ref_in r (adjacent_same_color sc) = true →
        Ref_in r (adjacent_same_color (scan_neighbor b player sc nb)) = true) ∧
  (∀ r, Ref_in r (adjacent_opposite_color sc) = true →
        Ref_in r (adjacent_opposite_color (scan_neighbor b player sc nb)) = true).
Proof.
  unfold scan_neighbor.
  destruct (negb (is_on_grid b nb)); [done|].
  destruct (grid_get b nb) as [r0|].
  - destruct (bool_decide _).
    + destruct (negb _); [|done]. simpl. split; [done|]. split; [|done].
      intros r Hr. rewrite Ref_in_app, Hr. done.
    + destruct (negb _); [|done]. simpl. split; [done|]. split; [done|].
      intros r Hr. rewrite Ref_in_app, Hr. done.
  - simpl. split; [|done]. intros x Hx. apply elem_of_app. by left.
Qed.

(** The scan is complete: every free neighbor on the grid is a liberty of
    the new stone, and the string of every occupied neighbor on the grid
    is found in the list of its color. *)
Lemma scan_complete b player point nb :
  nb ∈ neighbors point → is_on_grid b nb = true →
  let sc := scan b player point in
  match grid_get b nb with
  | None => nb ∈ scan_liberties sc
  | Some r =>
      if bool_decide (GoString.color (obj r) = player)
      then Ref_in r (adjacent_same_color sc) = true
      else Ref_in r (adjacent_opposite_color sc) = true
  end.
Proof.
  intros Hnb Hon. unfold scan.
  generalize (mkScan [] [] []).
  induction (neighbors point) as [|x nbs IH]; intros sc;
    [by apply elem_of_nil in Hnb|].
  simpl. apply elem_of_cons in Hnb as [->|Hnb]; [|by apply IH].
  assert (Hhere :
    match grid_get b x with
    | None => x ∈ scan_liberties (scan_neighbor b player sc x)
    | Some r =>
        if bool_decide (GoString.color (obj r) = player)
        then Ref_in r (adjacent_same_color (scan_neighbor b player sc x)) = true
        else Ref_in r (adjacent_opposite_color (scan_neighbor b player sc x)) = true
    end).
  { unfold scan_neighbor. rewrite Hon. simpl.
    destruct (grid_get b x) as [r|].
    - destruct (bool_decide _).
      + destruct (Ref_in r (adjacent_same_color sc)) eqn:Hin; simpl; [done|].
        rewrite Ref_in_app. apply orb_true_iff. right.
        apply Ref_in_self. by left.
      + destruct (Ref_in r (adjacent_opposite_color sc)) eqn:Hin; simpl; [done|].
        rewrite Ref_in_app. apply orb_true_iff. right.
        apply Ref_in_self. by left.
    - simpl. apply elem_of_app. right. by left. }
  revert Hhere. generalize (scan_neighbor b player sc x) as sc1.
  clear IH. induction nbs as [|y nbs IH]; intros sc1 Hsc1; simpl; [done|].
  apply IH.
  destruct (scan_neighbor_mono b player sc1 y) as (Hl & Hs & Ho).
  destruct (grid_get b x) as [r|]; [|by apply Hl].
  destruct (bool_decide _); [by apply Hs|by apply Ho].
Qed.

(** The scan is sound for liberties: they are free neighbors on the
    grid. *)
Lemma scan_liberties_sound b player point x :
  x ∈ scan_liberties (scan b player point) →
  x ∈ neighbors point ∧ is_on_grid b x = true ∧ grid_get b x = None.
Proof.
  unfold scan.
  assert (Hgen : ∀ nbs sc,
    (∀ y, y ∈ nbs → y ∈ neighbors point) →
    (∀ y, y ∈ scan_liberties sc →
          y ∈ neighbors point ∧ is_on_grid b y = true ∧ grid_get b y = None) →
    ∀ y, y ∈ scan_liberties (fold_left (scan_neighbor b player) nbs sc) →
         y ∈ neighbors point ∧ is_on_grid b y = true ∧ grid_get b y = None).
  { induction nbs as [|nb nbs IH]; intros sc Hsub Hsc; simpl; [done|].
    apply IH; [intros y Hy; apply Hsub; by right|].
    unfold scan_neighbor.
    destruct (is_on_grid b nb) eqn:Hon; simpl; [|done].
    destruct (grid_get b nb) as [r|] eqn:Hr.
    - destruct (bool_decide _); by destruct (negb _).
    - simpl. intros y [Hy| ->%list_elem_of_singleton]%elem_of_app; [by apply Hsc|].
      split; [apply Hsub; by left|done]. }
  apply Hgen; [done|]. simpl. intros y Hy. by apply elem_of_nil in Hy.
Qed.

Section Effect.

Context `{!Zobrist, !FrozensetOrder}.

(** An opposite-color string that keeps a liberty is replaced, at each of
    its stones, by one new object without the played point as liberty. *)
Lemma reduce_liberties_replace point r m :
  GoString.num_liberties (GoString.without_liberty (obj r) point) ≠ 0%nat →
  ∃ b', reduce_liberties point r m
        = Returned tt (mkMem b' (S (S (next_addr m)))) ∧
        num_rows b' = num_rows (self m) ∧ num_cols b' = num_cols (self m) ∧
        _hash b' = _hash (self m) ∧
        ∀ q, grid_get b' q =
             if decide (q ∈ GoString.stones (obj r))
             then Some (mkRef (S (next_addr m))
                          (GoString.without_liberty (obj r) point))
             else grid_get (self m) q.
Proof.
  intros Hlib. unfold reduce_liberties, bind. unfold new_object at 1. simpl.
  apply Nat.eqb_neq in Hlib. rewrite Hlib. simpl.
  unfold new_object, _replace_string. simpl.
  match goal with |- context [for_each ?l (fun p => grid_set p ?v) ?m1] =>
    destruct (write_all_spec l v m1) as (b' & -> & Hr & Hc & Hh & Hg) end.
  simpl in *. exists b'. split; [done|]. split; [done|]. split; [done|].
  split; [done|]. intros q. rewrite Hg.
  destruct (decide (q ∈ set_iter _)) as [Hin|Hn].
  - by rewrite decide_True by (by apply elem_of_set_iter in Hin).
  - rewrite decide_False; [done|]. intros ?. apply Hn. by apply elem_of_set_iter.
Qed.

(** The opposite-color loop when no string is captured. *)
Lemma replace_loop point l m :
  Forall (fun r => GoString.num_liberties
                     (GoString.without_liberty (obj r) point) ≠ 0%nat) l →
  Forall (live (self m)) l → NoDup l →
  ∃ m', for_each l (reduce_liberties point) m = Returned tt m' ∧
        num_rows (self m') = num_rows (self m) ∧
        num_cols (self m') = num_cols (self m) ∧
        _hash (self m') = _hash (self m) ∧
        (∀ q, (∀ r, r ∈ l → q ∉ GoString.stones (obj r)) →
              grid_get (self m') q = grid_get (self m) q) ∧
        (∀ r, r ∈ l →
           ∃ a, ∀ q, q ∈ GoString.stones (obj r) →
                grid_get (self m') q
                = Some (mkRef a (GoString.without_liberty (obj r) point))).
Proof.
  revert m. induction l as [|r l IH]; intros m Hlib Hlive Hnd.
  - exists m. simpl. unfold ret. repeat split; try done.
    intros r Hr. by apply elem_of_nil in Hr.
  - apply Forall_cons in Hlib as [Hr Hlib].
    apply Forall_cons in Hlive as [Hlr Hlive].
    apply NoDup_cons in Hnd as [Hnin Hnd].
    destruct (reduce_liberties_replace point r m Hr)
      as (b1 & Hstep & Hr1 & Hc1 & Hh1 & Hg1).
    assert (Hdisj : ∀ r' q, r' ∈ l → q ∈ GoString.stones (obj r') →
                            q ∉ GoString.stones (obj r)).
    { intros r' q Hr' Hq Hqr. rewrite Forall_forall in Hlive.
      specialize (Hlive r' Hr' q Hq). specialize (Hlr q Hqr).
      assert (r' = r) as -> by congruence. done. }
    destruct (IH (mkMem b1 (S (S (next_addr m))))) as
      (m' & Hloop & Hr' & Hc' & Hh' & Hsame & Hnew); [done| |done|].
    { simpl. rewrite Forall_forall in Hlive |- *. intros r' Hin q Hq.
      rewrite Hg1, decide_False by (by apply (Hdisj r')). by apply Hlive. }
    exists m'. split; [by rewrite for_each_cons, bind_run, Hstep|].
    simpl in *. split; [congruence|]. split; [congruence|].
    split; [congruence|]. split.
    + intros q Hq. rewrite Hsame by (intros x Hx; apply Hq; by right).
      rewrite Hg1, decide_False; [done|]. apply Hq. by left.
    + intros x [->|Hx]%elem_of_cons.
      * exists (S (next_addr m)). intros q Hq.
        rewrite Hsame by (intros y Hy Hq'; by apply (Hdisj y q)).
        by rewrite Hg1, decide_True.
      * by apply Hnew.
Qed.

(** What a placement that captures nothing does to the board: the merged
    string is stored at each of its stones, every opposite-color neighbor
    string is replaced by a copy without the played point as liberty,
    every other point and the size are untouched, and the code of the new
    stone is XORed into the hash. *)
Lemma place_stone_effect b n player point :
  strings_ok b → is_on_grid b point = true → grid_get b point = None →
  captures_nothing b player point →
  ∃ a m',
    place_stone player point (mkMem b n) = Returned tt m' ∧
    num_rows (self m') = num_rows b ∧ num_cols (self m') = num_cols b ∧
    _hash (self m') = Z.lxor (_hash b) (HASH_CODE point player) ∧
    (∀ q, q ∈ GoString.stones (placed_string b player point) →
          grid_get (self m') q = Some (mkRef a (placed_string b player point))) ∧
    (∀ r, r ∈ adjacent_opposite_color (scan b player point) →
       ∃ a', ∀ q, q ∈ GoString.stones (obj r) →
             grid_get (self m') q
             = Some (mkRef a' (GoString.without_liberty (obj r) point))) ∧
    (∀ q, q ∉ GoString.stones (placed_string b player point) →
          (∀ r, r ∈ adjacent_opposite_color (scan b player point) →
                q ∉ GoString.stones (obj r)) →
          grid_get (self m') q = grid_get b q).
Proof.
  intros Hok Hon Hfree Hcap.
  destruct (place_stone_unfold player point b n Hon Hfree)
    as (new & n1 & c0 & _ & Hnew & Hr0 & Hc0 & Hh0 & Hg & ->).
  destruct (after_write b player point new c0 Hok Hfree Hnew Hg)
    as (Hok0 & _ & Hlive0 & Hnewlive).
  destruct (scan_is_ok b player point) as (_ & Hopp & Hnd).
  destruct (replace_loop point _ (mkMem c0 n1) Hcap Hlive0 Hnd)
    as (m' & -> & Hr' & Hc' & Hh' & Hsame & Hrepl).
  simpl in *.
  assert (Hdisj : ∀ r q, r ∈ adjacent_opposite_color (scan b player point) →
                         q ∈ GoString.stones (obj r) →
                         q ∉ GoString.stones (obj new)).
  { intros r q Hr Hq Hqn. rewrite Forall_forall in Hlive0.
    specialize (Hlive0 r Hr q Hq). specialize (Hnewlive q Hqn).
    rewrite Forall_forall in Hopp. destruct (Hopp r Hr) as [Hcol _].
    assert (r = new) as -> by congruence.
    by rewrite Hnew, placed_string_color in Hcol. }
  exists (addr new), m'. split; [done|]. split; [congruence|].
  split; [congruence|]. split; [congruence|].
  replace (mkRef (addr new) (placed_string b player point)) with new
    by (destruct new; simpl in *; congruence).
  rewrite <- Hnew. split; [|split; [done|]].
  - intros q Hq. rewrite Hsame; [by apply Hnewlive|].
    intros r Hr Hqr. by apply (Hdisj r q).
  - intros q Hq Hnone. rewrite Hsame by done. by rewrite Hg, decide_False.
Qed.

End Effect.

(** * The strings of a reached board *)

Section AddrInj.

Context `{!Zobrist, !FrozensetOrder}.

Lemma remove_string_addr_inj r m :
  addr_inj (self m) →
  wp (_remove_string r) (fun _ m' => addr_inj (self m')) (fun _ _ => True) m.
Proof.
  intros Hm. unfold _remove_string.
  apply (wp_for_each _ (fun _ m' => addr_inj (self m'))); [done|].
  intros p rest m1 Hm1. unfold wp. rewrite bind_run.
  destruct (remove_neighbors_spec r p (neighbors p) m1) as [-> | ->]; [|done].
  rewrite !bind_run. unfold grid_set, hash_xor, modify. simpl.
  intros x y rx ry. rewrite !grid_get_insert.
  destruct (decide (x = p)); [done|]. destruct (decide (y = p)); [done|].
  apply Hm1.
Qed.

Lemma reduce_liberties_addr_inj point r m :
  addrs_below (self m) (next_addr m) → addr_inj (self m) →
  wp (reduce_liberties point r)
     (fun _ m' => addr_inj (self m')) (fun _ _ => True) m.
Proof.
  intros Hbelow Hm.
  destruct (decide (GoString.num_liberties
                      (GoString.without_liberty (obj r) point) = 0%nat))
    as [Hz|Hnz].
  - unfold wp. rewrite (reduce_liberties_capturing point r m Hz).
    by apply remove_string_addr_inj.
  - unfold wp.
    destruct (reduce_liberties_replace point r m Hnz)
      as (b' & -> & _ & _ & _ & Hg).
    simpl. intros x y rx ry. rewrite !Hg.
    destruct (decide (x ∈ _)), (decide (y ∈ _)).
    + by intros [= <-] [= <-].
    + intros [= <-] Hy Ha. simpl in Ha.
      pose proof (addrs_below_lookup _ _ y ry Hbelow Hy). lia.
    + intros Hx [= <-] Ha. simpl in Ha.
      pose proof (addrs_below_lookup _ _ x rx Hbelow Hx). lia.
    + apply Hm.
Qed.

Lemma place_stone_addr_inj player point m :
  addrs_below (self m) (next_addr m) → addr_inj (self m) →
  wp (place_stone player point)
     (fun _ m' => addr_inj (self m')) (fun _ _ => True) m.
Proof.
  intros Hbelow Hm. destruct m as [b n]. simpl in *. unfold wp.
  destruct (is_on_grid b point) eqn:Hon;
    [|by rewrite place_stone_off_grid].
  destruct (grid_get b point) as [x|] eqn:Hfree.
  { by rewrite place_stone_occupied by (simpl; congruence). }
  destruct (place_stone_unfold player point b n Hon Hfree)
    as (new & n1 & c0 & Haddr & _ & _ & _ & _ & Hg & ->).
  assert (Hc0 : addrs_below c0 n1 ∧ addr_inj c0).
  { split.
    - apply addrs_below_intro. intros q x. rewrite Hg.
      destruct (decide _).
      + intros [= <-]. lia.
      + intros Hq. pose proof (addrs_below_lookup _ _ q x Hbelow Hq). lia.
    - intros x y rx ry. rewrite !Hg.
      destruct (decide (x ∈ _)), (decide (y ∈ _)).
      + by intros [= <-] [= <-].
      + intros [= <-] Hy Ha.
        pose proof (addrs_below_lookup _ _ y ry Hbelow Hy). lia.
      + intros Hx [= <-] Ha.
        pose proof (addrs_below_lookup _ _ x rx Hbelow Hx). lia.
      + apply Hm. }
  eapply wp_mono.
  - apply (wp_for_each _ (fun _ m' => addrs_below (self m') (next_addr m') ∧
                                       addr_inj (self m'))
                         (fun _ _ => True)); [exact Hc0|].
    intros r rest m1 [Hb1 Hi1].
    pose proof (reduce_liberties_addrs point r m1 Hb1) as Hw1.
    pose proof (reduce_liberties_addr_inj point r m1 Hb1 Hi1) as Hw2.
    unfold wp in *. by destruct (reduce_liberties point r m1).
  - by intros ? m' [_ ?].
  - done.
Qed.

End AddrInj.

(** On a board with consistent strings and injective addresses, a stored
    string that [in] finds in a list of stored strings is an element of
    the list. *)
Lemma Ref_in_stored b r l p :
  strings_ok b → addr_inj b → grid_get b p = Some r →
  Forall (fun e => ∃ nb, grid_get b nb = Some e) l →
  Ref_in r l = true → r ∈ l.
Proof.
  intros Hok Hinj Hp Hl Hin. unfold Ref_in in Hin.
  apply existsb_exists in Hin as (e & He & Hor).
  apply list_elem_of_In in He.
  rewrite Forall_forall in Hl. destruct (Hl e He) as (nb & Hnb).
  apply orb_true_iff in Hor as [His|Heq].
  - unfold is_ in His. apply bool_decide_eq_true in His.
    by rewrite (Hinj p nb r e Hp Hnb His).
  - unfold GoString_eq in Heq. apply bool_decide_eq_true in Heq.
    destruct (Hok p r Hp) as (Hpr & _).
    destruct (Hok nb e Hnb) as (_ & Hall).
    rewrite Heq in Hpr. specialize (Hall p Hpr).
    assert (e = r) as -> by congruence. done.
Qed.

Lemma elem_of_merged_liberties v same x :
  GoString.liberties v ## GoString.stones v →
  x ∈ GoString.liberties (merged v same) ↔
  (x ∈ GoString.liberties v ∨ ∃ s, s ∈ same ∧ x ∈ GoString.liberties (obj s)) ∧
  x ∉ GoString.stones (merged v same).
Proof.
  revert v. induction same as [|s same IH]; intros v Hdisj.
  - simpl. split.
    + intros Hx. split; [by left|]. intros Hs. by apply (Hdisj x).
    + intros [[?|(s & Hs & _)] _]; [done|]. by apply elem_of_nil in Hs.
  - unfold merged in *. simpl.
    rewrite IH
      by (simpl; intros y Hy1 Hy2; by apply elem_of_difference in Hy1 as [_ ?]).
    simpl. split.
    + intros [[Hx|(s' & Hs' & Hx)] Hnot]; (split; [|done]).
      * apply elem_of_difference in Hx as [[?|?]%elem_of_union _]; [by left|].
        right. exists s. split; [by left|done].
      * right. exists s'. split; [by right|done].
    + intros [Hx Hnot]. split; [|done].
      assert (Hnot1 : x ∉ GoString.stones v ∪ GoString.stones (obj s)).
      { intros Hin. apply Hnot.
        apply (elem_of_merged_stones
                 (GoString.init (GoString.color v)
                    (GoString.stones v ∪ GoString.stones (obj s))
                    ((GoString.liberties v ∪ GoString.liberties (obj s))
                       ∖ (GoString.stones v ∪ GoString.stones (obj s)))) same x).
        by left. }
      destruct Hx as [Hx|(s' & [->|Hs']%elem_of_cons & Hx)].
      * left. apply elem_of_difference. split; [|done]. apply elem_of_union. by left.
      * left. apply elem_of_difference. split; [|done]. apply elem_of_union. by right.
      * right. eauto.
Qed.

Lemma scan_same_adjacent b player point :
  Forall (fun r => ∃ nb, nb ∈ neighbors point ∧ grid_get b nb = Some r)
         (adjacent_same_color (scan b player point)).
Proof.
  unfold scan.
  assert (Hgen : ∀ nbs acc,
    (∀ nb, nb ∈ nbs → nb ∈ neighbors point) →
    Forall (fun r => ∃ nb, nb ∈ neighbors point ∧ grid_get b nb = Some r)
           (adjacent_same_color acc) →
    Forall (fun r => ∃ nb, nb ∈ neighbors point ∧ grid_get b nb = Some r)
           (adjacent_same_color (fold_left (scan_neighbor b player) nbs acc))).
  { induction nbs as [|nb nbs IH]; intros acc Hsub Hacc; simpl; [done|].
    apply IH; [intros x Hx; apply Hsub; by right|].
    unfold scan_neighbor.
    destruct (negb (is_on_grid b nb)); [done|].
    destruct (grid_get b nb) as [r|] eqn:Hr; [|done].
    destruct (bool_decide _).
    - destruct (negb _); [|done]. simpl.
      apply Forall_app. split; [done|]. apply Forall_singleton.
      exists nb. split; [apply Hsub; by left|done].
    - by destruct (negb _). }
  apply Hgen; [done|]. simpl. constructor.
Qed.

Lemma point_not_own_neighbor p : p ∉ neighbors p.
Proof.
  unfold neighbors. destruct p as [r c]. simpl.
  rewrite !elem_of_cons, elem_of_nil.
  intros [H|[H|[H|[H|[]]]]]; injection H; lia.
Qed.

(** Paths inside a set stay paths inside a larger set. *)
Lemma rtc_step_in_mono (S S' : gset Point) x y :
  S ⊆ S' → rtc (step_in S) x y → rtc (step_in S') x y.
Proof.
  intros Hsub. apply rtc_subrel.
  intros a c (Ha & Hc & Hn). repeat split; auto.
Qed.

(** ** One returning placement *)

Section Step.

Context `{!Zobrist, !FrozensetOrder}.

Variables (b : Board) (n : nat) (player : Player) (point : Point) (m' : Mem).
Hypothesis Hok : strings_ok b.
Hypothesis Hinj : addr_inj b.
Hypothesis Hgrid : on_grid_ok b.
Hypothesis Hon : is_on_grid b point = true.
Hypothesis Hfree : grid_get b point = None.
Hypothesis Hcap : captures_nothing b player point.
Hypothesis Hplace : place_stone player point (mkMem b n) = Returned tt m'.

Lemma same_facts s :
  s ∈ adjacent_same_color (scan b player point) →
  GoString.color (obj s) = player ∧ live b s ∧
  ∃ nb, nb ∈ neighbors point ∧ nb ∈ GoString.stones (obj s).
Proof using Hok.
  intros Hs.
  destruct (scan_is_ok b player point) as (Hsame & _ & _).
  pose proof (scan_same_adjacent b player point) as Hadj.
  rewrite Forall_forall in Hsame, Hadj.
  destruct (Hsame s Hs) as (Hcol & _). destruct (Hadj s Hs) as (nb & Hnb & Hg).
  destruct (Hok nb s Hg) as (Hin & Hall).
  split; [done|]. split; [done|]. by exists nb.
Qed.

Lemma opp_facts r :
  r ∈ adjacent_opposite_color (scan b player point) →
  GoString.color (obj r) ≠ player ∧ live b r.
Proof using Hok.
  intros Hr.
  destruct (scan_is_ok b player point) as (_ & Hopp & _).
  rewrite Forall_forall in Hopp.
  destruct (Hopp r Hr) as (Hcol & nb & Hg).
  destruct (Hok nb r Hg) as (_ & Hall). done.
Qed.

(** The string of an occupied neighbor of the point is in the list of its
    color. *)
Lemma neighbor_string nb t :
  nb ∈ neighbors point → grid_get b nb = Some t →
  (GoString.color (obj t) = player ∧
   t ∈ adjacent_same_color (scan b player point)) ∨
  (GoString.color (obj t) ≠ player ∧
   t ∈ adjacent_opposite_color (scan b player point)).
Proof using Hok Hinj Hgrid.
  intros Hnb Ht.
  pose proof (scan_complete b player point nb Hnb (Hgrid nb t Ht)) as Hc.
  simpl in Hc. rewrite Ht in Hc.
  destruct (scan_is_ok b player point) as (Hsame & Hopp & _).
  destruct (decide (GoString.color (obj t) = player)) as [Hcol|Hcol].
  - rewrite bool_decide_eq_true_2 in Hc by done. left. split; [done|].
    apply (Ref_in_stored b t _ nb Hok Hinj Ht); [|done].
    eapply Forall_impl; [exact Hsame|]. by intros r [_ ?].
  - rewrite bool_decide_eq_false_2 in Hc by done. right. split; [done|].
    apply (Ref_in_stored b t _ nb Hok Hinj Ht); [|done].
    eapply Forall_impl; [exact Hopp|]. by intros r [_ ?].
Qed.

Lemma stones_placed q :
  q ∈ GoString.stones (placed_string b player point) ↔
  q = point ∨ ∃ s, s ∈ adjacent_same_color (scan b player point) ∧
                   q ∈ GoString.stones (obj s).
Proof.
  unfold placed_string. rewrite elem_of_merged_stones. simpl.
  rewrite elem_of_union, elem_of_singleton. split.
  - intros [[?|[]%elem_of_empty]|?]; auto.
  - intros [?|?]; auto.
Qed.

Lemma liberties_placed x :
  x ∈ GoString.liberties (placed_string b player point) ↔
  ((x ∈ neighbors point ∧ is_on_grid b x = true ∧ grid_get b x = None) ∨
   ∃ s, s ∈ adjacent_same_color (scan b player point) ∧
        x ∈ GoString.liberties (obj s)) ∧
  x ∉ GoString.stones (placed_string b player point).
Proof using Hgrid.
  unfold placed_string. rewrite elem_of_merged_liberties.
  - simpl. rewrite elem_of_list_to_set. split.
    + intros [[Hx|Hx] Hnot]; (split; [|done]); [left|by right].
      by apply (scan_liberties_sound b player point).
    + intros [[(Hnb & Hxon & Hxfree)|Hx] Hnot]; (split; [|done]); [left|by right].
      pose proof (scan_complete b player point x Hnb Hxon) as Hc.
      simpl in Hc. by rewrite Hxfree in Hc.
  - simpl. intros x0 Hx0 Hs.
    apply elem_of_list_to_set, scan_liberties_sound in Hx0 as (Hnb & _).
    apply elem_of_union in Hs as [->%elem_of_singleton|[]%elem_of_empty].
    by apply point_not_own_neighbor in Hnb.
Qed.

(** The three kinds of points after the call. *)
Lemma placed_view q :
  (q ∈ GoString.stones (placed_string b player point) ∧
   ∃ a, grid_get (self m') q = Some (mkRef a (placed_string b player point))) ∨
  ((q ∉ GoString.stones (placed_string b player point)) ∧
   ∃ r a, r ∈ adjacent_opposite_color (scan b player point) ∧
          q ∈ GoString.stones (obj r) ∧ grid_get b q = Some r ∧
          grid_get (self m') q
          = Some (mkRef a (GoString.without_liberty (obj r) point))) ∨
  ((q ∉ GoString.stones (placed_string b player point)) ∧
   (∀ r, r ∈ adjacent_opposite_color (scan b player point) →
         q ∉ GoString.stones (obj r)) ∧
   grid_get (self m') q = grid_get b q).
Proof using Hok Hon Hfree Hcap Hplace.
  destruct (place_stone_effect b n player point Hok Hon Hfree Hcap)
    as (a & m1 & Hret & _ & _ & _ & Hnew & Hrepl & Hsame).
  rewrite Hplace in Hret. injection Hret as <-.
  destruct (decide (q ∈ GoString.stones (placed_string b player point)))
    as [Hq|Hq]; [left; split; [done|]; exists a; by apply Hnew|right].
  destruct (decide (Exists (fun r => q ∈ GoString.stones (obj r))
                           (adjacent_opposite_color (scan b player point))))
    as [Hex|Hex].
  - left. split; [done|]. apply Exists_exists in Hex as (r & Hr & Hqr).
    destruct (Hrepl r Hr) as (a' & Ha').
    exists r, a'. split; [done|]. split; [done|].
    split; [|by apply Ha']. by apply opp_facts.
  - right. split; [done|]. rewrite Exists_exists in Hex.
    assert (Hnone : ∀ r, r ∈ adjacent_opposite_color (scan b player point) →
                         q ∉ GoString.stones (obj r)) by (intros r Hr Hqr; eauto).
    split; [done|]. by apply Hsame.
Qed.

Lemma placed_sizes :
  num_rows (self m') = num_rows b ∧ num_cols (self m') = num_cols b.
Proof using Hok Hon Hfree Hcap Hplace.
  destruct (place_stone_effect b n player point Hok Hon Hfree Hcap)
    as (a & m1 & Hret & Hr & Hc & _).
  rewrite Hplace in Hret. by injection Hret as <-.
Qed.

Lemma placed_on_grid q : is_on_grid (self m') q = is_on_grid b q.
Proof using Hok Hon Hfree Hcap Hplace.
  destruct placed_sizes as [Hr Hc]. unfold is_on_grid. by rewrite Hr, Hc.
Qed.

(** The free points after the call are the free points before it, the
    played point apart. *)
Lemma placed_free q :
  grid_get (self m') q = None ↔ grid_get b q = None ∧ q ≠ point.
Proof using Hok Hon Hfree Hcap Hplace.
  destruct (placed_view q) as [(Hq & a & Ha)|[(Hq & r & a & _ & _ & Hb & Ha)
                                             |(Hq & _ & Hsame)]].
  - rewrite Ha. split; [done|]. intros [Hnone Hne].
    apply stones_placed in Hq as [->|(s & Hs & Hqs)]; [done|].
    destruct (same_facts s Hs) as (_ & Hlive & _).
    rewrite (Hlive q Hqs) in Hnone. done.
  - rewrite Ha, Hb. split; [done|]. by intros [? _].
  - rewrite Hsame. split; [|by intros [? _]]. intros Hnone. split; [done|].
    intros ->. apply Hq. apply stones_placed. by left.
Qed.


Lemma placed_on_grid_ok : on_grid_ok (self m').
Proof using Hok Hgrid Hon Hfree Hcap Hplace.
  intros p r Hp. rewrite placed_on_grid.
  destruct (decide (p = point)) as [->|Hne]; [done|].
  destruct (grid_get b p) as [t|] eqn:Hb; [by eapply Hgrid|].
  assert (Hnone : grid_get (self m') p = None) by by apply placed_free.
  congruence.
Qed.

(** A stone of the new string is not free before the call, the played
    point apart. *)
Lemma placed_stone_not_free q :
  q ∈ GoString.stones (placed_string b player point) →
  grid_get b q = None → q = point.
Proof using Hok.
  intros Hq Hnone. apply stones_placed in Hq as [->|(s & Hs & Hqs)]; [done|].
  destruct (same_facts s Hs) as (_ & Hlive & _).
  rewrite (Hlive q Hqs) in Hnone. done.
Qed.

(** A string with a stone next to the played point is one of the
    neighbor strings: a point of the unchanged part has no such string. *)
Lemma unchanged_not_adjacent p t st :
  p ∉ GoString.stones (placed_string b player point) →
  (∀ r, r ∈ adjacent_opposite_color (scan b player point) →
        p ∉ GoString.stones (obj r)) →
  grid_get b p = Some t → st ∈ GoString.stones (obj t) →
  st ∉ neighbors point.
Proof using Hok Hinj Hgrid.
  intros Hp Hnone Ht Hst Hnb.
  destruct (Hok p t Ht) as (Hpt & Hlive).
  destruct (neighbor_string st t Hnb (Hlive st Hst)) as [(_ & Hs)|(_ & Hr)].
  - apply Hp. apply stones_placed. right. by exists t.
  - by apply (Hnone t Hr).
Qed.

Section Liberties.

Hypothesis Hlib : liberties_ok b.

Lemma placed_liberties_ok : liberties_ok (self m').
Proof using All.
  intros p r' Hp q.
  destruct (placed_view p) as [(Hq & a & Ha)|[(Hq & r & a & Hr & Hpr & Hb & Ha)
                                             |(Hq & Hnone & Hsame)]].
  - rewrite Ha in Hp. injection Hp as <-. simpl.
    rewrite liberties_placed. unfold is_liberty_of.
    rewrite placed_on_grid, placed_free. split.
    + intros [[(Hnb & Hqon & Hqfree)|(s & Hs & Hqs)] Hnot].
      * split; [done|]. split.
        { split; [done|]. intros ->. apply Hnot, point_in_placed_string. }
        exists point. split; [apply point_in_placed_string|done].
      * destruct (same_facts s Hs) as (_ & Hlive & nb & _ & Hnbs).
        apply (Hlib nb s (Hlive nb Hnbs)) in Hqs as (Hqon & Hqfree & st & Hst & Hqst).
        split; [done|]. split.
        { split; [done|]. intros ->. apply Hnot, point_in_placed_string. }
        exists st. split; [|done]. apply stones_placed. right. by exists s.
    + intros (Hqon & (Hqfree & Hne) & st & Hst & Hqst). split.
      * apply stones_placed in Hst as [->|(s & Hs & Hsts)]; [by left|right].
        exists s. split; [done|].
        destruct (same_facts s Hs) as (_ & Hlive & nb & _ & Hnbs).
        apply (Hlib nb s (Hlive nb Hnbs)).
        split; [done|]. split; [done|]. by exists st.
      * intros Hin. by apply Hne, placed_stone_not_free.
  - rewrite Ha in Hp. injection Hp as <-. simpl.
    rewrite elem_of_difference, elem_of_singleton, (Hlib p r Hb q).
    unfold is_liberty_of. simpl. rewrite placed_on_grid, placed_free. tauto.
  - rewrite Hsame in Hp. rewrite (Hlib p r' Hp q).
    unfold is_liberty_of. rewrite placed_on_grid, placed_free.
    split; [|tauto]. intros (Hqon & Hqfree & st & Hst & Hqst).
    split; [done|]. split; [|by exists st]. split; [done|]. intros ->.
    apply (unchanged_not_adjacent p r' st Hq Hnone Hp Hst).
    by apply neighbors_sym.
Qed.

End Liberties.

Section Maximal.

Hypothesis Hmax : maximal_ok b.

Lemma placed_maximal_ok : maximal_ok (self m').
Proof using All.
  intros p q r1 r2 Hp Hnb Hq Hcol.
  destruct (placed_view p) as [(Hpg & a & Ha)|[(Hpg & r & a & Hr & Hpr & Hb & Ha)
                                             |(Hpg & Hnone & Hsame)]].
  - rewrite Ha in Hp. injection Hp as <-. simpl in *.
    rewrite placed_string_color in Hcol.
    destruct (placed_view q) as [(Hqg & _)|[(Hqg & r & a' & Hr & Hqr & Hb & Ha')
                                           |(Hqg & Hnone & Hsame)]]; [done| |].
    + rewrite Ha' in Hq. injection Hq as <-. simpl in Hcol.
      by destruct (opp_facts r Hr) as (Hne & _).
    + rewrite Hsame in Hq. destruct (Hok q r2 Hq) as (Hq2 & Hlive2).
      apply stones_placed. right.
      apply stones_placed in Hpg as [->|(s & Hs & Hps)].
      * destruct (neighbor_string q r2 Hnb Hq) as [(_ & Hs)|(Hne & _)]; [|done].
        by exists r2.
      * exists s. split; [done|].
        destruct (same_facts s Hs) as (Hcs & Hlive & _).
        apply (Hmax p q s r2 (Hlive p Hps) Hnb Hq). congruence.
  - rewrite Ha in Hp. injection Hp as <-. simpl in *.
    destruct (placed_view q) as [(Hqg & a' & Ha')|[(Hqg & r' & a' & Hr' & Hqr & Hb' & Ha')
                                           |(Hqg & Hnone & Hsame)]].
    + rewrite Ha' in Hq. injection Hq as <-. simpl in Hcol.
      rewrite placed_string_color in Hcol.
      destruct (opp_facts r Hr) as (Hne & _). congruence.
    + rewrite Ha' in Hq. injection Hq as <-. simpl in Hcol.
      by apply (Hmax p q r r' Hb Hnb Hb').
    + rewrite Hsame in Hq. by apply (Hmax p q r r2 Hb Hnb Hq).
  - rewrite Hsame in Hp.
    destruct (placed_view q) as [(Hqg & a' & Ha')|[(Hqg & r' & a' & Hr' & Hqr & Hb' & Ha')
                                           |(Hqg & Hnone' & Hsame')]].
    + rewrite Ha' in Hq. injection Hq as <-. simpl in Hcol.
      rewrite placed_string_color in Hcol.
      destruct (Hok p r1 Hp) as (Hp1 & Hlive1). exfalso.
      apply stones_placed in Hqg as [->|(s & Hs & Hqs)].
      * apply (unchanged_not_adjacent p r1 p Hpg Hnone Hp Hp1).
        by apply neighbors_sym.
      * destruct (same_facts s Hs) as (Hcs & Hlive & _).
        assert (Hqr1 : q ∈ GoString.stones (obj r1)).
        { apply (Hmax p q r1 s Hp Hnb (Hlive q Hqs)). congruence. }
        assert (Hes : s = r1).
        { pose proof (Hlive1 q Hqr1) as H1. rewrite (Hlive q Hqs) in H1.
          by injection H1. }
        apply Hpg, stones_placed. right. exists s. split; [done|].
        by rewrite Hes.
    + rewrite Ha' in Hq. injection Hq as <-. simpl in Hcol.
      by apply (Hmax p q r1 r' Hp Hnb Hb').
    + rewrite Hsame' in Hq. by apply (Hmax p q r1 r2 Hp Hnb Hq).
Qed.

End Maximal.

Section Connected.

Hypothesis Hconn : connected_ok b.

Lemma placed_string_connected :
  connected (GoString.stones (placed_string b player point)).
Proof using Hok Hconn.
  assert (Hto : ∀ x, x ∈ GoString.stones (placed_string b player point) →
            rtc (step_in (GoString.stones (placed_string b player point))) x point ∧
            rtc (step_in (GoString.stones (placed_string b player point))) point x).
  { intros x Hx. apply stones_placed in Hx as [->|(s & Hs & Hxs)]; [done|].
    destruct (same_facts s Hs) as (_ & Hlive & nb & Hnb & Hnbs).
    assert (Hsub : GoString.stones (obj s)
                   ⊆ GoString.stones (placed_string b player point)).
    { intros y Hy. apply stones_placed. right. by exists s. }
    pose proof (Hconn nb s (Hlive nb Hnbs)) as Hc.
    split.
    - eapply rtc_r; [apply (rtc_step_in_mono _ _ _ _ Hsub), Hc; done|].
      split; [by apply Hsub|]. split; [apply point_in_placed_string|].
      by apply neighbors_sym.
    - eapply rtc_l; [|apply (rtc_step_in_mono _ _ _ _ Hsub), (Hc nb x); done].
      split; [apply point_in_placed_string|]. split; [by apply Hsub|done]. }
  intros x y Hx Hy. etrans; [apply (Hto x Hx)|apply (Hto y Hy)].
Qed.

Lemma placed_connected_ok : connected_ok (self m').
Proof using All.
  intros p r' Hp.
  destruct (placed_view p) as [(Hq & a & Ha)|[(Hq & r & a & Hr & Hpr & Hb & Ha)
                                             |(Hq & Hnone & Hsame)]].
  - rewrite Ha in Hp. injection Hp as <-. apply placed_string_connected.
  - rewrite Ha in Hp. injection Hp as <-. simpl. by apply (Hconn p r).
  - rewrite Hsame in Hp. by apply (Hconn p r').
Qed.

End Connected.

End Step.

(** ** The boards the program reaches *)

Section Reached.

Context `{!Zobrist, !FrozensetOrder}.

(** A call of [place_stone] that returns was made on a free point of the
    grid and captured nothing. *)
Lemma place_stone_returned m player point m' :
  strings_ok (self m) → addrs_below (self m) (next_addr m) →
  place_stone player point m = Returned tt m' →
  is_on_grid (self m) point = true ∧ grid_get (self m) point = None ∧
  captures_nothing (self m) player point.
Proof.
  intros Hok Hbelow Hret.
  destruct (is_on_grid (self m) point) eqn:Hon;
    [|by rewrite place_stone_off_grid in Hret].
  destruct (grid_get (self m) point) as [x|] eqn:Hfree.
  { rewrite place_stone_occupied in Hret; [done|congruence]. }
  split; [done|]. split; [done|].
  destruct m as [b n].
  apply (place_stone_returns_iff b n player point Hok Hbelow Hon Hfree).
  by exists m'.
Qed.

Lemma Board_init_grid rows cols p : grid_get (Board_init rows cols) p = None.
Proof. unfold grid_get, Board_init. simpl. by rewrite lookup_empty. Qed.

Lemma reachable_mem_groups m :
  reachable_mem m →
  addr_inj (self m) ∧ on_grid_ok (self m) ∧ liberties_ok (self m) ∧
  maximal_ok (self m) ∧ connected_ok (self m).
Proof.
  induction 1 as [rows cols n|m k Hm IH|m player point m' Hm IH Hret].
  - simpl. split; [|split; [|split; [|split]]].
    + intros p q r r' Hp. by rewrite Board_init_grid in Hp.
    + intros p r Hp. by rewrite Board_init_grid in Hp.
    + intros p r Hp. by rewrite Board_init_grid in Hp.
    + intros p q r r' Hp. by rewrite Board_init_grid in Hp.
    + intros p r Hp. by rewrite Board_init_grid in Hp.
  - done.
  - destruct IH as (Hinj & Hgrid & Hlib & Hmax & Hconn).
    destruct (reachable_mem_ok m Hm) as [Hr Hbelow].
    destruct (reachable_ok _ Hr) as [Hok _].
    destruct (place_stone_returned m player point m' Hok Hbelow Hret)
      as (Hon & Hfree & Hcap).
    pose proof (place_stone_addr_inj player point m Hbelow Hinj) as Hwp.
    unfold wp in Hwp. rewrite Hret in Hwp.
    destruct m as [b n]. simpl in *.
    split; [done|].
    split; [by apply (placed_on_grid_ok b n player point m')|].
    split; [by apply (placed_liberties_ok b n player point m')|].
    split; [by apply (placed_maximal_ok b n player point m')|].
    by apply (placed_connected_ok b n player point m').
Qed.

End Reached.

Lemma get_go_string_grid b p : get_go_string b p = grid_get b p.
Proof. unfold get_go_string. by destruct (grid_get b p). Qed.

Lemma get_None b p : get b p = None ↔ grid_get b p = None.
Proof. unfold get. by destruct (grid_get b p). Qed.

Lemma get_Some b p r :
  grid_get b p = Some r → get b p = Some (GoString.color (obj r)).
Proof. unfold get. by intros ->. Qed.

Section Groups.

Context `{!Zobrist, !FrozensetOrder}.

Lemma reachable_mem_all m :
  reachable_mem m →
  strings_ok (self m) ∧ addrs_below (self m) (next_addr m) ∧
  addr_inj (self m) ∧ on_grid_ok (self m) ∧ liberties_ok (self m) ∧
  maximal_ok (self m) ∧ connected_ok (self m).
Proof.
  intros Hm. destruct (reachable_mem_ok m Hm) as [Hr Hbelow].
  destruct (reachable_ok _ Hr) as [Hok _].
  destruct (reachable_mem_groups m Hm) as (? & ? & ? & ? & ?). done.
Qed.

(** X4: on every board the program reaches, the liberties a string
    records are exactly the free points of the grid next to one of its
    stones. *)
Theorem reached_liberties_exact (m : Mem) (p : Point) (r : Ref) :
  reachable_mem m → get_go_string (self m) p = Some r →
  ∀ q, q ∈ GoString.liberties (obj r) ↔
       is_on_grid (self m) q = true ∧ get (self m) q = None ∧
       ∃ s, s ∈ GoString.stones (obj r) ∧ q ∈ neighbors s.
Proof.
  intros Hm Hp q. rewrite get_go_string_grid in Hp.
  destruct (reachable_mem_all m Hm) as (_ & _ & _ & _ & Hlib & _).
  rewrite (Hlib p r Hp q), get_None. done.
Qed.

(** X5: on every board the program reaches, the stones of the string at a
    point are exactly the points joined to it by steps between
    neighboring stones of one color. *)
Theorem reached_string_is_component (m : Mem) (p : Point) (r : Ref) :
  reachable_mem m → get_go_string (self m) p = Some r →
  ∀ q, q ∈ GoString.stones (obj r) ↔ rtc (same_color_step (self m)) p q.
Proof.
  intros Hm Hp q. rewrite get_go_string_grid in Hp.
  destruct (reachable_mem_all m Hm) as (Hok & _ & _ & _ & _ & Hmax & Hconn).
  destruct (Hok p r Hp) as [Hpr Hlive]. split.
  - intros Hq. pose proof (Hconn p r Hp p q Hpr Hq) as Hpath.
    eapply rtc_subrel; [|exact Hpath].
    intros x y (Hx & Hy & Hnb). split; [done|].
    rewrite (get_Some _ x r (Hlive x Hx)), (get_Some _ y r (Hlive y Hy)). done.
  - intros Hpath. induction Hpath as [x|x y z (Hnb & Hx & Hy) _ IH]; [done|].
    assert (Hyr : y ∈ GoString.stones (obj r)).
    { destruct (grid_get (self m) y) as [r'|] eqn:Hgy.
      - apply (Hmax x y r r' Hp Hnb Hgy).
        rewrite (get_Some _ x r Hp), (get_Some _ y r' Hgy) in Hy. congruence.
      - apply get_None in Hgy. congruence. }
    by apply IH; [apply Hlive|].
Qed.

(** X6: on every board the program reaches, a string is stored at each of
    its stones and nowhere else, its stones lie on the grid, and two
    stored strings with a common stone are one object. *)
Theorem reached_grid_consistent (m : Mem) (p : Point) (r : Ref) :
  reachable_mem m → get_go_string (self m) p = Some r →
  is_on_grid (self m) p = true ∧
  get (self m) p = Some (GoString.color (obj r)) ∧
  (∀ q, get_go_string (self m) q = Some r ↔ q ∈ GoString.stones (obj r)) ∧
  (∀ q r', get_go_string (self m) q = Some r' →
           addr r' = addr r ∨ q ∈ GoString.stones (obj r) → r' = r).
Proof.
  intros Hm Hp. rewrite get_go_string_grid in Hp.
  destruct (reachable_mem_all m Hm) as (Hok & _ & Hinj & Hgrid & _).
  destruct (Hok p r Hp) as [Hpr Hlive].
  split; [by apply (Hgrid p r)|]. split; [by apply get_Some|]. split.
  - intros q. rewrite get_go_string_grid. split; [|by apply Hlive].
    intros Hq. by destruct (Hok q r Hq).
  - intros q r' Hq [Ha|Hqr]; rewrite get_go_string_grid in Hq.
    + by apply (Hinj q p r' r).
    + pose proof (Hlive q Hqr). congruence.
Qed.

(** On a reached board, a placement on a free point of the grid captures
    nothing exactly when no opposite-color neighbor string is down to one
    liberty. *)
Lemma captures_nothing_iff m player point :
  reachable_mem m →
  is_on_grid (self m) point = true → grid_get (self m) point = None →
  captures_nothing (self m) player point ↔
  ¬ in_atari_next_to (self m) player point.
Proof.
  intros Hm Hon Hfree.
  destruct (reachable_mem_all m Hm) as (Hok & _ & Hinj & Hgrid & Hlib & _).
  assert (Hpt : ∀ nb r, nb ∈ neighbors point → grid_get (self m) nb = Some r →
                        {[ point ]} ⊆ GoString.liberties (obj r)).
  { intros nb r Hnb Hr x ->%elem_of_singleton. apply (Hlib nb r Hr).
    split; [done|]. split; [done|]. exists nb.
    split; [by destruct (Hok nb r Hr)|by apply neighbors_sym]. }
  unfold captures_nothing, in_atari_next_to. rewrite Forall_forall. split.
  - intros Hall (nb & r & Hnb & Hr & Hcol & Hone).
    rewrite get_go_string_grid in Hr.
    destruct (neighbor_string (self m) player point Hok Hinj Hgrid nb r Hnb Hr)
      as [(Hc & _)|(_ & Hin)]; [done|].
    apply (Hall r Hin). unfold GoString.num_liberties in *. simpl.
    rewrite size_difference by by apply (Hpt nb).
    rewrite Hone, size_singleton. done.
  - intros Hno r Hin Hzero.
    pose proof (scan_opposite_adjacent (self m) player point) as Hadj.
    destruct (scan_is_ok (self m) player point) as (_ & Hopp & _).
    rewrite Forall_forall in Hadj, Hopp.
    destruct (Hadj r Hin) as (nb & Hnb & Hr). destruct (Hopp r Hin) as [Hcol _].
    apply Hno. exists nb, r. rewrite get_go_string_grid.
    split; [done|]. split; [done|]. split; [done|].
    unfold GoString.num_liberties in *. simpl in Hzero.
    rewrite size_difference in Hzero by by apply (Hpt nb).
    rewrite size_singleton in Hzero.
    assert (Hpos : (0 < size (GoString.liberties (obj r)))%nat).
    { pose proof (subseteq_size _ _ (Hpt nb r Hnb Hr)) as Hle.
      rewrite size_singleton in Hle. lia. }
    lia.
Qed.

(** X7: the three outcomes of [place_stone] on a reached board: an
    [AssertionError] that leaves the board as it was when the point is off
    the grid or occupied; otherwise an [AttributeError] when an
    opposite-color neighbor string is down to its last liberty, and a
    normal return when none is. *)
Theorem place_stone_trichotomy (m : Mem) (player : Player) (point : Point) :
  reachable_mem m →
  (is_on_grid (self m) point = false ∨ get (self m) point ≠ None →
   place_stone player point m = Raised AssertionError m) ∧
  (is_on_grid (self m) point = true → get (self m) point = None →
   (in_atari_next_to (self m) player point →
    ∃ m', place_stone player point m = Raised AttributeError m') ∧
   (¬ in_atari_next_to (self m) player point →
    ∃ m', place_stone player point m = Returned tt m')).
Proof.
  intros Hm. split.
  - intros [Hoff|Hocc]; [by apply place_stone_off_grid|].
    apply place_stone_occupied. by rewrite <- get_None.
  - intros Hon Hfree. apply get_None in Hfree.
    destruct (place_stone_outcome m player point Hm Hon Hfree) as [Hret Hraise].
    pose proof (captures_nothing_iff m player point Hm Hon Hfree) as Hiff.
    split.
    + intros Hat. apply Hraise. rewrite Hiff. tauto.
    + intros Hno. apply Hret. by rewrite Hiff.
Qed.

End Groups.

Section Placement.

Context `{!Zobrist, !FrozensetOrder}.

Lemma reachable_mem_place_all moves m m' :
  reachable_mem m → place_all moves m = Returned tt m' → reachable_mem m'.
Proof.
  revert m. induction moves as [|[player point] moves IH]; intros m Hm Hret.
  - unfold place_all in Hret. simpl in Hret. unfold ret in Hret. congruence.
  - unfold place_all in Hret. rewrite for_each_cons, bind_run in Hret.
    destruct (place_stone _ _ m) as [[] m1|e m1] eqn:Hp; [|done].
    apply (IH m1); [|done]. by eapply reachable_mem_place.
Qed.

(** What a returning call was made on, and the views of its result. *)
Lemma returned_facts m player point m' :
  reachable_mem m → place_stone player point m = Returned tt m' →
  is_on_grid (self m) point = true ∧ grid_get (self m) point = None ∧
  captures_nothing (self m) player point ∧
  place_stone player point (mkMem (self m) (next_addr m)) = Returned tt m'.
Proof.
  intros Hm Hret.
  destruct (reachable_mem_all m Hm) as (Hok & Hbelow & _).
  destruct (place_stone_returned m player point m' Hok Hbelow Hret)
    as (Hon & Hfree & Hcap).
  by destruct m.
Qed.

(** X8: a call of [place_stone] that returns on a reached board adds the
    one stone: the colors of all other points are as before, the size is
    unchanged, the hash is XORed with the code of the new stone, and every
    string of the other color keeps its stones and loses the played point
    from its liberties. *)
Theorem place_stone_adds_one_stone
    (m : Mem) (player : Player) (point : Point) (m' : Mem) :
  reachable_mem m → place_stone player point m = Returned tt m' →
  (∀ q, get (self m') q = if decide (q = point) then Some player
                          else get (self m) q) ∧
  num_rows (self m') = num_rows (self m) ∧
  num_cols (self m') = num_cols (self m) ∧
  zobrist_hash (self m')
  = Z.lxor (zobrist_hash (self m)) (HASH_CODE point player) ∧
  ∀ q r, get_go_string (self m) q = Some r →
         GoString.color (obj r) ≠ player →
         ∃ r', get_go_string (self m') q = Some r' ∧
               GoString.color (obj r') = GoString.color (obj r) ∧
               GoString.stones (obj r') = GoString.stones (obj r) ∧
               GoString.liberties (obj r')
               = GoString.liberties (obj r) ∖ {[ point ]}.
Proof.
  intros Hm Hret.
  destruct (reachable_mem_all m Hm) as (Hok & _ & Hinj & Hgrid & Hlib & _).
  destruct (returned_facts m player point m' Hm Hret)
    as (Hon & Hfree & Hcap & Hret').
  pose proof (placed_view (self m) (next_addr m) player point m'
                Hok Hon Hfree Hcap Hret') as Hview.
  destruct (place_stone_effect (self m) (next_addr m) player point
              Hok Hon Hfree Hcap) as (a0 & m0 & Hret0 & Hrows & Hcols & Hh & _).
  rewrite Hret' in Hret0. injection Hret0 as <-.
  split; [|split; [done|split; [done|split; [done|]]]].
  - intros q.
    destruct (Hview q) as [(Hq & a & Ha)|[(Hq & r & a & Hr & Hqr & Hb & Ha)
                                         |(Hq & Hnone & Hsame)]].
    + rewrite (get_Some _ q _ Ha). simpl. rewrite placed_string_color.
      destruct (decide (q = point)) as [->|Hne]; [done|].
      destruct (placed_string_old_stones (self m) player point q Hok Hq Hne)
        as (s & Hs & Hcol & _).
      by rewrite (get_Some _ q s Hs), Hcol.
    + rewrite decide_False
        by (intros ->; apply Hq, point_in_placed_string).
      by rewrite (get_Some _ q _ Ha), (get_Some _ q _ Hb).
    + rewrite decide_False
        by (intros ->; apply Hq, point_in_placed_string).
      by rewrite !get_of_grid_get, Hsame.
  - intros q r Hq Hcol. rewrite get_go_string_grid in Hq.
    destruct (Hview q) as [(Hqg & a & Ha)|[(Hqg & r0 & a & Hr & Hqr & Hb & Ha)
                                          |(Hqg & Hnone & Hsame)]].
    + destruct (decide (q = point)) as [->|Hne]; [congruence|].
      destruct (placed_string_old_stones (self m) player point q Hok Hqg Hne)
        as (s & Hs & Hcs & _).
      congruence.
    + assert (r0 = r) as -> by congruence.
      exists (mkRef a (GoString.without_liberty (obj r) point)).
      by rewrite get_go_string_grid.
    + exists r. rewrite get_go_string_grid, Hsame.
      split; [done|]. split; [done|]. split; [done|].
      apply set_eq. intros x. rewrite elem_of_difference, elem_of_singleton.
      split; [|tauto]. intros Hx. split; [done|]. intros ->.
      apply (Hlib q r Hq) in Hx as (_ & _ & st & Hst & Hadj).
      apply (unchanged_not_adjacent (self m) player point Hok Hinj Hgrid
               q r st Hqg Hnone Hq Hst).
      by apply neighbors_sym.
Qed.

(** X9: a call of [place_stone] that returns on a reached board stores one
    new string at the played point: its stones are the point and the
    stones of the same-color strings next to it, and these all hold the
    new object. *)
Theorem place_stone_merges_neighbors
    (m : Mem) (player : Player) (point : Point) (m' : Mem) :
  reachable_mem m → place_stone player point m = Returned tt m' →
  ∃ new, get_go_string (self m') point = Some new ∧
         GoString.color (obj new) = player ∧
         (∀ q, q ∈ GoString.stones (obj new) ↔
               q = point ∨
               ∃ nb s, nb ∈ neighbors point ∧
                       get_go_string (self m) nb = Some s ∧
                       GoString.color (obj s) = player ∧
                       q ∈ GoString.stones (obj s)) ∧
         ∀ q, q ∈ GoString.stones (obj new) →
              get_go_string (self m') q = Some new.
Proof.
  intros Hm Hret.
  destruct (reachable_mem_all m Hm) as (Hok & _ & Hinj & Hgrid & _).
  destruct (returned_facts m player point m' Hm Hret)
    as (Hon & Hfree & Hcap & Hret').
  destruct (place_stone_effect (self m) (next_addr m) player point
              Hok Hon Hfree Hcap) as (a & m0 & Hret0 & _ & _ & _ & Hnew & _).
  rewrite Hret' in Hret0. injection Hret0 as <-.
  exists (mkRef a (placed_string (self m) player point)). simpl.
  split; [rewrite get_go_string_grid; apply Hnew, point_in_placed_string|].
  split; [apply placed_string_color|]. split.
  - intros q. rewrite stones_placed. split.
    + intros [->|(s & Hs & Hqs)]; [by left|right].
      destruct (same_facts (self m) player point Hok s Hs)
        as (Hcol & Hlive & nb & Hnb & Hnbs).
      exists nb, s. rewrite get_go_string_grid. by rewrite (Hlive nb Hnbs).
    + intros [->|(nb & s & Hnb & Hs & Hcol & Hqs)]; [by left|right].
      rewrite get_go_string_grid in Hs.
      destruct (neighbor_string (self m) player point Hok Hinj Hgrid nb s Hnb Hs)
        as [(_ & Hin)|(Hne & _)]; [|done].
      by exists s.
  - intros q Hq. rewrite get_go_string_grid. by apply Hnew.
Qed.

End Placement.

(** ** The allocator and the store under the methods *)

Lemma grows_bind {A B} (c : M Mem A) (k : A → M Mem B) n m :
  grows n c m → (∀ a m1, (n ≤ next_addr m1)%nat → grows n (k a) m1) →
  grows n (bind c k) m.
Proof.
  unfold grows, wp, bind. intros Hc Hk. destruct (c m) as [a m1|e m1]; [|done].
  by apply Hk.
Qed.

Lemma grows_for_each {X} (body : X → M Mem unit) l n m :
  (n ≤ next_addr m)%nat →
  (∀ x m1, (n ≤ next_addr m1)%nat → grows n (body x) m1) →
  grows n (for_each l body) m.
Proof.
  intros Hm Hbody. revert m Hm. induction l as [|x l IH]; intros m Hm; [done|].
  rewrite for_each_cons. apply grows_bind; [by apply Hbody|].
  intros _ m1 Hm1. by apply IH.
Qed.

Lemma grows_lift {A} (t : Try A) n m : (n ≤ next_addr m)%nat → grows n (lift t) m.
Proof. intros Hm. by destruct t. Qed.

Lemma grows_new_object v n m :
  (n ≤ next_addr m)%nat → grows n (new_object v) m.
Proof. intros Hm. unfold grows, wp, new_object. simpl. lia. Qed.

Section Frames.

Context `{!Zobrist, !FrozensetOrder}.

Lemma grows_replace_string r n m :
  (n ≤ next_addr m)%nat → grows n (_replace_string r) m.
Proof. intros Hm. apply grows_for_each; [done|]. by intros p m1 Hm1. Qed.

Lemma grows_remove_string r n m :
  (n ≤ next_addr m)%nat → grows n (_remove_string r) m.
Proof.
  intros Hm. apply grows_for_each; [done|]. intros p m1 Hm1.
  apply grows_bind; [|intros _ m2 Hm2; apply grows_bind; [done|done]].
  apply grows_for_each; [done|]. intros nb m2 Hm2.
  apply grows_bind; [done|]. intros m3 m4 Hm4.
  destruct (grid_get (self m3) nb) as [ns|]; [|done].
  destruct (negb (is_ ns r)); [|done].
  apply grows_bind; [by apply grows_lift|]. intros v m5 Hm5.
  apply grows_bind; [by apply grows_new_object|]. intros r' m6 Hm6.
  by apply grows_replace_string.
Qed.

Lemma grows_reduce_liberties point r n m :
  (n ≤ next_addr m)%nat → grows n (reduce_liberties point r) m.
Proof.
  intros Hm. apply grows_bind; [by apply grows_new_object|]. intros x m1 Hm1.
  destruct (negb _).
  - apply grows_bind; [by apply grows_new_object|]. intros r' m2 Hm2.
    by apply grows_replace_string.
  - by apply grows_remove_string.
Qed.

Lemma grows_merge_all r same n m :
  (n ≤ next_addr m)%nat → grows n (merge_all r same) m.
Proof.
  revert r m. induction same as [|s same IH]; intros r m Hm; [done|].
  simpl. apply grows_bind; [by apply grows_lift|]. intros v m1 Hm1.
  apply grows_bind; [by apply grows_new_object|]. intros r' m2 Hm2.
  by apply IH.
Qed.

Lemma grows_place_stone player point m :
  grows (next_addr m) (place_stone player point) m.
Proof.
  unfold place_stone.
  apply grows_bind; [unfold grows, wp; simpl; lia|]. intros m0 m1 Hm1.
  apply grows_bind; [by destruct (is_on_grid _ _); unfold grows, wp; simpl|]. intros _ m2 Hm2.
  apply grows_bind; [by destruct (bool_decide _); unfold grows, wp; simpl|]. intros _ m3 Hm3.
  apply grows_bind; [by apply grows_new_object|]. intros r m4 Hm4.
  apply grows_bind; [by apply grows_merge_all|]. intros r' m5 Hm5.
  apply grows_bind; [by apply grows_for_each|]. intros _ m6 Hm6.
  apply grows_bind; [done|]. intros _ m7 Hm7.
  apply grows_for_each; [done|]. intros x m8 Hm8.
  by apply grows_reduce_liberties.
Qed.

Lemma extends_refl w : extends w w.
Proof. by split. Qed.

Lemma extends_trans w1 w2 w3 : extends w1 w2 → extends w2 w3 → extends w1 w3.
Proof. intros [H1 H1'] [H2 H2']. split; [by eauto|lia]. Qed.

Lemma final_bind {S A B} (c : M S A) (k : A → M S B) (s : S) :
  final_state (bind c k s)
  = match c s with
    | Returned a s' => final_state (k a s')
    | Raised _ s' => s'
    end.
Proof. unfold bind. by destruct (c s). Qed.

Lemma query_outcome {A} l (q : Board → A) w :
  query l q w = match boards w !! l with
                | Some b => Returned (q b) w
                | None => Raised DanglingReference w
                end.
Proof.
  destruct (boards w !! l) as [b|] eqn:Hl; [by apply query_live|].
  unfold query, on_board. by rewrite Hl.
Qed.

Lemma deepcopy_outcome l w :
  deepcopy l w
  = match boards w !! l with
    | Some b => Returned (fresh (dom (boards w)))
                  (mkWorld (<[fresh (dom (boards w)) := b]> (boards w))
                           (next_free w))
    | None => Raised DanglingReference w
    end.
Proof.
  destruct (boards w !! l) as [b|] eqn:Hl; [by apply deepcopy_live|].
  unfold deepcopy. by rewrite bind_run, query_outcome, Hl.
Qed.

Lemma on_board_place_outcome l b player point w :
  boards w !! l = Some b →
  on_board l (place_stone player point) w
  = match place_stone player point (mkMem b (next_free w)) with
    | Returned a m => Returned a (mkWorld (<[l := self m]> (boards w)) (next_addr m))
    | Raised e m => Raised e (mkWorld (<[l := self m]> (boards w)) (next_addr m))
    end.
Proof. intros Hl. unfold on_board. by rewrite Hl. Qed.

(** A placement on a board that was just copied leaves the older boards
    alone. *)
Lemma copy_place_extends l b player mv w :
  let l' := fresh (dom (boards w)) in
  boards w !! l = Some b →
  extends w (final_state (place_at l' player mv
                            (mkWorld (<[l' := b]> (boards w)) (next_free w)))).
Proof.
  intros l' Hl. split.
  - intros l0 b0 Hl0.
    assert (Hne : l0 ≠ l').
    { intros Heq. by apply (fresh_not_live w l0 b0 Hl0). }
    rewrite place_at_frame by done.
    simpl. by rewrite lookup_insert_ne.
  - unfold place_at. destruct (Move.point mv) as [point|]; [|done].
    rewrite (on_board_place_outcome l' b) by (simpl; by rewrite lookup_insert_eq).
    simpl. pose proof (grows_place_stone player point (mkMem b (next_free w))) as Hg.
    unfold grows, wp in Hg. by destruct (place_stone _ _ _).
Qed.

(** The copy-and-place prefix the three methods share. *)
Lemma trial_extends {A} l player mv (k : nat → M World A) w :
  (∀ nb w2, extends w w2 → extends w (final_state (k nb w2))) →
  extends w (final_state
               (bind (deepcopy l)
                     (fun nb => bind (place_at nb player mv) (fun _ => k nb)) w)).
Proof.
  intros Hk. rewrite final_bind, deepcopy_outcome.
  destruct (boards w !! l) as [b|] eqn:Hl; [|apply extends_refl].
  rewrite final_bind.
  pose proof (copy_place_extends l b player mv w Hl) as Hext. simpl in Hext.
  destruct (place_at _ _ _ _) as [[] w2|e w2]; [by apply Hk|done].
Qed.

Lemma is_move_self_capture_extends s player mv w :
  extends w (final_state (is_move_self_capture s player mv w)).
Proof.
  unfold is_move_self_capture.
  destruct (negb (Move.is_play mv)); [apply extends_refl|].
  apply trial_extends. intros nb w2 Hw2.
  rewrite final_bind, query_outcome.
  destruct (boards w2 !! nb) as [b2|]; [|done].
  by destruct (Move.point mv ≫= get_go_string b2).
Qed.

Lemma does_move_violate_ko_extends s player mv w :
  extends w (final_state (does_move_violate_ko s player mv w)).
Proof.
  unfold does_move_violate_ko.
  destruct (negb (Move.is_play mv)); [apply extends_refl|].
  apply trial_extends. intros nb w2 Hw2.
  rewrite final_bind, query_outcome.
  by destruct (boards w2 !! nb) as [b2|].
Qed.

Lemma is_valid_move_extends s mv w :
  extends w (final_state (is_valid_move s mv w)).
Proof.
  unfold is_valid_move. rewrite final_bind.
  destruct (is_over s) as [over|e]; [|apply extends_refl]. simpl.
  destruct over; [apply extends_refl|].
  destruct (Move.is_pass mv || Move.is_resign mv); [apply extends_refl|].
  rewrite final_bind, query_outcome.
  destruct (boards w !! board s) as [b|]; [|apply extends_refl].
  destruct (negb _); [apply extends_refl|].
  rewrite final_bind.
  pose proof (is_move_self_capture_extends s (next_player s) mv w) as Hsc.
  destruct (is_move_self_capture s (next_player s) mv w) as [sc w1|e w1];
    [|done].
  simpl in Hsc. destruct sc; [done|].
  rewrite final_bind.
  pose proof (does_move_violate_ko_extends s (next_player s) mv w1) as Hko.
  destruct (does_move_violate_ko s (next_player s) mv w1) as [ko w2|e w2];
    simpl in *; by eapply extends_trans.
Qed.

Lemma GameState_init_final l player prev mv w :
  final_state (GameState_init l player prev mv w) = w.
Proof.
  unfold GameState_init. destruct prev as [prev|]; [|done].
  rewrite final_bind, query_outcome. by destruct (boards w !! board prev).
Qed.

Lemma apply_move_extends s mv w :
  extends w (final_state (apply_move s mv w)).
Proof.
  unfold apply_move. destruct (Move.is_play mv).
  - rewrite final_bind.
    pose proof (trial_extends (board s) (next_player s) mv
                  (fun nb => ret nb) w) as Ht.
    destruct (bind (deepcopy (board s)) _ w) as [nb w2|e w2] eqn:Hrun.
    + rewrite GameState_init_final. apply Ht. by intros.
    + apply Ht. by intros.
  - rewrite final_bind. unfold ret. cbv beta iota.
    rewrite GameState_init_final. apply extends_refl.
Qed.

Lemma new_game_extends size w :
  extends w (final_state (new_game size w)).
Proof.
  unfold new_game. rewrite final_bind. simpl. split; [|done].
  intros l b Hl. simpl. rewrite lookup_insert_ne; [done|].
  by apply (fresh_not_live w l b).
Qed.

(** X10: a legality check works on a copy: whether [is_valid_move],
    [is_move_self_capture] or [does_move_violate_ko] returns or raises,
    every board that existed before the call holds afterwards what it held
    before. *)
Theorem legality_checks_keep_boards
    (s : GameState) (player : Player) (mv : Move.t) (w : World)
    (l : nat) (b : Board) :
  boards w !! l = Some b →
  boards (final_state (is_valid_move s mv w)) !! l = Some b ∧
  boards (final_state (is_move_self_capture s player mv w)) !! l = Some b ∧
  boards (final_state (does_move_violate_ko s player mv w)) !! l = Some b.
Proof.
  intros Hl. split; [|split].
  - by apply (is_valid_move_extends s mv w).
  - by apply (is_move_self_capture_extends s player mv w).
  - by apply (does_move_violate_ko_extends s player mv w).
Qed.

End Frames.

(** ** Legality of a play *)

Section Legality.

Context `{!Zobrist, !FrozensetOrder}.

Lemma play_move point mv :
  Move.play point = Value mv → mv = Move.mk (Some point) true false false.
Proof.
  unfold Move.play, Move.init. rewrite bool_decide_eq_true_2 by done.
  simpl. by intros [= <-].
Qed.

Lemma trial_run {A} l b player point (k : nat → M World A) w :
  boards w !! l = Some b →
  bind (deepcopy l)
       (fun nb => bind (place_at nb player (Move.mk (Some point) true false false))
                       (fun _ => k nb)) w
  = match place_stone player point (mkMem b (next_free w)) with
    | Returned _ m' => k (fresh (dom (boards w))) (trial_world w m')
    | Raised e m' => Raised e (trial_world w m')
    end.
Proof.
  intros Hl. rewrite bind_run, (deepcopy_live l w b Hl), bind_run.
  unfold place_at. simpl.
  rewrite (on_board_place_outcome _ b) by (simpl; by rewrite lookup_insert_eq).
  simpl. unfold trial_world.
  by destruct (place_stone _ _ _); simpl; rewrite insert_insert_eq.
Qed.

Lemma trial_world_copy w m' :
  boards (trial_world w m') !! fresh (dom (boards w)) = Some (self m').
Proof. unfold trial_world. simpl. by rewrite lookup_insert_eq. Qed.

Lemma is_move_self_capture_run s player point w b :
  boards w !! board s = Some b →
  is_move_self_capture s player (Move.mk (Some point) true false false) w
  = match place_stone player point (mkMem b (next_free w)) with
    | Returned _ m' =>
        match get_go_string (self m') point with
        | Some r => Returned (Nat.eqb (GoString.num_liberties (obj r)) 0)
                             (trial_world w m')
        | None => Raised AttributeError (trial_world w m')
        end
    | Raised e m' => Raised e (trial_world w m')
    end.
Proof.
  intros Hb. unfold is_move_self_capture. simpl.
  rewrite (trial_run (board s) b) by done.
  destruct (place_stone _ _ _) as [[] m'|e m']; [|done].
  rewrite bind_run, (query_live _ _ _ _ (trial_world_copy w m')). simpl.
  by destruct (get_go_string (self m') point).
Qed.

Lemma does_move_violate_ko_run s player point w b :
  boards w !! board s = Some b →
  does_move_violate_ko s player (Move.mk (Some point) true false false) w
  = match place_stone player point (mkMem b (next_free w)) with
    | Returned _ m' =>
        Returned (bool_decide ((other player, zobrist_hash (self m'))
                                 ∈ previous_states s))
                 (trial_world w m')
    | Raised e m' => Raised e (trial_world w m')
    end.
Proof.
  intros Hb. unfold does_move_violate_ko. simpl.
  rewrite (trial_run (board s) b) by done.
  destruct (place_stone _ _ _) as [[] m'|e m']; [|done].
  by rewrite bind_run, (query_live _ _ _ _ (trial_world_copy w m')).
Qed.

Lemma trial_world_keeps w m' l b :
  boards w !! l = Some b → boards (trial_world w m') !! l = Some b.
Proof.
  intros Hl. unfold trial_world. simpl. rewrite lookup_insert_ne; [done|].
  by apply (fresh_not_live w l b).
Qed.

(** What a returning placement on a reached board leaves at the played
    point and in the hash. *)
Lemma placed_result b n player point m' :
  strings_ok b → is_on_grid b point = true → grid_get b point = None →
  captures_nothing b player point →
  place_stone player point (mkMem b n) = Returned tt m' →
  zobrist_hash (self m') = Z.lxor (zobrist_hash b) (HASH_CODE point player) ∧
  ∃ a, get_go_string (self m') point
       = Some (mkRef a (placed_string b player point)).
Proof.
  intros Hok Hon Hfree Hcap Hret.
  destruct (place_stone_effect b n player point Hok Hon Hfree Hcap)
    as (a & m0 & Hret0 & _ & _ & Hh & Hnew & _).
  rewrite Hret in Hret0. injection Hret0 as <-.
  split; [done|]. exists a. rewrite get_go_string_grid.
  apply Hnew, point_in_placed_string.
Qed.

Variables (s : GameState) (w : World) (b : Board).
Hypothesis Hb : boards w !! board s = Some b.
Hypothesis Hreach : reachable_mem (mkMem b (next_free w)).

Lemma is_valid_move_play point :
  is_over s = Value false →
  let mv := Move.mk (Some point) true false false in
  let player := next_player s in
  (get b point ≠ None → is_valid_move s mv w = Returned false w) ∧
  (get b point = None → is_on_grid b point = false →
   ∃ w', is_valid_move s mv w = Raised AssertionError w') ∧
  (get b point = None → is_on_grid b point = true →
   ¬ captures_nothing b player point →
   ∃ w', is_valid_move s mv w = Raised AttributeError w') ∧
  (get b point = None → is_on_grid b point = true →
   captures_nothing b player point →
   ∃ w', is_valid_move s mv w
         = Returned
             (negb (Nat.eqb (GoString.num_liberties
                               (placed_string b player point)) 0)
              && negb (bool_decide
                         ((other player,
                           Z.lxor (zobrist_hash b) (HASH_CODE point player))
                            ∈ previous_states s)))
             w').
Proof using Hb Hreach.
  intros Hover mv player.
  destruct (reachable_mem_all _ Hreach) as (Hok & Hbelow & _). simpl in *.
  assert (Hstart : is_valid_move s mv w
    = if negb (bool_decide (get b point = None)) then Returned false w
      else match is_move_self_capture s player mv w with
           | Returned sc w1 =>
               if sc then Returned false w1
               else match does_move_violate_ko s player mv w1 with
                    | Returned ko w2 => Returned (negb ko) w2
                    | Raised e w2 => Raised e w2
                    end
           | Raised e w1 => Raised e w1
           end).
  { unfold is_valid_move. rewrite Hover, bind_run.
    change (lift (Value false) w) with (Returned (S:=World) false w).
    cbv beta iota.
    change (Move.is_pass mv || Move.is_resign mv) with false. cbv iota.
    rewrite bind_run, (query_live _ _ _ _ Hb).
    change (Move.point mv ≫= get b) with (get b point). cbv beta iota.
    destruct (negb (bool_decide (get b point = None))); [done|].
    rewrite bind_run. unfold player.
    destruct (is_move_self_capture s (next_player s) mv w) as [[] w1|e w1];
      [done| |done].
    by rewrite bind_run. }
  rewrite Hstart. clear Hstart. subst mv player.
  split; [|split; [|split]].
  - intros Hocc. by rewrite bool_decide_eq_false_2.
  - intros Hfree Hoff. rewrite bool_decide_eq_true_2 by done. cbn [negb].
    rewrite (is_move_self_capture_run s (next_player s) point w b Hb).
    rewrite place_stone_off_grid by done. by eexists.
  - intros Hfree Hon Hat. rewrite bool_decide_eq_true_2 by done. cbn [negb].
    rewrite (is_move_self_capture_run s (next_player s) point w b Hb).
    apply get_None in Hfree.
    destruct (place_stone_outcome _ (next_player s) point Hreach Hon Hfree) as [_ Hraise].
    destruct (Hraise Hat) as (m' & ->). by eexists.
  - intros Hfree Hon Hcap. rewrite bool_decide_eq_true_2 by done. cbn [negb].
    rewrite (is_move_self_capture_run s (next_player s) point w b Hb).
    apply get_None in Hfree.
    destruct (place_stone_returns b (next_free w) (next_player s) point Hon Hfree Hcap)
      as (m1 & Hret1).
    rewrite Hret1.
    destruct (placed_result b _ (next_player s) point m1 Hok Hon Hfree Hcap Hret1)
      as (_ & a1 & ->). cbn [obj].
    destruct (Nat.eqb _ 0); [by eexists|]. cbn [negb andb].
    rewrite (does_move_violate_ko_run s (next_player s) point _ b)
      by by apply trial_world_keeps.
    destruct (place_stone_returns b (next_free (trial_world w m1)) (next_player s) point
                Hon Hfree Hcap) as (m2 & Hret2).
    rewrite Hret2.
    destruct (placed_result b _ (next_player s) point m2 Hok Hon Hfree Hcap Hret2)
      as (-> & _).
    by eexists.
Qed.

(** X11: [is_valid_move] for a play while the game is not over, on a
    reached board: [False] on an occupied point; an [AssertionError] on a
    free point off the grid; an [AttributeError] when the stone would
    capture; otherwise [True] exactly when the new string has a liberty
    and the situation the move leads to is not in the history. *)
Theorem is_valid_move_outcome (point : Point) (mv : Move.t) :
  Move.play point = Value mv → is_over s = Value false →
  let player := next_player s in
  (get b point ≠ None → is_valid_move s mv w = Returned false w) ∧
  (get b point = None → is_on_grid b point = false →
   ∃ w', is_valid_move s mv w = Raised AssertionError w') ∧
  (get b point = None → is_on_grid b point = true →
   in_atari_next_to b player point →
   ∃ w', is_valid_move s mv w = Raised AttributeError w') ∧
  (get b point = None → is_on_grid b point = true →
   ¬ in_atari_next_to b player point →
   ∃ w', is_valid_move s mv w
         = Returned
             (negb (Nat.eqb (GoString.num_liberties
                               (placed_string b player point)) 0)
              && negb (bool_decide
                         ((other player,
                           Z.lxor (zobrist_hash b) (HASH_CODE point player))
                            ∈ previous_states s)))
             w').
Proof using Hb Hreach.
  intros Hmv Hover player. rewrite (play_move point mv Hmv).
  destruct (is_valid_move_play point Hover) as (Hocc & Hoff & Hat & Hplay).
  split; [done|]. split; [done|]. split.
  - intros Hfree Hon Hin. apply Hat; [done|done|].
    pose proof Hfree as Hfree'. apply get_None in Hfree'.
    pose proof (captures_nothing_iff _ player point Hreach Hon Hfree') as Hiff.
    simpl in Hiff. tauto.
  - intros Hfree Hon Hno. apply Hplay; [done|done|].
    pose proof Hfree as Hfree'. apply get_None in Hfree'.
    pose proof (captures_nothing_iff _ player point Hreach Hon Hfree') as Hiff.
    simpl in Hiff. tauto.
Qed.

Lemma is_valid_move_true_not_over mv w' :
  is_valid_move s mv w = Returned true w' → is_over s = Value false.
Proof using Type.
  unfold is_valid_move. rewrite bind_run.
  destruct (is_over s) as [[]|e]; simpl; [discriminate|done|discriminate].
Qed.

(** A play that [is_valid_move] accepts: where it is made, what it
    captures, and what the checks have found. *)
Lemma is_valid_move_true_play point w' :
  is_valid_move s (Move.mk (Some point) true false false) w = Returned true w' →
  is_on_grid b point = true ∧ grid_get b point = None ∧
  captures_nothing b (next_player s) point ∧
  GoString.num_liberties (placed_string b (next_player s) point) ≠ 0%nat ∧
  (other (next_player s),
   Z.lxor (zobrist_hash b) (HASH_CODE point (next_player s)))
    ∉ previous_states s.
Proof using Hb Hreach.
  intros Hvalid.
  pose proof (is_valid_move_true_not_over _ _ Hvalid) as Hover.
  destruct (is_valid_move_play point Hover) as (Hocc & Hoff & Hat & Hplay).
  destruct (decide (get b point = None)) as [Hfree|Hfull];
    [|rewrite (Hocc Hfull) in Hvalid; discriminate].
  destruct (is_on_grid b point) eqn:Hon;
    [|destruct (Hoff Hfree eq_refl) as (w1 & Hw1); congruence].
  pose proof Hfree as Hfree'. apply get_None in Hfree'.
  assert (Hdec : Decision (captures_nothing b (next_player s) point))
    by (unfold captures_nothing; apply _).
  destruct Hdec as [Hcap|Hncap];
    [|destruct (Hat Hfree eq_refl Hncap) as (w1 & Hw1); congruence].
  destruct (Hplay Hfree eq_refl Hcap) as (w1 & Hw1).
  rewrite Hw1 in Hvalid. injection Hvalid as Hval _.
  apply andb_true_iff in Hval as [Hlib Hko].
  apply negb_true_iff, Nat.eqb_neq in Hlib.
  apply negb_true_iff, bool_decide_eq_false in Hko. done.
Qed.

Lemma GameState_init_run l player mv w0 :
  boards w0 !! board s = Some b →
  GameState_init l player (Some s) mv w0
  = Returned (mkGameState l player (Some s)
                (previous_states s ∪ {[ (next_player s, zobrist_hash b) ]}) mv)
             w0.
Proof using Type.
  intros Hl. unfold GameState_init. by rewrite bind_run, (query_live _ _ _ _ Hl).
Qed.

(** X12: a move that [is_valid_move] has accepted can be applied
    afterwards: [apply_move] returns the next state, and for a play the
    new board holds at the played point a string of the mover with a
    liberty, in a situation that is not in the history. *)
Theorem valid_move_can_be_applied (mv : Move.t) (w' : World) :
  (∃ point, Move.play point = Value mv) ∨
  Move.pass_turn = Value mv ∨ Move.resign = Value mv →
  is_valid_move s mv w = Returned true w' →
  ∃ s' w'',
    apply_move s mv w' = Returned s' w'' ∧
    next_player s' = other (next_player s) ∧
    previous_state s' = Some s ∧ last_move s' = Some mv ∧
    ∀ point, Move.point mv = Some point →
      ∃ b' r, boards w'' !! board s' = Some b' ∧
              get_go_string b' point = Some r ∧
              GoString.color (obj r) = next_player s ∧
              GoString.num_liberties (obj r) ≠ 0%nat ∧
              (next_player s', zobrist_hash b') ∉ previous_states s.
Proof using Hb Hreach.
  intros Hmv Hvalid.
  pose proof (is_valid_move_extends s mv w) as [Hkeep _].
  rewrite Hvalid in Hkeep. simpl in Hkeep.
  pose proof (Hkeep _ _ Hb) as Hb'.
  destruct (reachable_mem_all _ Hreach) as (Hok & _). simpl in Hok.
  destruct Hmv as [(point & Hp)|Hp].
  - apply play_move in Hp as ->.
    destruct (is_valid_move_true_play point w' Hvalid)
      as (Hon & Hfree & Hcap & Hlib & Hko).
    destruct (place_stone_returns b (next_free w') (next_player s) point
                Hon Hfree Hcap) as (m2 & Hret2).
    destruct (placed_result b _ (next_player s) point m2 Hok Hon Hfree Hcap Hret2)
      as (Hhash & a & Hnew).
    unfold apply_move. cbn [Move.is_play]. rewrite bind_run.
    rewrite (trial_run (board s) b (next_player s) point (fun nb => ret nb) w' Hb').
    rewrite Hret2. unfold ret at 1. cbv beta iota.
    rewrite (GameState_init_run _ _ _ _ (trial_world_keeps w' m2 _ _ Hb')).
    eexists _, _. split; [reflexivity|]. cbn [next_player previous_state last_move board].
    split; [done|]. split; [done|]. split; [done|].
    intros point0 [= <-]. exists (self m2), (mkRef a (placed_string b (next_player s) point)).
    split; [apply trial_world_copy|]. split; [done|].
    split; [apply placed_string_color|]. split; [done|]. by rewrite Hhash.
  - assert (Hnone : Move.is_play mv = false ∧ Move.point mv = None).
    { destruct Hp as [Hp|Hp]; unfold Move.pass_turn, Move.resign, Move.init in Hp;
        simpl in Hp; by injection Hp as <-. }
    destruct Hnone as [Hplay Hpoint].
    unfold apply_move. rewrite Hplay, bind_run. unfold ret at 1. cbv beta iota.
    rewrite (GameState_init_run _ _ _ _ Hb').
    eexists _, _. split; [reflexivity|]. cbn [next_player previous_state last_move board].
    split; [done|]. split; [done|]. split; [done|].
    intros point0 Hp0. congruence.
Qed.

(** With every neighbor on the grid held by [color], the other color
    finds no liberty and no string of its own around the point. *)
Lemma eye_placed_no_liberties point color :
  is_point_an_eye b point color = true →
  GoString.liberties (placed_string b (other color) point) = ∅.
Proof using Hreach.
  intros Heye. apply is_point_an_eye_unfold in Heye as (_ & Hnb & _).
  destruct (reachable_mem_all _ Hreach) as (_ & _ & _ & Hgrid & _).
  simpl in Hgrid.
  assert (Hlibs : scan_liberties (scan b (other color) point) = []).
  { destruct (scan_liberties _) as [|x l] eqn:Hl; [done|]. exfalso.
    assert (Hx : x ∈ scan_liberties (scan b (other color) point))
      by (rewrite Hl; left).
    apply scan_liberties_sound in Hx as (Hx & Hon & Hfree).
    apply get_None in Hfree. by rewrite (Hnb x Hx Hon) in Hfree. }
  assert (Hsame : adjacent_same_color (scan b (other color) point) = []).
  { destruct (adjacent_same_color _) as [|r l] eqn:Hl; [done|]. exfalso.
    pose proof (scan_same_adjacent b (other color) point) as Hadj.
    destruct (scan_is_ok b (other color) point) as (Hcol & _).
    rewrite Hl in Hadj, Hcol.
    apply Forall_cons in Hadj as [(nb & Hx & Hr) _].
    apply Forall_cons in Hcol as [[Hc _] _].
    pose proof (Hnb nb Hx (Hgrid nb r Hr)) as Hget.
    rewrite (get_Some _ _ _ Hr), Hc in Hget. by destruct color. }
  unfold placed_string. by rewrite Hlibs, Hsame.
Qed.

(** X13: the opponent cannot play into an eye: when [is_point_an_eye]
    holds for a point and a color on a reached board, [is_valid_move]
    never returns [True] for a play of the other color at that point. *)
Theorem eye_is_closed_to_opponent
    (point : Point) (color : Player) (mv : Move.t) (w' : World) :
  is_point_an_eye b point color = true →
  next_player s = other color →
  Move.play point = Value mv →
  is_valid_move s mv w ≠ Returned true w'.
Proof using Hb Hreach.
  intros Heye Hnext Hmv Hvalid. apply play_move in Hmv as ->.
  destruct (is_valid_move_true_play point w' Hvalid)
    as (_ & _ & _ & Hlib & _).
  apply Hlib. unfold GoString.num_liberties.
  by rewrite Hnext, (eye_placed_no_liberties point color Heye), size_empty.
Qed.

End Legality.

(** ** The states of a game *)

Section Games.

Context `{!Zobrist, !FrozensetOrder}.

(** What a returning [apply_move] has built. *)
Lemma apply_move_returned s mv w s' w' :
  apply_move s mv w = Returned s' w' →
  ∃ b, boards w !! board s = Some b ∧ boards w' !! board s = Some b ∧
       extends w w' ∧
       (∃ b', boards w' !! board s' = Some b' ∧
              (reachable_mem (mkMem b (next_free w)) →
               reachable_mem (mkMem b' (next_free w')))) ∧
       s' = mkGameState (board s') (other (next_player s)) (Some s)
              (previous_states s ∪ {[ (next_player s, zobrist_hash b) ]})
              (Some mv).
Proof.
  intros Hret.
  pose proof (apply_move_extends s mv w) as Hext. rewrite Hret in Hext.
  simpl in Hext.
  unfold apply_move in Hret. rewrite bind_run in Hret.
  destruct (Move.is_play mv).
  - rewrite bind_run, deepcopy_outcome in Hret.
    destruct (boards w !! board s) as [b|] eqn:Hb; [|done].
    rewrite !bind_run in Hret.
    assert (Hplaced : ∀ w2,
      place_at (fresh (dom (boards w))) (next_player s) mv
        (mkWorld (<[fresh (dom (boards w)) := b]> (boards w)) (next_free w))
      = Returned tt w2 →
      ∃ b2, boards w2 !! fresh (dom (boards w)) = Some b2 ∧
            (reachable_mem (mkMem b (next_free w)) →
             reachable_mem (mkMem b2 (next_free w2)))).
    { intros w2 Hp. unfold place_at in Hp.
      destruct (Move.point mv) as [point|]; [|done].
      rewrite (on_board_place_outcome _ b) in Hp
        by (simpl; by rewrite lookup_insert_eq).
      simpl in Hp.
      destruct (place_stone _ point _) as [[] m'|e m'] eqn:Hps; [|done].
      injection Hp as <-. exists (self m'). simpl.
      split; [by rewrite lookup_insert_eq|]. intros Hr.
      apply (reachable_mem_place _ _ _ _ Hr) in Hps. by destruct m'. }
    destruct (place_at _ _ _ _) as [[] w2|e w2]; [|done].
    destruct (Hplaced w2 eq_refl) as (b2 & Hb2 & Hr2).
    unfold ret at 1 in Hret. cbv beta iota in Hret.
    exists b. split; [done|]. split; [by apply Hext|]. split; [done|].
    unfold GameState_init in Hret. rewrite bind_run, query_outcome in Hret.
    destruct (boards w2 !! board s) as [b0|] eqn:Hb0; [|done].
    injection Hret as <- <-. simpl.
    assert (b0 = b) as ->.
    { destruct Hext as [Hkeep _]. pose proof (Hkeep _ _ Hb). congruence. }
    split; [by exists b2|done].
  - unfold ret at 1 in Hret. cbv beta iota in Hret.
    unfold GameState_init in Hret. rewrite bind_run, query_outcome in Hret.
    destruct (boards w !! board s) as [b|] eqn:Hb; [|done].
    injection Hret as <- <-. exists b. simpl. split; [done|]. split; [done|].
    split; [apply extends_refl|]. split; [by exists b|done].
Qed.

Lemma reachable_mem_le b n n' :
  reachable_mem (mkMem b n) → (n ≤ n')%nat → reachable_mem (mkMem b n').
Proof.
  intros Hr Hle. replace n' with (n + (n' - n))%nat by lia.
  apply (reachable_mem_alloc (mkMem b n) _ Hr).
Qed.

(** A board of [w] that is reached is reached in a store that extends
    [w]. *)
Lemma reached_extends w w' l :
  extends w w' →
  (∃ b, boards w !! l = Some b ∧ reachable_mem (mkMem b (next_free w))) →
  ∃ b, boards w' !! l = Some b ∧ reachable_mem (mkMem b (next_free w')).
Proof.
  intros [Hkeep Hle] (b & Hb & Hr). exists b. split; [by apply Hkeep|].
  by apply (reachable_mem_le b (next_free w)).
Qed.

(** X14: [is_over] never raises on a state [apply_move] or [new_game] has
    returned: after [apply_move] the game is over exactly when the move is
    a resignation, or a pass that follows a pass; after [new_game] it is
    not over. *)
Theorem is_over_after_apply_move
    (s : GameState) (mv : Move.t) (w : World) (s' : GameState) (w' : World) :
  apply_move s mv w = Returned s' w' →
  is_over s'
  = Value (Move.is_resign mv
           || (Move.is_pass mv && from_option Move.is_pass false (last_move s))) ∧
  ∀ size w0 root w1,
    new_game size w0 = Returned root w1 → is_over root = Value false.
Proof.
  intros Hret. split.
  - destruct (apply_move_returned s mv w s' w' Hret) as (b & _ & _ & _ & _ & ->).
    unfold is_over. simpl. destruct (Move.is_resign mv); [done|]. simpl.
    destruct (last_move s) as [m2|]; simpl; [done|].
    by rewrite andb_false_r.
  - intros size w0 root w1 Hnew. unfold new_game in Hnew.
    rewrite bind_run in Hnew. simpl in Hnew. by injection Hnew as <- _.
Qed.

Lemma board_in_live w s b : boards w !! board s = Some b → board_in w s = b.
Proof. unfold board_in. by intros ->. Qed.

Lemma hashed_situation_extends w w' s b :
  boards w !! board s = Some b → extends w w' →
  hashed_situation w' s = hashed_situation w s.
Proof.
  intros Hb [Hkeep _]. unfold hashed_situation.
  by rewrite (board_in_live w s b Hb), (board_in_live w' s b (Hkeep _ _ Hb)).
Qed.

Lemma game_history w s :
  game w s →
  Forall (fun a => ∃ b, boards w !! board a = Some b ∧
                        reachable_mem (mkMem b (next_free w)))
         (s :: ancestors s) ∧
  previous_states s = list_to_set (hashed_situation w <$> ancestors s).
Proof.
  induction 1 as [size w0 s w Hnew|s mv w s' w' Hgame IH Hret|w s w' Hgame IH Hext].
  - unfold new_game in Hnew. rewrite bind_run in Hnew. simpl in Hnew.
    injection Hnew as <- <-. simpl. split; [|done].
    apply Forall_singleton. eexists. rewrite lookup_insert_eq.
    split; [done|]. apply reachable_mem_init.
  - destruct IH as [Hlive Hprev].
    destruct (apply_move_returned s mv w s' w' Hret)
      as (b & Hb & Hb' & Hext & (b' & Hnew & Hreach) & Hs').
    assert (Hold : Forall (fun a => ∃ b, boards w' !! board a = Some b ∧
                                         reachable_mem (mkMem b (next_free w')))
                          (s :: ancestors s)).
    { eapply Forall_impl; [exact Hlive|]. intros a Ha.
      by apply (reached_extends w w'). }
    assert (Hanc : ancestors s' = s :: ancestors s) by by rewrite Hs'.
    rewrite Hanc. split.
    + apply Forall_cons. split; [|done]. exists b'. split; [done|].
      apply Hreach. apply Forall_cons in Hlive as [(b0 & Hb0 & Hr0) _].
      congruence.
    + rewrite Hs'. cbn [previous_states]. rewrite fmap_cons, list_to_set_cons.
      unfold hashed_situation at 1. rewrite (board_in_live w' s b Hb').
      rewrite Hprev, (comm_L (∪)). f_equal. f_equal.
      apply Forall_fmap_ext. apply Forall_cons in Hlive as [_ Hlive].
      eapply Forall_impl; [exact Hlive|]. intros a (ba & Hba & _). simpl.
      by rewrite (hashed_situation_extends w w' a ba).
  - destruct IH as [Hlive Hprev]. split.
    + eapply Forall_impl; [exact Hlive|]. intros a Ha.
      by apply (reached_extends w w').
    + rewrite Hprev. f_equal.
      apply Forall_fmap_ext. apply Forall_cons in Hlive as [_ Hlive].
      eapply Forall_impl; [exact Hlive|]. intros a (ba & Hba & _). simpl.
      by rewrite (hashed_situation_extends w w' a ba).
Qed.

(** X16: the board of every state of a game, the earlier states
    included, is in the store and is a board the program reaches from an
    empty board by calls of [place_stone] that return. *)
Theorem game_boards_are_reached (w : World) (s a : GameState) :
  game w s → a = s ∨ a ∈ ancestors s →
  ∃ b, boards w !! board a = Some b ∧
       reachable_mem (mkMem b (next_free w)) ∧
       query (board a) (fun b => b) w = Returned b w.
Proof.
  intros Hgame Ha. destruct (game_history w s Hgame) as [Hlive _].
  rewrite Forall_forall in Hlive.
  destruct (Hlive a) as (b & Hb & Hr).
  { destruct Ha as [->|Ha]; [left|by right]. }
  exists b. split; [done|]. split; [done|].
  exact (query_live (board a) (fun b => b) w b Hb).
Qed.

(** X15: in every state of a game, [previous_states] holds exactly the
    situations of the states before it: for each earlier state, its
    player to move with the hash its board has now, as the boards of
    earlier states are never written again. *)
Theorem history_is_all_situations (w : World) (s : GameState) :
  game w s →
  ∀ x, x ∈ previous_states s ↔
       ∃ a b, a ∈ ancestors s ∧ boards w !! board a = Some b ∧
              x = (next_player a, zobrist_hash b).
Proof.
  intros Hgame x. destruct (game_history w s Hgame) as [Hlive Hprev].
  apply Forall_cons in Hlive as [_ Hlive]. rewrite Forall_forall in Hlive.
  rewrite Hprev, elem_of_list_to_set, list_elem_of_fmap. split.
  - intros (a & -> & Ha). destruct (Hlive a Ha) as (ba & Hba & _).
    exists a, ba. split; [done|]. split; [done|].
    unfold hashed_situation. by rewrite (board_in_live w a ba Hba).
  - intros (a & ba & Ha & Hba & ->). exists a. split; [|done].
    unfold hashed_situation. by rewrite (board_in_live w a ba Hba).
Qed.

End Games.

(** ** GoString and Move values *)

Ltac by_elements :=
  apply set_eq; intros ?;
  repeat (rewrite elem_of_difference || rewrite elem_of_union
          || rewrite elem_of_singleton);
  tauto.

(** X17: the result of merging does not depend on the order: merging is
    commutative and associative, an [AssertionError] on a color mismatch
    included, so the merge loop of [place_stone] builds the same string
    for every order of the neighbor strings. *)
Theorem merged_with_order_free (a b c : GoString.t) :
  GoString.merged_with a b = GoString.merged_with b a ∧
  (GoString.merged_with a b ≫= fun ab => GoString.merged_with ab c)
  = (GoString.merged_with b c ≫= fun bc => GoString.merged_with a bc).
Proof.
  unfold GoString.merged_with, GoString.init. split.
  - destruct (decide (GoString.color b = GoString.color a)) as [Heq|Hne].
    + rewrite !bool_decide_eq_true_2 by done. rewrite Heq.
      f_equal. f_equal; by_elements.
    + by rewrite !bool_decide_eq_false_2 by done.
  - destruct (decide (GoString.color b = GoString.color a)) as [Hba|Hba];
      destruct (decide (GoString.color c = GoString.color b)) as [Hcb|Hcb].
    + rewrite (bool_decide_eq_true_2 _ Hba), (bool_decide_eq_true_2 _ Hcb).
      simpl. rewrite !bool_decide_eq_true_2 by congruence.
      f_equal. f_equal; by_elements.
    + rewrite (bool_decide_eq_true_2 _ Hba), (bool_decide_eq_false_2 _ Hcb).
      simpl. by rewrite bool_decide_eq_false_2 by congruence.
    + rewrite (bool_decide_eq_false_2 _ Hba), (bool_decide_eq_true_2 _ Hcb).
      simpl. by rewrite bool_decide_eq_false_2 by congruence.
    + by rewrite (bool_decide_eq_false_2 _ Hba), (bool_decide_eq_false_2 _ Hcb).
Qed.

(** X18: [without_liberty] keeps color and stones, removes the point from
    the liberties and nothing else, lowers [num_liberties] by one when
    the point was a liberty and leaves it otherwise, and a second call
    changes nothing. *)
Theorem without_liberty_spec (v : GoString.t) (point : Point) :
  let v' := GoString.without_liberty v point in
  GoString.color v' = GoString.color v ∧
  GoString.stones v' = GoString.stones v ∧
  (∀ q, q ∈ GoString.liberties v' ↔ q ∈ GoString.liberties v ∧ q ≠ point) ∧
  GoString.num_liberties v'
  = (if decide (point ∈ GoString.liberties v)
     then GoString.num_liberties v - 1 else GoString.num_liberties v)%nat ∧
  GoString.without_liberty v' point = v'.
Proof.
  unfold GoString.without_liberty, GoString.init, GoString.num_liberties.
  simpl. split; [done|]. split; [done|]. split; [|split].
  - intros q. by rewrite elem_of_difference, elem_of_singleton.
  - destruct (decide (point ∈ GoString.liberties v)) as [Hin|Hout].
    + rewrite size_difference by by apply singleton_subseteq_l.
      by rewrite size_singleton.
    + f_equal. apply set_eq. intros q.
      rewrite elem_of_difference, elem_of_singleton. split; [tauto|].
      intros Hq. split; [done|]. by intros ->.
  - f_equal. by_elements.
Qed.

(** X19: [Move.__init__] succeeds exactly when an odd number of the three
    variants is requested, one or all three, and otherwise raises an
    [AssertionError]; the move it builds is a play exactly when it has a
    point. *)
Theorem Move_init_iff (point : option Point) (is_pass is_resign : bool) :
  (Nat.odd (Move.requested point is_pass is_resign) = true →
   Move.init point is_pass is_resign
   = Value (Move.mk point (bool_decide (point ≠ None)) is_pass is_resign)) ∧
  (Nat.odd (Move.requested point is_pass is_resign) = false →
   Move.init point is_pass is_resign = Fails AssertionError) ∧
  ∀ m, Move.init point is_pass is_resign = Value m →
       (Move.is_play m = true ↔ ∃ p, Move.point m = Some p) ∧
       (Move.selected m = 1 ∨ Move.selected m = 3)%nat.
Proof.
  split; [|split].
  - unfold Move.init, Move.requested.
    by destruct point, is_pass, is_resign.
  - unfold Move.init, Move.requested.
    by destruct point, is_pass, is_resign.
  - intros m Hm. unfold Move.init in Hm. unfold Move.selected.
    destruct point as [p|], is_pass, is_resign; simpl in Hm;
      try discriminate; injection Hm as <-; simpl.
    all: split; [split; [eauto; discriminate|done || (intros [? ?]; done)]|auto].
    all: discriminate.
Qed.

(** ** Ko and removal *)

Section Ko.

Context `{!Zobrist, !FrozensetOrder}.

(** X20: in a game, for a play on a free point of the grid that captures
    nothing, [does_move_violate_ko] returns, and returns [True] exactly
    when some earlier state of the game had the opponent to move on a
    board whose hash is the hash of the position the play leads to. *)
Theorem ko_is_repetition
    (w : World) (s : GameState) (b : Board)
    (player : Player) (point : Point) (mv : Move.t) :
  game w s → boards w !! board s = Some b →
  Move.play point = Value mv →
  is_on_grid b point = true → get b point = None →
  ¬ in_atari_next_to b player point →
  ∃ ko w',
    does_move_violate_ko s player mv w = Returned ko w' ∧
    (ko = true ↔
     ∃ a ba, a ∈ ancestors s ∧ boards w !! board a = Some ba ∧
             next_player a = other player ∧
             zobrist_hash ba
             = Z.lxor (zobrist_hash b) (HASH_CODE point player)).
Proof.
  intros Hgame Hb Hmv Hon Hfree Hno. apply play_move in Hmv as ->.
  destruct (game_history w s Hgame) as [Hlive Hprev].
  apply Forall_cons in Hlive as [(b0 & Hb0 & Hreach) Hlive].
  assert (b0 = b) as -> by congruence.
  rewrite Forall_forall in Hlive.
  destruct (reachable_mem_all _ Hreach) as (Hok & _). simpl in Hok.
  apply get_None in Hfree.
  assert (Hcap : captures_nothing b player point).
  { pose proof (captures_nothing_iff _ player point Hreach Hon Hfree) as Hiff.
    simpl in Hiff. tauto. }
  destruct (place_stone_returns b (next_free w) player point Hon Hfree Hcap)
    as (m' & Hret).
  destruct (placed_result b _ player point m' Hok Hon Hfree Hcap Hret)
    as (Hhash & _).
  rewrite (does_move_violate_ko_run s player point w b Hb), Hret, Hhash.
  eexists _, _. split; [reflexivity|].
  rewrite bool_decide_eq_true, Hprev, elem_of_list_to_set, list_elem_of_fmap.
  split.
  - intros (a & Heq & Ha). destruct (Hlive a Ha) as (ba & Hba & _).
    unfold hashed_situation in Heq. rewrite (board_in_live w a ba Hba) in Heq.
    injection Heq as Hp Hh. by exists a, ba.
  - intros (a & ba & Ha & Hba & Hp & Hh). exists a. split; [|done].
    unfold hashed_situation. by rewrite (board_in_live w a ba Hba), Hp, Hh.
Qed.

End Ko.

Section Removal.

Context `{!Zobrist, !FrozensetOrder}.

Lemma remove_neighbors_returns (string : Ref) (point : Point) nbs (m : Mem) :
  (∀ nb x, nb ∈ nbs → grid_get (self m) nb = Some x → is_ x string = true) →
  for_each nbs (fun neighbor =>
    bind get_state (fun m : Mem =>
      match grid_get (self m) neighbor with
      | None => ret tt
      | Some neighbor_string =>
          if negb (is_ neighbor_string string) then
            bind (lift (GoString.with_liberty (obj neighbor_string) point))
              (fun v => bind (new_object v) (fun r => _replace_string r))
          else ret tt
      end)) m = Returned tt m.
Proof.
  induction nbs as [|nb nbs IH]; intros Hall; [done|].
  rewrite for_each_cons, bind_run, bind_run. unfold get_state at 1.
  cbv beta iota.
  destruct (grid_get (self m) nb) as [x|] eqn:Hx.
  - rewrite (Hall nb x) by (done || left). cbn [negb]. unfold ret at 1.
    cbv beta iota. apply IH. intros nb' x' Hnb'. apply Hall. by right.
  - unfold ret at 1. cbv beta iota. apply IH. intros nb' x' Hnb'.
    apply Hall. by right.
Qed.

(** X21: [_remove_string] on a string that is stored at each of its
    stones: when no stone of the string has a neighbor holding another
    object, it returns, having cleared exactly the stones of the string,
    allocated nothing and kept the hash right; when some stone has such a
    neighbor, it raises an [AttributeError]. *)
Theorem remove_string_outcome (r : Ref) (m : Mem) :
  live (self m) r →
  ((∀ p nb x, p ∈ GoString.stones (obj r) → nb ∈ neighbors p →
              grid_get (self m) nb = Some x → is_ x r = true) →
   ∃ m', _remove_string r m = Returned tt m' ∧
         (∀ q, get_go_string (self m') q
               = if decide (q ∈ GoString.stones (obj r)) then None
                 else get_go_string (self m) q) ∧
         next_addr m' = next_addr m ∧
         (hash_ok (self m) → hash_ok (self m'))) ∧
  ((∃ p nb x, p ∈ GoString.stones (obj r) ∧ nb ∈ neighbors p ∧
              grid_get (self m) nb = Some x ∧ is_ x r = false) →
   ∃ m', _remove_string r m = Raised AttributeError m').
Proof.
  intros Hlive. split.
  - intros Hiso.
    assert (Hwp : wp (_remove_string r)
              (fun _ m' => remove_inv (hash_ok (self m)) r (self m) [] m' ∧
                           next_addr m' = next_addr m)
              (fun _ _ => False) m).
    { unfold _remove_string.
      apply (wp_for_each _ (fun l m' => remove_inv (hash_ok (self m)) r (self m) l m' ∧
                                        next_addr m' = next_addr m)).
      { split; [|done]. split; [|split; [|split; [|split]]].
        - apply NoDup_set_iter.
        - intros p. by rewrite elem_of_set_iter.
        - intros q Hq Hnq. exfalso. apply Hnq. by apply elem_of_set_iter.
        - done.
        - done. }
      intros p rest m1 ((Hnd & Hsub & Hclr & Hsame & Hh) & Haddr).
      apply NoDup_cons in Hnd as [Hp Hnd].
      assert (Hpr : p ∈ GoString.stones (obj r)) by (apply Hsub; left).
      assert (Hgp : grid_get (self m1) p = Some r).
      { rewrite Hsame by (right; left). by apply Hlive. }
      unfold wp. rewrite bind_run.
      rewrite (remove_neighbors_returns r p (neighbors p) m1).
      2:{ intros nb x Hnb Hx. apply (Hiso p nb x Hpr Hnb).
          destruct (decide (nb ∈ GoString.stones (obj r))) as [Hin|Hout].
          - destruct (decide (nb ∈ p :: rest)) as [Hin'|Hout'].
            + by rewrite <- (Hsame nb (or_intror Hin')).
            + by rewrite (Hclr nb Hin Hout') in Hx.
          - by rewrite <- (Hsame nb (or_introl Hout)). }
      unfold bind, grid_set, hash_xor, modify. simpl.
      split; [|done].
      split; [|split; [|split; [|split]]]; simpl.
      + done.
      + intros q Hq. apply Hsub. by right.
      + intros q Hq Hnq. rewrite grid_get_insert.
        destruct (decide (q = p)) as [->|Hne]; [done|].
        apply Hclr; [done|]. intros [?|?]%elem_of_cons; done.
      + intros q Hq. rewrite grid_get_insert.
        destruct (decide (q = p)) as [->|Hne].
        * exfalso. destruct Hq; done.
        * apply Hsame. destruct Hq as [?|?]; [by left|right; by right].
      + intros HHb. specialize (Hh HHb). unfold hash_ok, zobrist_hash in *. simpl.
        rewrite Hh. symmetry.
        apply position_hash_delete.
        * by rewrite get_of_grid_get, Hgp.
        * intros q. rewrite !get_of_grid_get, grid_get_insert.
          by destruct (decide (q = p)). }
    unfold wp in Hwp. destruct (_remove_string r m) as [[] m'|e m']; [|done].
    destruct Hwp as ((_ & _ & Hclr & Hsame & Hh) & Haddr).
    exists m'. split; [done|]. split; [|done].
    intros q. rewrite !get_go_string_grid.
    destruct (decide (q ∈ GoString.stones (obj r))) as [Hin|Hout].
    + apply Hclr; [done|]. by intros ?%elem_of_nil.
    + apply Hsame. by left.
  - intros (p & nb & x & Hp & Hnb & Hx & His).
    apply (remove_string_raises r m nb p x Hp Hnb); [|done|done].
    intros Hin. rewrite (Hlive nb Hin) in Hx. injection Hx as <-.
    unfold is_ in His. by rewrite bool_decide_eq_true_2 in His.
Qed.

End Removal.

(** ** Replacement and self-capture *)

Section SelfCapture.

Context `{!Zobrist, !FrozensetOrder}.

(** X22: [_replace_string] always returns; afterwards [get_go_string]
    gives the new object at each of its stones and what it gave before
    at every other point, and size, hash and allocator are unchanged. *)
Theorem replace_string_spec (r : Ref) (m : Mem) :
  ∃ m', _replace_string r m = Returned tt m' ∧
        (∀ q, get_go_string (self m') q
              = if decide (q ∈ GoString.stones (obj r)) then Some r
                else get_go_string (self m) q) ∧
        num_rows (self m') = num_rows (self m) ∧
        num_cols (self m') = num_cols (self m) ∧
        zobrist_hash (self m') = zobrist_hash (self m) ∧
        next_addr m' = next_addr m.
Proof.
  unfold _replace_string.
  destruct (write_all_spec (set_iter (GoString.stones (obj r))) (Some r) m)
    as (b' & -> & Hrows & Hcols & Hhash & Hgrid).
  eexists. split; [reflexivity|]. simpl.
  split; [|done]. intros q. rewrite !get_go_string_grid, Hgrid.
  destruct (decide (q ∈ set_iter (GoString.stones (obj r)))) as [Hin|Hout];
    rewrite elem_of_set_iter in *.
  - by rewrite decide_True.
  - by rewrite decide_False.
Qed.

(** X23: for a play on a free point of the grid of a reached board that
    captures nothing, [is_move_self_capture] returns, and returns [False]
    exactly when some other free point of the grid is next to the played
    point or next to a stone of a same-color string next to it. *)
Theorem self_capture_iff
    (s : GameState) (w : World) (b : Board)
    (player : Player) (point : Point) (mv : Move.t) :
  boards w !! board s = Some b →
  reachable_mem (mkMem b (next_free w)) →
  Move.play point = Value mv →
  is_on_grid b point = true → get b point = None →
  ¬ in_atari_next_to b player point →
  ∃ sc w',
    is_move_self_capture s player mv w = Returned sc w' ∧
    (sc = false ↔
     ∃ x, is_on_grid b x = true ∧ get b x = None ∧ x ≠ point ∧
          (x ∈ neighbors point ∨
           ∃ nb r st, nb ∈ neighbors point ∧ get_go_string b nb = Some r ∧
                      GoString.color (obj r) = player ∧
                      st ∈ GoString.stones (obj r) ∧ x ∈ neighbors st)).
Proof.
  intros Hb Hreach Hmv Hon Hfree Hno. apply play_move in Hmv as ->.
  destruct (reachable_mem_all _ Hreach) as (Hok & _ & Hinj & Hgrid & Hlib & _).
  simpl in *. apply get_None in Hfree.
  assert (Hcap : captures_nothing b player point).
  { pose proof (captures_nothing_iff _ player point Hreach Hon Hfree) as Hiff.
    simpl in Hiff. tauto. }
  destruct (place_stone_returns b (next_free w) player point Hon Hfree Hcap)
    as (m' & Hret).
  destruct (placed_result b _ player point m' Hok Hon Hfree Hcap Hret)
    as (_ & a & Hnew).
  rewrite (is_move_self_capture_run s player point w b Hb), Hret, Hnew.
  eexists _, _. split; [reflexivity|]. cbn [obj].
  rewrite Nat.eqb_neq. unfold GoString.num_liberties. split.
  - intros Hpos.
    destruct (size_pos_elem_of (GoString.liberties (placed_string b player point)))
      as (x & Hx); [lia|].
    apply (liberties_placed b player point Hgrid) in Hx as [Hx Hnot].
    assert (Hne : x ≠ point)
      by (intros ->; apply Hnot, point_in_placed_string).
    exists x. destruct Hx as [(Hnb & Hxon & Hxfree)|(t & Ht & Hxt)].
    + split; [done|]. split; [by apply get_None|]. split; [done|]. by left.
    + destruct (same_facts b player point Hok t Ht)
        as (Hcol & Hlive & nb & Hnb & Hnbt).
      apply (Hlib nb t (Hlive nb Hnbt)) in Hxt as (Hxon & Hxfree & st & Hst & Hadj).
      split; [done|]. split; [by apply get_None|]. split; [done|]. right.
      exists nb, t, st. rewrite get_go_string_grid. by rewrite (Hlive nb Hnbt).
  - intros (x & Hxon & Hxfree & Hne & Hx). apply get_None in Hxfree.
    assert (Hin : x ∈ GoString.liberties (placed_string b player point)).
    { apply (liberties_placed b player point Hgrid). split.
      - destruct Hx as [Hnb|(nb & r & st & Hnb & Hr & Hcol & Hst & Hadj)];
          [by left|right].
        rewrite get_go_string_grid in Hr.
        destruct (neighbor_string b player point Hok Hinj Hgrid nb r Hnb Hr)
          as [(_ & Hsame)|(Hne' & _)]; [|done].
        exists r. split; [done|]. apply (Hlib nb r Hr).
        split; [done|]. split; [done|]. by exists st.
      - intros Hs. by apply Hne, (placed_stone_not_free b player point Hok). }
    intros Hzero. apply size_empty_inv in Hzero.
    apply (proj1 (elem_of_equiv_empty _) Hzero x Hin).
Qed.

End SelfCapture.

(** ** The properties at concrete positions *)

Lemma demo_atari_reached : @reachable_mem demo_zobrist demo_order demo_atari_mem.
Proof.
  apply (@reachable_mem_place_all demo_zobrist demo_order
           demo_atari_moves demo_fresh demo_atari_mem).
  - apply reachable_mem_init.
  - vm_compute. reflexivity.
Qed.

Lemma demo_atari_black_stored :
  get_go_string (self demo_atari_mem) (mkPoint 3 3) = Some demo_atari_black.
Proof. vm_compute. reflexivity. Qed.

Lemma demo_extend_returned :
  @place_stone demo_zobrist demo_order black (mkPoint 3 4) demo_atari_mem
  = Returned tt demo_extend_mem.
Proof. vm_compute. reflexivity. Qed.

Lemma is_point_an_eye_off_board_witness :
  get (@Board_init demo_zobrist 5 5) (mkPoint 100 100) = None ∧
  is_point_an_eye (@Board_init demo_zobrist 5 5) (mkPoint 100 100) black = true.
Proof.
  split; [reflexivity|].
  apply is_point_an_eye_off_board; [reflexivity|].
  right. left. simpl. lia.
Defined.

Lemma reached_liberties_exact_witness :
  @reachable_mem demo_zobrist demo_order demo_atari_mem ∧
  get_go_string (self demo_atari_mem) (mkPoint 3 3) = Some demo_atari_black ∧
  GoString.liberties (obj demo_atari_black) = {[ mkPoint 3 4 ]} ∧
  ∀ q, q ∈ GoString.liberties (obj demo_atari_black) ↔
       is_on_grid (self demo_atari_mem) q = true ∧
       get (self demo_atari_mem) q = None ∧
       ∃ s, s ∈ GoString.stones (obj demo_atari_black) ∧ q ∈ neighbors s.
Proof.
  split; [exact demo_atari_reached|]. split; [exact demo_atari_black_stored|].
  split; [vm_compute; reflexivity|].
  pose proof (@reached_liberties_exact demo_zobrist demo_order demo_atari_mem
                (mkPoint 3 3) demo_atari_black) as Hthm.
  specialize (Hthm demo_atari_reached demo_atari_black_stored).
  exact Hthm.
Defined.

Lemma reached_string_is_component_witness :
  @reachable_mem demo_zobrist demo_order demo_atari_mem ∧
  get_go_string (self demo_atari_mem) (mkPoint 3 3) = Some demo_atari_black ∧
  ∀ q, q ∈ GoString.stones (obj demo_atari_black) ↔
       rtc (same_color_step (self demo_atari_mem)) (mkPoint 3 3) q.
Proof.
  split; [exact demo_atari_reached|]. split; [exact demo_atari_black_stored|].
  pose proof (@reached_string_is_component demo_zobrist demo_order demo_atari_mem
                (mkPoint 3 3) demo_atari_black) as Hthm.
  specialize (Hthm demo_atari_reached demo_atari_black_stored).
  exact Hthm.
Defined.

Lemma reached_grid_consistent_witness :
  @reachable_mem demo_zobrist demo_order demo_atari_mem ∧
  get_go_string (self demo_atari_mem) (mkPoint 3 3) = Some demo_atari_black ∧
  is_on_grid (self demo_atari_mem) (mkPoint 3 3) = true ∧
  get (self demo_atari_mem) (mkPoint 3 3) = Some black ∧
  (∀ q, get_go_string (self demo_atari_mem) q = Some demo_atari_black ↔
        q ∈ GoString.stones (obj demo_atari_black)).
Proof.
  split; [exact demo_atari_reached|]. split; [exact demo_atari_black_stored|].
  pose proof (@reached_grid_consistent demo_zobrist demo_order demo_atari_mem
                (mkPoint 3 3) demo_atari_black) as Hthm.
  specialize (Hthm demo_atari_reached demo_atari_black_stored).
  destruct Hthm as (Hon & Hget & Hall & _).
  split; [exact Hon|]. split; [exact Hget|]. exact Hall.
Defined.

Lemma place_stone_trichotomy_witness :
  @reachable_mem demo_zobrist demo_order demo_atari_mem ∧
  is_on_grid (self demo_atari_mem) (mkPoint 3 4) = true ∧
  get (self demo_atari_mem) (mkPoint 3 4) = None ∧
  in_atari_next_to (self demo_atari_mem) white (mkPoint 3 4) ∧
  (∃ m', @place_stone demo_zobrist demo_order white (mkPoint 3 4) demo_atari_mem
         = Raised AttributeError m') ∧
  @place_stone demo_zobrist demo_order white (mkPoint 3 3) demo_atari_mem
  = Raised AssertionError demo_atari_mem.
Proof.
  assert (Hon : is_on_grid (self demo_atari_mem) (mkPoint 3 4) = true)
    by (vm_compute; reflexivity).
  assert (Hfree : get (self demo_atari_mem) (mkPoint 3 4) = None)
    by (vm_compute; reflexivity).
  assert (Hocc : get (self demo_atari_mem) (mkPoint 3 3) ≠ None)
    by (vm_compute; discriminate).
  assert (Hat : in_atari_next_to (self demo_atari_mem) white (mkPoint 3 4)).
  { exists (mkPoint 3 3), demo_atari_black.
    split; [refine (bool_decide_unpack _ _); vm_compute; exact I|].
    split; [exact demo_atari_black_stored|].
    split; [vm_compute; discriminate|vm_compute; reflexivity]. }
  pose proof (@place_stone_trichotomy demo_zobrist demo_order demo_atari_mem
                white (mkPoint 3 4)) as Hthm.
  specialize (Hthm demo_atari_reached). destruct Hthm as [_ Hthm].
  specialize (Hthm Hon Hfree). destruct Hthm as [Hraise _].
  pose proof (@place_stone_trichotomy demo_zobrist demo_order demo_atari_mem
                white (mkPoint 3 3)) as Hthm'.
  specialize (Hthm' demo_atari_reached). destruct Hthm' as [Hassert _].
  split; [exact demo_atari_reached|]. split; [exact Hon|]. split; [exact Hfree|].
  split; [exact Hat|]. split; [exact (Hraise Hat)|].
  apply Hassert. right. exact Hocc.
Defined.

Lemma place_stone_adds_one_stone_witness :
  @reachable_mem demo_zobrist demo_order demo_atari_mem ∧
  @place_stone demo_zobrist demo_order black (mkPoint 3 4) demo_atari_mem
  = Returned tt demo_extend_mem ∧
  (∀ q, get (self demo_extend_mem) q
        = if decide (q = mkPoint 3 4) then Some black
          else get (self demo_atari_mem) q) ∧
  zobrist_hash (self demo_extend_mem)
  = Z.lxor (zobrist_hash (self demo_atari_mem))
           (@HASH_CODE demo_zobrist (mkPoint 3 4) black).
Proof.
  pose proof (@place_stone_adds_one_stone demo_zobrist demo_order demo_atari_mem
                black (mkPoint 3 4) demo_extend_mem) as Hthm.
  specialize (Hthm demo_atari_reached demo_extend_returned).
  destruct Hthm as (Hget & _ & _ & Hhash & _).
  split; [exact demo_atari_reached|]. split; [exact demo_extend_returned|].
  split; [exact Hget|exact Hhash].
Defined.

Lemma place_stone_merges_neighbors_witness :
  @reachable_mem demo_zobrist demo_order demo_atari_mem ∧
  @place_stone demo_zobrist demo_order black (mkPoint 3 4) demo_atari_mem
  = Returned tt demo_extend_mem ∧
  ∃ new, get_go_string (self demo_extend_mem) (mkPoint 3 4) = Some new ∧
         GoString.color (obj new) = black ∧
         get_go_string (self demo_extend_mem) (mkPoint 3 3) = Some new.
Proof.
  pose proof (@place_stone_merges_neighbors demo_zobrist demo_order demo_atari_mem
                black (mkPoint 3 4) demo_extend_mem) as Hthm.
  specialize (Hthm demo_atari_reached demo_extend_returned).
  destruct Hthm as (new & Hnew & Hcol & Hstones & Hall).
  split; [exact demo_atari_reached|]. split; [exact demo_extend_returned|].
  exists new. split; [exact Hnew|]. split; [exact Hcol|].
  apply Hall. apply Hstones. right.
  exists (mkPoint 3 3), demo_atari_black.
  split; [refine (bool_decide_unpack _ _); vm_compute; exact I|].
  split; [exact demo_atari_black_stored|].
  split; [vm_compute; reflexivity|].
  refine (bool_decide_unpack _ _). vm_compute. exact I.
Defined.

Lemma demo_eye_reached :
  boards demo_eye_world !! board demo_eye_state = Some (self demo_eye_mem) ∧
  @reachable_mem demo_zobrist demo_order
    (mkMem (self demo_eye_mem) (next_free demo_eye_world)).
Proof.
  split; [vm_compute; reflexivity|].
  apply (@reachable_mem_place_all demo_zobrist demo_order
           demo_eye_moves demo_fresh).
  - apply reachable_mem_init.
  - vm_compute. reflexivity.
Qed.

Lemma demo_first_game :
  @game demo_zobrist demo_order demo_first_world demo_first_state.
Proof.
  assert (Hnew : @new_game demo_zobrist (inl 5) (mkWorld ∅ 0)
                 = Returned demo_root_state demo_root_world)
    by (vm_compute; reflexivity).
  assert (Hmove : @apply_move demo_zobrist demo_order demo_root_state
                    (demo_play 1 1) demo_root_world
                  = Returned demo_first_state demo_first_world)
    by (vm_compute; reflexivity).
  exact (@game_move demo_zobrist demo_order demo_root_state (demo_play 1 1)
           demo_root_world demo_first_state demo_first_world
           (@game_new demo_zobrist demo_order (inl 5) (mkWorld ∅ 0)
              demo_root_state demo_root_world Hnew)
           Hmove).
Qed.

Lemma legality_checks_keep_boards_witness :
  boards demo_eye_world !! board demo_eye_state = Some (self demo_eye_mem) ∧
  fault_of (@is_valid_move demo_zobrist demo_order demo_eye_state
              (demo_play 3 3) demo_eye_world) = None ∧
  boards (final_state (@is_valid_move demo_zobrist demo_order demo_eye_state
                         (demo_play 3 3) demo_eye_world))
    !! board demo_eye_state = Some (self demo_eye_mem).
Proof.
  destruct demo_eye_reached as [Hb _].
  pose proof (@legality_checks_keep_boards demo_zobrist demo_order
                demo_eye_state white (demo_play 3 3) demo_eye_world
                (board demo_eye_state) (self demo_eye_mem)) as Hthm.
  specialize (Hthm Hb). destruct Hthm as [Hvalid _].
  split; [exact Hb|]. split; [vm_compute; reflexivity|exact Hvalid].
Defined.

Lemma is_valid_move_outcome_witness :
  boards demo_eye_world !! board demo_eye_state = Some (self demo_eye_mem) ∧
  Move.play (mkPoint 2 2) = Value (demo_play 2 2) ∧
  is_over demo_eye_state = Value false ∧
  get (self demo_eye_mem) (mkPoint 2 2) ≠ None ∧
  @is_valid_move demo_zobrist demo_order demo_eye_state (demo_play 2 2)
    demo_eye_world = Returned false demo_eye_world.
Proof.
  destruct demo_eye_reached as [Hb Hr].
  assert (Hmv : Move.play (mkPoint 2 2) = Value (demo_play 2 2)) by reflexivity.
  assert (Hover : is_over demo_eye_state = Value false) by reflexivity.
  assert (Hocc : get (self demo_eye_mem) (mkPoint 2 2) ≠ None)
    by (vm_compute; discriminate).
  pose proof (@is_valid_move_outcome demo_zobrist demo_order
                demo_eye_state demo_eye_world (self demo_eye_mem) Hb Hr
                (mkPoint 2 2) (demo_play 2 2) Hmv Hover) as Hthm.
  destruct Hthm as [Hfalse _].
  split; [exact Hb|]. split; [exact Hmv|]. split; [exact Hover|].
  split; [exact Hocc|]. exact (Hfalse Hocc).
Defined.

Lemma valid_move_can_be_applied_witness :
  @is_valid_move demo_zobrist demo_order demo_eye_state (demo_play 3 3)
    demo_eye_world = Returned true demo_eye_checked ∧
  ∃ s' w'', @apply_move demo_zobrist demo_order demo_eye_state (demo_play 3 3)
              demo_eye_checked = Returned s' w'' ∧
            next_player s' = black ∧ last_move s' = Some (demo_play 3 3).
Proof.
  destruct demo_eye_reached as [Hb Hr].
  assert (Hvalid : @is_valid_move demo_zobrist demo_order demo_eye_state
                     (demo_play 3 3) demo_eye_world
                   = Returned true demo_eye_checked)
    by (vm_compute; reflexivity).
  assert (Hmv : (∃ point, Move.play point = Value (demo_play 3 3)) ∨
                Move.pass_turn = Value (demo_play 3 3) ∨
                Move.resign = Value (demo_play 3 3)).
  { left. exists (mkPoint 3 3). reflexivity. }
  pose proof (@valid_move_can_be_applied demo_zobrist demo_order
                demo_eye_state demo_eye_world (self demo_eye_mem) Hb Hr
                (demo_play 3 3) demo_eye_checked Hmv Hvalid) as Hthm.
  destruct Hthm as (s' & w'' & Happly & Hnext & _ & Hlast & _).
  split; [exact Hvalid|]. exists s', w''.
  split; [exact Happly|]. split; [exact Hnext|exact Hlast].
Defined.

Lemma eye_is_closed_to_opponent_witness :
  is_point_an_eye (self demo_eye_mem) (mkPoint 1 1) black = true ∧
  next_player demo_eye_state = white ∧
  ∀ w', @is_valid_move demo_zobrist demo_order demo_eye_state (demo_play 1 1)
          demo_eye_world ≠ Returned true w'.
Proof.
  destruct demo_eye_reached as [Hb Hr].
  assert (Heye : is_point_an_eye (self demo_eye_mem) (mkPoint 1 1) black = true)
    by (vm_compute; reflexivity).
  assert (Hnext : next_player demo_eye_state = other black) by reflexivity.
  assert (Hmv : Move.play (mkPoint 1 1) = Value (demo_play 1 1)) by reflexivity.
  split; [exact Heye|]. split; [exact Hnext|]. intros w'.
  exact (@eye_is_closed_to_opponent demo_zobrist demo_order
           demo_eye_state demo_eye_world (self demo_eye_mem) Hb Hr
           (mkPoint 1 1) black (demo_play 1 1) w' Heye Hnext Hmv).
Defined.

Lemma is_over_after_apply_move_witness :
  @apply_move demo_zobrist demo_order demo_root_state (demo_play 1 1)
    demo_root_world = Returned demo_first_state demo_first_world ∧
  is_over demo_first_state = Value false.
Proof.
  assert (Hmove : @apply_move demo_zobrist demo_order demo_root_state
                    (demo_play 1 1) demo_root_world
                  = Returned demo_first_state demo_first_world)
    by (vm_compute; reflexivity).
  pose proof (@is_over_after_apply_move demo_zobrist demo_order
                demo_root_state (demo_play 1 1) demo_root_world
                demo_first_state demo_first_world Hmove) as Hthm.
  destruct Hthm as [Hover _].
  split; [exact Hmove|exact Hover].
Defined.

Lemma history_is_all_situations_witness :
  @game demo_zobrist demo_order demo_first_world demo_first_state ∧
  ancestors demo_first_state = [demo_root_state] ∧
  ∀ x, x ∈ previous_states demo_first_state ↔
       ∃ a b, a ∈ ancestors demo_first_state ∧
              boards demo_first_world !! board a = Some b ∧
              x = (next_player a, zobrist_hash b).
Proof.
  split; [exact demo_first_game|]. split; [reflexivity|].
  exact (@history_is_all_situations demo_zobrist demo_order
           demo_first_world demo_first_state demo_first_game).
Defined.

Lemma game_boards_are_reached_witness :
  @game demo_zobrist demo_order demo_first_world demo_first_state ∧
  ∃ b, boards demo_first_world !! board demo_root_state = Some b ∧
       @reachable_mem demo_zobrist demo_order
         (mkMem b (next_free demo_first_world)).
Proof.
  split; [exact demo_first_game|].
  assert (Ha : demo_root_state = demo_first_state ∨
               demo_root_state ∈ ancestors demo_first_state).
  { right. apply list_elem_of_singleton. reflexivity. }
  pose proof (@game_boards_are_reached demo_zobrist demo_order
                demo_first_world demo_first_state demo_root_state
                demo_first_game Ha) as Hthm.
  destruct Hthm as (b & Hb & Hr & _).
  exists b. split; [exact Hb|exact Hr].
Defined.

Lemma ko_is_repetition_witness :
  @game demo_zobrist demo_order demo_first_world demo_first_state ∧
  boards demo_first_world !! board demo_first_state = Some demo_first_board ∧
  get demo_first_board (mkPoint 2 2) = None ∧
  ¬ in_atari_next_to demo_first_board white (mkPoint 2 2) ∧
  ∃ ko w', @does_move_violate_ko demo_zobrist demo_order demo_first_state white
             (demo_play 2 2) demo_first_world = Returned ko w'.
Proof.
  assert (Hb : boards demo_first_world !! board demo_first_state
               = Some demo_first_board) by (vm_compute; reflexivity).
  assert (Hmv : Move.play (mkPoint 2 2) = Value (demo_play 2 2)) by reflexivity.
  assert (Hon : is_on_grid demo_first_board (mkPoint 2 2) = true)
    by (vm_compute; reflexivity).
  assert (Hfree : get demo_first_board (mkPoint 2 2) = None)
    by (vm_compute; reflexivity).
  assert (Hno : ¬ in_atari_next_to demo_first_board white (mkPoint 2 2)).
  { intros (nb & r & Hnb & Hr & _).
    apply list_elem_of_In in Hnb. simpl in Hnb.
    destruct Hnb as [<-|[<-|[<-|[<-|[]]]]]; vm_compute in Hr; discriminate. }
  pose proof (@ko_is_repetition demo_zobrist demo_order demo_first_world
                demo_first_state demo_first_board white (mkPoint 2 2)
                (demo_play 2 2) demo_first_game Hb Hmv Hon Hfree Hno) as Hthm.
  destruct Hthm as (ko & w' & Hret & _).
  split; [exact demo_first_game|]. split; [exact Hb|]. split; [exact Hfree|].
  split; [exact Hno|]. exists ko, w'. exact Hret.
Defined.

Lemma remove_string_outcome_witness :
  live (self demo_atari_mem) demo_atari_black ∧
  ∃ m', @_remove_string demo_zobrist demo_order demo_atari_black demo_atari_mem
        = Raised AttributeError m'.
Proof.
  assert (Hlive : live (self demo_atari_mem) demo_atari_black).
  { assert (Hst : GoString.stones (obj demo_atari_black) = {[ mkPoint 3 3 ]})
      by (vm_compute; reflexivity).
    intros q Hq. rewrite Hst in Hq. apply elem_of_singleton in Hq as ->.
    vm_compute. reflexivity. }
  pose proof (@remove_string_outcome demo_zobrist demo_order
                demo_atari_black demo_atari_mem Hlive) as Hthm.
  destruct Hthm as [_ Hraise].
  split; [exact Hlive|]. apply Hraise.
  exists (mkPoint 3 3), (mkPoint 2 3).
  eexists. split; [refine (bool_decide_unpack _ _); vm_compute; exact I|].
  split; [refine (bool_decide_unpack _ _); vm_compute; exact I|].
  split; vm_compute; reflexivity.
Defined.

Lemma self_capture_iff_witness :
  boards demo_eye_world !! board demo_eye_state = Some (self demo_eye_mem) ∧
  get (self demo_eye_mem) (mkPoint 3 3) = None ∧
  ¬ in_atari_next_to (self demo_eye_mem) white (mkPoint 3 3) ∧
  ∃ sc w', @is_move_self_capture demo_zobrist demo_order demo_eye_state white
             (demo_play 3 3) demo_eye_world = Returned sc w'.
Proof.
  destruct demo_eye_reached as [Hb Hr].
  assert (Hmv : Move.play (mkPoint 3 3) = Value (demo_play 3 3)) by reflexivity.
  assert (Hon : is_on_grid (self demo_eye_mem) (mkPoint 3 3) = true)
    by (vm_compute; reflexivity).
  assert (Hfree : get (self demo_eye_mem) (mkPoint 3 3) = None)
    by (vm_compute; reflexivity).
  assert (Hno : ¬ in_atari_next_to (self demo_eye_mem) white (mkPoint 3 3)).
  { intros (nb & r & Hnb & Hg & _).
    apply list_elem_of_In in Hnb. simpl in Hnb.
    destruct Hnb as [<-|[<-|[<-|[<-|[]]]]]; vm_compute in Hg; discriminate. }
  pose proof (@self_capture_iff demo_zobrist demo_order demo_eye_state
                demo_eye_world (self demo_eye_mem) white (mkPoint 3 3)
                (demo_play 3 3) Hb Hr Hmv Hon Hfree Hno) as Hthm.
  destruct Hthm as (sc & w' & Hret & _).
  split; [exact Hb|]. split; [exact Hfree|]. split; [exact Hno|].
  exists sc, w'. exact Hret.
Defined.
